(** * Rantanplan: metrical scansion of Spanish verse

    A shallow embedding of [rantanplan/core.py] and the verification of
    its specification.  Python strings are sequences of Unicode code
    points, dictionaries with a fixed set of optional keys are records
    with [option] fields, exceptions are an explicit outcome, and the
    [while] loop of the group reducer runs on a pass budget that is shown
    to be sufficient. *)

From Stdlib Require Import String Ascii.
From Stdlib Require Import List ZArith NArith Lia Bool Arith.
Import ListNotations.

Set Implicit Arguments.
Unset Strict Implicit.

Open Scope string_scope.
Open Scope nat_scope.
Open Scope list_scope.

(** ** Strings *)

Definition char := N.
Definition str := list char.

(** Decoding of the UTF-8 bytes of a literal into code points, so that
    the tables below can be written as in the source. *)
Fixpoint utf8 (bs : list N) : str :=
  match bs with
  | [] => []
  | b :: r =>
    if (b <? 128)%N then b :: utf8 r
    else if (b <? 224)%N then
      match r with
      | b2 :: r' => ((b - 192) * 64 + (b2 - 128))%N :: utf8 r'
      | [] => []
      end
    else if (b <? 240)%N then
      match r with
      | b2 :: b3 :: r' =>
        ((b - 224) * 4096 + (b2 - 128) * 64 + (b3 - 128))%N :: utf8 r'
      | _ => []
      end
    else
      match r with
      | b2 :: b3 :: b4 :: r' =>
        ((b - 240) * 262144 + (b2 - 128) * 4096
         + (b3 - 128) * 64 + (b4 - 128))%N :: utf8 r'
      | _ => []
      end
  end.

Definition u (s : string) : str :=
  utf8 (map N_of_ascii (list_ascii_of_string s)).

Definition char_eqb (a b : char) : bool := N.eqb a b.

Fixpoint str_eqb (a b : str) : bool :=
  match a, b with
  | [], [] => true
  | x :: a', y :: b' => char_eqb x y && str_eqb a' b'
  | _, _ => false
  end.

(** [x in s] for a character and a set (or string) of characters. *)
Definition mem (x : char) (s : str) : bool := existsb (char_eqb x) s.

(** [w in S] for a string and a set of strings. *)
Definition smem (w : str) (S : list str) : bool := existsb (str_eqb w) S.

(** [sep.join(parts)] *)
Fixpoint join (sep : str) (parts : list str) : str :=
  match parts with
  | [] => []
  | [p] => p
  | p :: rest => p ++ sep ++ join sep rest
  end.

(** [s.split(sep)] for a one-character separator. *)
Fixpoint split_aux (sep : char) (cur : str) (s : str) : list str :=
  match s with
  | [] => [rev cur]
  | c :: s' =>
    if char_eqb c sep then rev cur :: split_aux sep [] s'
    else split_aux sep (c :: cur) s'
  end.

Definition split (sep : char) (s : str) : list str := split_aux sep [] s.

Definition HYPHEN : char := 45%N.
Definition NEWLINE : char := 10%N.
Definition BAR : char := 124%N.

(** Simple lower-case mapping of a code point ([Py_UNICODE_TOLOWER]).
    Spelled out for Basic Latin, Latin-1 and the code points beyond them
    whose lower case falls into these two blocks; every other code point
    lower-cases to a code point outside both blocks, which no test of
    this program distinguishes from the code point itself. *)
Definition tolower (c : char) : char :=
  if ((65 <=? c) && (c <=? 90))%N then (c + 32)%N
  else if ((192 <=? c) && (c <=? 222) && negb (c =? 215))%N then (c + 32)%N
  else if (c =? 304)%N then 105%N
  else if (c =? 376)%N then 255%N
  else if (c =? 7838)%N then 223%N
  else if (c =? 8490)%N then 107%N
  else if (c =? 8491)%N then 229%N
  else c.

(** [c.lower()] for a one-character string: the full mapping differs
    from the simple one at U+0130, which becomes two code points. *)
Definition lower_char (c : char) : str :=
  if (c =? 304)%N then [105%N; 775%N] else [tolower c].

(** [s.lower()], by the mapping above.  Beyond the code points spelled
    out there a string and its lower case are told apart in one place
    only, the key under which [syllabify] looks a word up in the table of
    the alternative syllabifications; that table is a parameter below,
    and nothing is derived from what it holds under such a key. *)
Definition lower (s : str) : str := flat_map lower_char s.

(** ** Exceptions *)

Inductive exn : Type :=
| IndexError
| ValueError
| UnboundLocalError.

(** The result of running a piece of the program: a value, a raised
    exception, or [OutOfFuel] when the pass budget of a loop of the model
    is used up (the source has no budget; see
    [get_phonological_groups_fuel_enough]). *)
Inductive outcome (A : Type) : Type :=
| Ret (a : A)
| Raise (e : exn)
| OutOfFuel.

Arguments Ret {A} a.
Arguments Raise {A} e.
Arguments OutOfFuel {A}.

Definition bind {A B} (m : outcome A) (f : A -> outcome B) : outcome B :=
  match m with
  | Ret a => f a
  | Raise e => Raise e
  | OutOfFuel => OutOfFuel
  end.

Declare Scope outcome_scope.
Delimit Scope outcome_scope with outcome.
Notation "x <- m ;; k" := (bind m (fun x => k))
  (at level 61, m at next level, right associativity) : outcome_scope.
Notation "' p <- m ;; k" := (bind m (fun x => let 'p := x in k))
  (at level 61, p pattern, m at next level, right associativity)
  : outcome_scope.
Open Scope outcome_scope.

(** [l[i]] for a non-negative index. *)
Definition index {A} (l : list A) (i : nat) : outcome A :=
  match nth_error l i with
  | Some a => Ret a
  | None => Raise IndexError
  end.

(** ** Data model *)

Inductive liaison : Type := synalepha | sinaeresis.

Definition liaison_eqb (a b : liaison) : bool :=
  match a, b with
  | synalepha, synalepha | sinaeresis, sinaeresis => true
  | _, _ => false
  end.

(** A syllable (or phonological group) dictionary.  The keys
    ["syllable"] and ["is_stressed"] are always present; the others are
    optional. *)
Record Syllable : Type := mkSyllable {
  text : str;
  is_stressed : bool;
  is_word_end : option bool;
  has_synalepha : option bool;
  has_sinaeresis : option bool;
  synalepha_index : option (list Z);
  sinaeresis_index : option (list Z)
}.

Definition plain (t : str) (stressed : bool) : Syllable :=
  mkSyllable t stressed None None None None None.

(** The key [f"has_{liaison_type}"]. *)
Definition has_liaison (lt : liaison) (s : Syllable) : option bool :=
  match lt with
  | synalepha => has_synalepha s
  | sinaeresis => has_sinaeresis s
  end.

(** The key [f"{liaison_type}_index"]. *)
Definition liaison_boundaries (lt : liaison) (s : Syllable)
  : option (list Z) :=
  match lt with
  | synalepha => synalepha_index s
  | sinaeresis => sinaeresis_index s
  end.

Definition set_has_liaison (lt : liaison) (v : option bool) (s : Syllable)
  : Syllable :=
  match lt with
  | synalepha =>
    mkSyllable (text s) (is_stressed s) (is_word_end s) v
               (has_sinaeresis s) (synalepha_index s) (sinaeresis_index s)
  | sinaeresis =>
    mkSyllable (text s) (is_stressed s) (is_word_end s) (has_synalepha s)
               v (synalepha_index s) (sinaeresis_index s)
  end.

Definition set_is_word_end (v : option bool) (s : Syllable) : Syllable :=
  mkSyllable (text s) (is_stressed s) v (has_synalepha s)
             (has_sinaeresis s) (synalepha_index s) (sinaeresis_index s).

(** ** Rhythmical analysis: constants *)

Definition SPACE : str := Eval vm_compute in u "SPACE".
Definition STRONG_VOWELS : str := Eval vm_compute in u "aeoáéóÁÉÓAEO".
Definition WEAK_VOWELS : str := Eval vm_compute in u "iuüíúIÍUÜÚ".
Definition LIAISON_FIRST_PART : str :=
  Eval vm_compute in u "aeiouáéíóúAEIOUÁÉÍÓÚyY".
Definition LIAISON_SECOND_PART : str :=
  Eval vm_compute in u "aeiouáéíóúAEIOUÁÉÍÓÚhyYH".
Definition STRESSED_UNACCENTED_MONOSYLLABLES : list str :=
  Eval vm_compute in
    map u ["yo"; "vio"; "dio"; "fe"; "sol"; "ti"; "un"]%string.
Definition UNSTRESSED_UNACCENTED_MONOSYLLABLES : list str :=
  Eval vm_compute in
    map u ["de"; "el"; "la"; "las"; "le"; "les"; "lo"; "los"; "mas"; "me";
           "mi"; "nos"; "os"; "que"; "se"; "si"; "su"; "tan"; "te"; "tu";
           "tus"; "oh"]%string.
Definition UNSTRESSED_FORMS : list str :=
  Eval vm_compute in
    map u ["que"; "cual"; "quien"; "donde"; "cuando"; "cuanto";
           "como"]%string.
Definition POSSESSIVE_PRON : list str :=
  Eval vm_compute in
    map u ["mío"; "mía"; "míos"; "mías"; "tuyo"; "tuya"; "tuyos"; "tuyas";
           "suyo"; "suya"; "suyos"; "suyas"]%string.
Definition POSSESSIVE_PRON_UNSTRESSED : list str :=
  Eval vm_compute in
    map u ["nuestro"; "nuestra"; "nuestros"; "nuestras"; "vuestro";
           "vuestra"; "vuestros"; "vuestras"]%string.

(** ** Rhythmical analysis: liaison between two syllables *)

(** [s[-1]] *)
Definition last_char (s : str) : outcome char :=
  match rev s with
  | c :: _ => Ret c
  | [] => Raise IndexError
  end.

(** [s[0]] *)
Definition first_char (s : str) : outcome char := index s 0.

Definition LIAISON_BLOCKING_VOWELS : str :=
  Eval vm_compute in u "aeiouáéíúó".

(** [c.lower() in set(chars)] for a one-character string [c]. *)
Definition lower_in (c : char) (chars : str) : bool :=
  match lower_char c with
  | [l] => mem l chars
  | _ => false
  end.

(** [c.lower() == 'x'] for a one-character string [c]. *)
Definition lower_is (c : char) (x : char) : bool :=
  str_eqb (lower_char c) [x].

Definition have_prosodic_liaison (first_syllable second_syllable : Syllable)
  : outcome bool :=
  c0 <- first_char (text second_syllable) ;;
  if lower_is c0 121%N
     && (1 <? length (text second_syllable))
     && match nth_error (text second_syllable) 1 with
        | Some c1 => lower_in c1 LIAISON_BLOCKING_VOWELS
        | None => false
        end
  then Ret false
  else
    l <- last_char (text first_syllable) ;;
    if mem l LIAISON_FIRST_PART then
      f <- first_char (text second_syllable) ;;
      Ret (mem f LIAISON_SECOND_PART)
    else Ret false.

(** ** Rhythmical analysis: stresses and their formats *)

Fixpoint find_true (l : list bool) : option nat :=
  match l with
  | [] => None
  | true :: _ => Some 0
  | false :: l' => option_map S (find_true l')
  end.

(** [l.index(True)] *)
Definition index_true (l : list bool) : outcome nat :=
  match find_true l with
  | Some i => Ret i
  | None => Raise ValueError
  end.

Definition get_stresses (phonological_groups : list Syllable)
  : outcome (list bool) :=
  let stresses := map is_stressed phonological_groups in
  i <- index_true (rev stresses) ;;
  let last_stress := (- (Z.of_nat i + 1))%Z in
  if (last_stress =? -1)%Z then Ret (stresses ++ [false])
  else if (last_stress <=? -3)%Z then Ret (removelast stresses)
  else Ret stresses.

Fixpoint digits (d : Decimal.uint) : str :=
  match d with
  | Decimal.Nil => []
  | Decimal.D0 d => 48%N :: digits d
  | Decimal.D1 d => 49%N :: digits d
  | Decimal.D2 d => 50%N :: digits d
  | Decimal.D3 d => 51%N :: digits d
  | Decimal.D4 d => 52%N :: digits d
  | Decimal.D5 d => 53%N :: digits d
  | Decimal.D6 d => 54%N :: digits d
  | Decimal.D7 d => 55%N :: digits d
  | Decimal.D8 d => 56%N :: digits d
  | Decimal.D9 d => 57%N :: digits d
  end.

(** [str(n)] for a non-negative integer. *)
Definition str_of_nat (n : nat) : str := digits (Nat.to_uint n).

(** [[str(index + 1) for index, stress in enumerate(stresses) if stress]],
    the enumeration starting at [i]. *)
Fixpoint stressed_indices (i : nat) (stresses : list bool) : list str :=
  match stresses with
  | [] => []
  | b :: rest =>
    if b then str_of_nat (i + 1) :: stressed_indices (S i) rest
    else stressed_indices (S i) rest
  end.

Definition INDEXED : str := Eval vm_compute in u "indexed".
Definition BINARY : str := Eval vm_compute in u "binary".
Definition PATTERN : str := Eval vm_compute in u "pattern".

(** The default value of the parameter [indexed_separator]. *)
Definition default_indexed_separator : str := Eval vm_compute in u "-".

Definition format_stress (stresses : list bool) (rhythm_format : str)
           (indexed_separator : str) : str :=
  if str_eqb rhythm_format INDEXED then
    join indexed_separator (stressed_indices 0 stresses)
  else if str_eqb rhythm_format BINARY then
    join [] (map (fun stress : bool => if stress then [49%N] else [48%N])
                 stresses)
  else
    join [] (map (fun stress : bool => if stress then [43%N] else [45%N])
                 stresses).

Record rhythm : Type := mkRhythm {
  stress : str;
  type : str;
  length_ : Z
}.

Definition get_rhythmical_pattern (phonological_groups : list Syllable)
           (rhythm_format : str) : outcome rhythm :=
  stresses <- get_stresses phonological_groups ;;
  let stress := format_stress stresses rhythm_format
                              default_indexed_separator in
  Ret (mkRhythm stress rhythm_format (Z.of_nat (length stresses))).

(** ** Rhythmical analysis: phonological groups *)

(** A breakage function: [breakage_func(liaison_type, syllable,
    next_syllable)]. *)
Definition breakage : Type := liaison -> Syllable -> Syllable -> outcome bool.

Definition break_on_h : breakage :=
  fun liaison_type syllable_left syllable_right =>
    if liaison_eqb liaison_type synalepha then
      c <- first_char (text syllable_right) ;;
      Ret (lower_is c 104%N)
    else Ret false.

(** The local variables of [get_phonological_groups] that live across
    the iterations of its [for] loop.  [next_syllable] and [skip_next]
    also survive from one pass of the [while] loop to the next;
    [next_syllable] is [None] until its first assignment.  [fused] is a
    ghost counter of the fusions performed; the source has no such
    variable and nothing in the model reads it. *)
Record scan_state : Type := mkScan {
  skip_next : bool;
  next_syllable : option Syllable;
  reduced_syllables : list Syllable;
  liaison_index : list Z;
  fused : nat
}.

(** The dictionary [liaison] built when [syllable] absorbs
    [next_syllable]. *)
Definition fuse (liaison_type : liaison) (syllable next_syllable : Syllable)
  : Syllable :=
  let boundary_index :=
    match liaison_boundaries liaison_type syllable with
    | Some l => l
    | None => []
    end ++ [(Z.of_nat (length (text syllable)) - 1)%Z] in
  match liaison_type with
  | synalepha =>
    mkSyllable (text syllable ++ text next_syllable)
               (is_stressed syllable || is_stressed next_syllable)
               (is_word_end next_syllable)
               (has_synalepha next_syllable) None
               (Some boundary_index) None
  | sinaeresis =>
    mkSyllable (text syllable ++ text next_syllable)
               (is_stressed syllable || is_stressed next_syllable)
               (is_word_end next_syllable)
               None (has_sinaeresis next_syllable)
               None (Some boundary_index)
  end.

Definition truthy (z : Z) : bool := negb (z =? 0)%Z.

Section Scan.

Variable liaison_type : liaison.
Variable breakage_func : option breakage.
Variable syllables : list Syllable.
Variable liaison_positions : list Z.

(** The body of the [for] loop, at index [idx]. *)
Definition scan_step (idx : nat) (syllable : Syllable) (st : scan_state)
  : outcome scan_state :=
  if skip_next st then
    Ret (mkScan false (next_syllable st) (reduced_syllables st)
                (liaison_index st) (fused st))
  else
    '(next, breaks) <-
      (if (Z.of_nat idx <? Z.of_nat (length syllables) - 1)%Z then
         nxt <- index syllables (idx + 1) ;;
         b <- match breakage_func with
              | Some f => f liaison_type syllable nxt
              | None => Ret false
              end ;;
         Ret (Some nxt, b)
       else Ret (next_syllable st, false)) ;;
    position <- index liaison_positions idx ;;
    if truthy position && negb breaks then
      match next with
      | None => Raise UnboundLocalError
      | Some nxt =>
        let liaison := fuse liaison_type syllable nxt in
        following <- index liaison_positions (idx + 1) ;;
        Ret (mkScan true next (reduced_syllables st ++ [liaison])
                    (liaison_index st ++ [following]) (S (fused st)))
      end
    else
      Ret (mkScan false next (reduced_syllables st ++ [syllable])
                  (liaison_index st ++ [0%Z]) (fused st)).

(** [for idx, syllable in enumerate(syllables)], from index [idx] on. *)
Fixpoint scan_from (idx : nat) (rest : list Syllable) (st : scan_state)
  : outcome scan_state :=
  match rest with
  | [] => Ret st
  | syllable :: rest' =>
    st' <- scan_step idx syllable st ;;
    scan_from (S idx) rest' st'
  end.

End Scan.

(** One pass of the [while] loop: a full scan of [syllables]. *)
Definition scan (liaison_type : liaison) (breakage_func : option breakage)
           (syllables : list Syllable) (liaison_positions : list Z)
           (skip : bool) (next : option Syllable) (count : nat)
  : outcome scan_state :=
  scan_from liaison_type breakage_func syllables liaison_positions
            0 syllables (mkScan skip next [] [] count).

Definition sum (l : list Z) : Z := fold_right Z.add 0%Z l.

(** [while sum(liaison_positions) > 0], with at most [fuel] passes. *)
Fixpoint reduce (fuel : nat) (liaison_type : liaison)
         (breakage_func : option breakage)
         (syllables : list Syllable) (liaison_positions : list Z)
         (skip : bool) (next : option Syllable) (count : nat)
  : outcome (list Syllable * list Z * nat) :=
  if (0 <? sum liaison_positions)%Z then
    match fuel with
    | O => OutOfFuel
    | S fuel' =>
      st <- scan liaison_type breakage_func syllables liaison_positions
                 skip next count ;;
      reduce fuel' liaison_type breakage_func
             (reduced_syllables st) (liaison_index st)
             (skip_next st) (next_syllable st) (fused st)
    end
  else Ret (syllables, liaison_positions, count).

Fixpoint clean_from (liaison_type : liaison) (liaison_positions : list Z)
         (idx : nat) (groups : list Syllable) : outcome (list Syllable) :=
  match groups with
  | [] => Ret []
  | group :: rest =>
    g <- match has_liaison liaison_type group with
         | Some _ =>
           position <- index liaison_positions idx ;;
           Ret (set_has_liaison liaison_type (Some (truthy position)) group)
         | None => Ret group
         end ;;
    gs <- clean_from liaison_type liaison_positions (S idx) rest ;;
    Ret (g :: gs)
  end.

Definition clean_phonological_groups (groups : list Syllable)
           (liaison_positions : list Z) (liaison_type : liaison)
  : outcome (list Syllable) :=
  clean_from liaison_type liaison_positions 0 groups.

(** [[int(syllable.get(liaison_property, 0)) for syllable in syllables]] *)
Definition flag_positions (liaison_type : liaison)
           (syllables : list Syllable) : list Z :=
  map (fun s => match has_liaison liaison_type s with
                | Some true => 1%Z
                | _ => 0%Z
                end) syllables.

(** [get_phonological_groups], returning with the groups the number of
    fusions performed (ghost).  Two passes more than there are syllables
    are allowed, which is always enough. *)
Definition get_phonological_groups_fused (fuel : nat)
           (word_syllables : list Syllable)
           (liaison_type : liaison) (breakage_func : option breakage)
           (liaison_positions : option (list Z))
  : outcome (list Syllable * nat) :=
  let syllables := word_syllables in
  let liaison_positions :=
    match liaison_positions with
    | Some l => l
    | None => flag_positions liaison_type syllables
    end in
  '(syllables, liaison_positions, count) <-
    reduce fuel liaison_type breakage_func syllables liaison_positions
           false None 0 ;;
  groups <- clean_phonological_groups syllables liaison_positions
                                      liaison_type ;;
  Ret (groups, count).

Definition get_phonological_groups (word_syllables : list Syllable)
           (liaison_type : liaison) (breakage_func : option breakage)
           (liaison_positions : option (list Z))
  : outcome (list Syllable) :=
  r <- get_phonological_groups_fused (length word_syllables + 2)
         word_syllables liaison_type breakage_func liaison_positions ;;
  Ret (fst r).

(** ** Regular expressions

    The patterns of the module, as terms, with the backtracking matcher
    of Python's [re]: alternatives are tried in order, repetitions are
    greedy, and the first way of matching that succeeds is the match. *)

Inductive re : Type :=
| Eps                         (* the empty pattern *)
| Cls (p : char -> bool)      (* one character of a class *)
| Cat (r1 r2 : re)            (* r1 r2 *)
| Alt (r1 r2 : re)            (* r1 | r2 *)
| Star (p : char -> bool)     (* [class]*, greedy *)
| Opt (r : re)                (* r?, greedy *)
| Grp (n : nat) (r : re)      (* capturing group number n *)
| Bol                         (* ^ *)
| Eol                         (* $ *)
| NotAhead (r : re).          (* (?!r) *)

(** The groups closed so far, the most recent one first. *)
Definition caps : Type := list (nat * str).

Fixpoint group (c : caps) (n : nat) : str :=
  match c with
  | [] => []
  | (m, w) :: c' => if Nat.eqb m n then w else group c' n
  end.

(** [match.lastindex] *)
Definition lastindex (c : caps) : option nat :=
  match c with
  | [] => None
  | (m, _) :: _ => Some m
  end.

Definition cont : Type := nat -> str -> caps -> option (nat * caps).

Fixpoint star (p : char -> bool) (i : nat) (s : str) (c : caps) (k : cont)
  : option (nat * caps) :=
  match s with
  | x :: s' =>
    if p x then
      match star p (S i) s' c k with
      | Some a => Some a
      | None => k i s c
      end
    else k i s c
  | [] => k i [] c
  end.

(** [run r i s c k]: match [r] at position [i], where [s] is the rest of
    the subject from [i] on, then continue with [k]. *)
Fixpoint run (r : re) (i : nat) (s : str) (c : caps) (k : cont)
  : option (nat * caps) :=
  match r with
  | Eps => k i s c
  | Cls p =>
    match s with
    | x :: s' => if p x then k (S i) s' c else None
    | [] => None
    end
  | Cat r1 r2 => run r1 i s c (fun j s' c' => run r2 j s' c' k)
  | Alt r1 r2 =>
    match run r1 i s c k with
    | Some a => Some a
    | None => run r2 i s c k
    end
  | Star p => star p i s c k
  | Opt r' =>
    match run r' i s c k with
    | Some a => Some a
    | None => k i s c
    end
  | Grp n r' => run r' i s c (fun j s' c' => k j s' ((n, firstn (j - i) s) :: c'))
  | Bol => if Nat.eqb i 0 then k i s c else None
  | Eol =>
    match s with
    | [] => k i s c
    | [x] => if char_eqb x NEWLINE then k i s c else None
    | _ => None
    end
  | NotAhead r' =>
    match run r' i s c (fun j _ c' => Some (j, c')) with
    | Some _ => None
    | None => k i s c
    end
  end.

Definition accept : cont := fun j _ c => Some (j, c).

(** A match: where it starts, where it ends, and its groups. *)
Record rmatch : Type := mkMatch {
  m_start : nat;
  m_end : nat;
  m_caps : caps
}.

(** [pattern.match(s)] *)
Definition re_match (r : re) (s : str) : option rmatch :=
  match run r 0 s [] accept with
  | Some (j, c) => Some (mkMatch 0 j c)
  | None => None
  end.

(** The leftmost match at or after position [i], [s] being the rest of
    the subject from [i] on. *)
Fixpoint search_from (r : re) (i : nat) (s : str) : option rmatch :=
  match run r i s [] accept with
  | Some (j, c) => Some (mkMatch i j c)
  | None =>
    match s with
    | [] => None
    | _ :: s' => search_from r (S i) s'
    end
  end.

(** [pattern.search(s)] *)
Definition re_search (r : re) (s : str) : option rmatch := search_from r 0 s.

(** [re.sub(pattern, template, s)], from position [i] on.  None of the
    patterns given to [re.sub] in this module matches the empty string;
    the model stops replacing at an empty match. *)
Fixpoint sub_from (fuel : nat) (r : re) (template : caps -> str)
         (i : nat) (s : str) : str :=
  match fuel with
  | O => s
  | S fuel' =>
    match search_from r i s with
    | None => s
    | Some m =>
      if Nat.eqb (m_end m) (m_start m) then s
      else firstn (m_start m - i) s ++ template (m_caps m)
           ++ sub_from fuel' r template (m_end m) (skipn (m_end m - i) s)
    end
  end.

Definition re_sub (r : re) (template : caps -> str) (s : str) : str :=
  sub_from (length s) r template 0 s.

(** A character class under [re.I | re.U]: the character is lower-cased
    before the test, and dotless i and long s match [i] and [s]. *)
Definition icls (chars : str) : char -> bool :=
  fun x =>
    mem (tolower x) chars
    || ((x =? 305)%N && mem 105%N chars)
    || ((x =? 383)%N && mem 115%N chars).

Definition cls (chars : string) : re :=
  Cls (icls (u chars)).

(** [.] *)
Definition dot : char -> bool := fun x => negb (char_eqb x NEWLINE).

(** A sequence of patterns. *)
Fixpoint cat (rs : list re) : re :=
  match rs with
  | [] => Eps
  | [r] => r
  | r :: rs' => Cat r (cat rs')
  end.

Fixpoint alt (rs : list re) : re :=
  match rs with
  | [] => NotAhead Eps
  | [r] => r
  | r :: rs' => Alt r (alt rs')
  end.

(** *** Syllabification patterns *)

Definition accents_re : re := cls "áéíóú".

Definition paroxytone_re : re :=
  Cat (Grp 1 (alt [cls "aeiou"; cls "n"; Cat (cls "aeiou") (cls "s")])) Eol.

Definition letters : string := "abcdefghijklmnopqrstuvwxyzáéíóúñ".

Definition liquid_cluster : re :=
  cat [alt [Cat (cls "bcdfghjklmnñpqstvy") (cls "hlr");
            Cat (cls "bcdfghjklmnñpqrstvy") (cls "hr");
            Cat (cls "bcdfghjklmnñpqrstvyz") (cls "h")];
       cls "aáeéiíoóuúü"].

Definition letter_clusters_re : re :=
  alt [
    (* 1: weak vowels diphthong with h *)
    Grp 1 (cat [cls "iuü"; cls "h"; cls "iuü"]);
    (* 2: open vowels *)
    Grp 2 (cat [cls "aáeéíoóú"; cls "h"; cls "iuü"]);
    (* 3: closed vowels *)
    Grp 3 (cat [cls "iuü"; cls "h"; cls "aáeéíoóú"]);
    (* 4: liquid and mute consonants (adds hyphen) *)
    Grp 4 (Cat (cls letters) liquid_cluster);
    (* 5: any char followed by liquid and mute consonant *)
    Grp 5 liquid_cluster;
    (* 6: non-liquid consonant (adds hyphen) *)
    Grp 6 (cat [cls letters; cls "bcdfghjklmnñpqrstvxyz";
                cls "aáeéiíoóuúüï"]);
    (* 7: vowel group (adds hyphen) *)
    Grp 7 (cat [cls "aáeéíoóú"; cls "aáeéíoóú"]);
    (* 8: umlaut 'u' diphthongs *)
    Grp 8 (cat [cls "ü"; cls "iíaeo"]);
    (* 9: explicit hiatus with umlaut vowels, first part *)
    Grp 9 (cat [cls "aeiou"; cls "äëïöü"]);
    (* 10: explicit hiatus with umlaut vowels, second part *)
    Grp 10 (cat [cls "üäëïö"; cls "abcdefghijklmnopqrstuvwxyz"]);
    (* 11: any char *)
    Grp 11 (cls letters)
  ].

Definition PREFIX_DES_WITH_CONSONANT_RE : re :=
  cat [Bol; Grp 1 (cat [cls "d"; cls "e"; cls "s"]);
       Grp 2 (Cat (cls "bcdfgjklmhnñpqrstvxyz") (Star dot))].

Definition PREFIX_SIN_WITH_CONSONANT_RE : re :=
  cat [Bol; Grp 1 (cat [cls "s"; cls "i"; cls "n"]);
       Grp 2 (Cat (cls "bcdfgjklmhnñpqrstvxyz") (Star dot))].

Definition CONSONANT_GROUP : re :=
  Cat (Grp 1 (Cat (Star dot) (cls "hmnqsw")))
      (Grp 2 (cat [cls "hlr"; cls "aeiouáéíóú"; Star dot])).

Definition CONSONANT_GROUP_EXCEPTION_LL : re :=
  Cat (Grp 1 (Cat (Star dot) (cls "hlmnqsw")))
      (Grp 2 (cat [cls "hr"; cls "aeiouáéíóú"; Star dot])).

Definition CONSONANT_GROUP_EXCEPTION_DL : re :=
  Cat (Grp 1 (Cat (Star dot) (cls "d")))
      (Grp 2 (cat [cls "l"; cls "aeiouáéíóú"; Star dot])).

Definition W_VOWEL_GROUP : re :=
  Cat (Grp 1 (Cat (Star dot) (cls "aeiouáéíóú")))
      (Grp 2 (cat [cls "w"; cls "aeiouáéíóú"; Star dot])).

Definition hyphen : re := Cls (fun x => char_eqb x HYPHEN).

Definition HIATUS_FIRST_VOWEL_RE : re :=
  cat [Alt (Grp 1 (Cat (Star dot) hyphen)) Bol;
       Grp 2 (Alt (cls "äëïö")
                  (Cat (Cls (fun x => negb (icls (u "g") x))) (cls "ü")));
       Grp 3 (Cat (cls "aeiouúáéíó") (Star dot))].

Definition CONSONANT_CLUSTER_RE : re :=
  cat [Alt (Grp 1 (Cat (Star dot) hyphen)) Bol;
       Grp 2 (cls "mpgc");
       hyphen;
       Grp 3 (cat [cls "bcdfghjklmñnpqrstvwxyz"; cls "aeioáéíó"; Star dot])].

Definition consonants : string := "bcdfghjklmñnpqrstvwxyz".

(** The first group of the two diphthong patterns:
    [((?:.*-|^)(?:qu|[bcdfghjklmñnpqrstvwxyz]+)?)] *)
Definition onset : re :=
  Cat (Alt (Cat (Star dot) hyphen) Bol)
      (Opt (Alt (Cat (cls "q") (cls "u"))
                (Cat (cls consonants) (Star (icls (u consonants)))))).

Definition LOWERING_DIPHTHONGS_WITH_H : re :=
  cat [Grp 1 onset;
       Grp 2 (cls "aeo");
       hyphen;
       Grp 3 (cat [cls "h"; cls "iu"; NotAhead (cls "aeoiuíúáéó");
                   Star dot])].

Definition RAISING_DIPHTHONGS_WITH_H : re :=
  cat [Grp 1 onset;
       Grp 2 (cls "iu");
       hyphen;
       Grp 3 (cat [cls "h"; cls "aeiouáéó"; NotAhead (cls "aeoáéiuíú");
                   Star dot])].

(** ** Syllabifier *)

(** [if RE.match(word): match = RE.search(word); if match is not None:
    word = "-".join(match.groups())], for a pattern with two groups. *)
Definition apply_rule (r : re) (word : str) : str :=
  match re_match r word with
  | Some _ =>
    match re_search r word with
    | Some m => join [HYPHEN] [group (m_caps m) 1; group (m_caps m) 2]
    | None => word
    end
  | None => word
  end.

Definition apply_exception_rules (word : str) : str :=
  (* Vowel + w + vowel group *)
  let word := apply_rule W_VOWEL_GROUP word in
  (* Consonant groups with exceptions for LL and DL *)
  let word := apply_rule CONSONANT_GROUP word in
  let word := apply_rule CONSONANT_GROUP_EXCEPTION_LL word in
  let word := apply_rule CONSONANT_GROUP_EXCEPTION_DL word in
  (* Prefix 'sin' followed by consonant *)
  let word := apply_rule PREFIX_SIN_WITH_CONSONANT_RE word in
  (* Prefix 'des' followed by consonant *)
  let word := apply_rule PREFIX_DES_WITH_CONSONANT_RE word in
  word.

(** The templates [r'\1\2-\3'] and [r'\1\2\3']. *)
Definition template_hyphen (c : caps) : str :=
  group c 1 ++ group c 2 ++ [HYPHEN] ++ group c 3.

Definition template_plain (c : caps) : str :=
  group c 1 ++ group c 2 ++ group c 3.

(** [matches = regex.findall(word); if matches: for _ in matches[0]:
    word = re.sub(regex, template, word)].  The patterns have three
    groups, so [matches[0]] is a triple and the substitution runs three
    times. *)
Definition apply_post_rule (r : re) (template : caps -> str) (word : str)
  : str :=
  match re_search r word with
  | Some _ => re_sub r template (re_sub r template (re_sub r template word))
  | None => word
  end.

Definition apply_exception_rules_post (word : str) : str :=
  let word := apply_post_rule HIATUS_FIRST_VOWEL_RE template_hyphen word in
  let word := apply_post_rule CONSONANT_CLUSTER_RE template_plain word in
  let word := apply_post_rule LOWERING_DIPHTHONGS_WITH_H template_plain
                              word in
  let word := apply_post_rule RAISING_DIPHTHONGS_WITH_H template_plain
                              word in
  word.

(** The [while len(word) > 0] loop of [syllabify]: what it appends to
    [output]. *)
Fixpoint cluster_scan (word : str) : str :=
  match word with
  | [] => []
  | c :: rest =>
    [c]
    ++ match re_search letter_clusters_re word with
       | Some m =>
         match lastindex (m_caps m) with
         | Some 5 | Some 8 | Some 11 => []
         | _ => [HYPHEN]
         end
       | None => []
       end
    ++ cluster_scan rest
  end.

Definition nonempty (s : str) : bool :=
  match s with
  | [] => false
  | _ => true
  end.

Section Syllabifier.

(** The values attached to the entries of the static tables, which the
    program only passes on. *)
Variable V : Type.

(** A registered variant: its syllables and what is attached to them. *)
Definition variant : Type := (list str * V)%type.

(** The two static tables of [alternative_syllabification.py], which is
    not part of the sources at hand: a word's hyphenated form, and a
    word's pair of some value and its sequence of variants. *)
Variable SYLLABIFICATOR_FOREIGN_WORDS_DICT : str -> option str.
Variable ALTERNATIVE_SYLLABIFICATION : str -> option (V * list variant).

(** What [syllabify] returns after the syllables: the sequence of
    variants of the word, or what is attached to the chosen variant. *)
Inductive alternatives : Type :=
| Variants (l : list variant)
| Attached (v : V).

Definition syllabify (word : str) (alternative_syllabification : bool)
  : outcome (list str * alternatives) :=
  let original_word := word in
  let output :=
    match SYLLABIFICATOR_FOREIGN_WORDS_DICT word with
    | Some hyphenated => hyphenated
    | None =>
      let word := apply_exception_rules word in
      apply_exception_rules_post (cluster_scan word)
    end in
  (* Remove empty elements created during syllabification *)
  let output := filter nonempty (split HYPHEN output) in
  match (if alternative_syllabification
         then ALTERNATIVE_SYLLABIFICATION (lower original_word)
         else None) with
  | Some entry =>
    chosen <- index (snd entry) 0 ;;
    Ret (fst chosen, Attached (snd chosen))
  | None =>
    Ret (output,
         Variants match ALTERNATIVE_SYLLABIFICATION original_word with
                  | Some entry => snd entry
                  | None => []
                  end)
  end.

(** [s.count("|")] *)
Definition count_bar (s : str) : nat :=
  length (filter (fun c => char_eqb c BAR) s).

(** [get_orthographic_accent] of a list of strings.  *)
Definition get_orthographic_accent (syllable_list : list str) : option nat :=
  let word := join [BAR] syllable_list in
  match re_search accents_re word with
  | Some m =>
    let last_index := m_start m in
    Some (count_bar (firstn last_index word))
  | None => None
  end.

(** [not position] *)
Definition py_not (position : option nat) : bool :=
  match position with
  | None => true
  | Some O => true
  | Some (S _) => false
  end.

(** [is_paroxytone]; it hands [get_orthographic_accent] the string
    ["".join(syllables)], which that function takes for the list of its
    characters. *)
Definition is_paroxytone (syllables : list str) : outcome bool :=
  if py_not (get_orthographic_accent
               (map (fun c => [c]) (join [] syllables)))
  then
    match rev syllables with
    | final :: _ =>
      Ret match re_search paroxytone_re final with
          | Some _ => true
          | None => false
          end
    | [] => Raise IndexError
    end
  else Ret false.

End Syllabifier.

(** ** Stress of a word *)

Fixpoint mapM {A B} (f : A -> outcome B) (l : list A) : outcome (list B) :=
  match l with
  | [] => Ret []
  | a :: l' =>
    b <- f a ;;
    bs <- mapM f l' ;;
    Ret (b :: bs)
  end.

(** A dictionary from strings to strings; a later pair overrides an
    earlier one with the same key. *)
Definition dict : Type := list (str * str).

(** [d.get(key)] *)
Definition dict_get (d : dict) (key : string) : option str :=
  option_map snd (find (fun p => str_eqb (fst p) (u key)) (rev d)).

(** [d[key] = value]: the value of a key that the dictionary has is
    replaced where the key stands, and a new key comes last. *)
Fixpoint dict_set (d : dict) (key value : str) : dict :=
  match d with
  | [] => [(key, value)]
  | (k, v) :: d' =>
    if str_eqb k key then (k, value) :: d'
    else (k, v) :: dict_set d' key value
  end.

(** [dict(pairs)]: the pairs are set one after the other, so that a key
    stands once, where it came first, with the value that came last. *)
Definition dict_of (pairs : list (str * str)) : dict :=
  fold_left (fun d p => dict_set d (fst p) (snd p)) pairs [].

Definition EQUALS : char := 61%N.

(** The list of the pieces is built first and [dict] is applied to it:
    a piece that does not split in two makes [dict] raise
    [ValueError]. *)
Definition spacy_tag_to_dict (tag : str) : outcome dict :=
  if nonempty tag && mem EQUALS tag then
    pairs <- mapM (fun t => match split EQUALS t with
                            | [key; value] => Ret (key, value)
                            | _ => Raise ValueError
                            end)
                  (split BAR tag) ;;
    Ret (dict_of pairs)
  else Ret [].

(** [s == "literal"] and [s in ("literal", ...)] *)
Definition eqs (s : str) (literal : string) : bool := str_eqb s (u literal).
Definition ins (s : str) (literals : list string) : bool :=
  smem s (map u literals).

(** [tag.get(key) == "literal"] and [tag.get(key) in ("literal", ...)];
    an absent key gives [None], which is equal to no string. *)
Definition tag_is (tag : dict) (key : string) (literal : string) : bool :=
  match dict_get tag key with
  | Some v => eqs v literal
  | None => false
  end.
Definition tag_in (tag : dict) (key : string) (literals : list string)
  : bool :=
  match dict_get tag key with
  | Some v => ins v literals
  | None => false
  end.

(** [pos in ("ADJ", b)] for a boolean [b]: a string equals no boolean. *)
Definition in_adj_or_bool (pos : str) (b : bool) : bool :=
  eqs pos "ADJ" || false.

Definition last_in (s : str) (chars : str) : bool :=
  match rev s with
  | c :: _ => mem c chars
  | [] => false
  end.

Definition first_in (s : str) (chars : str) : bool :=
  match s with
  | c :: _ => mem c chars
  | [] => false
  end.

(** The test for sinaeresis between two neighbouring syllables of a
    word. *)
Definition sinaeresis_between (first_syllable second_syllable : str) : bool :=
  nonempty first_syllable && nonempty second_syllable
  && ((last_in first_syllable STRONG_VOWELS
       && first_in second_syllable STRONG_VOWELS)
      || (last_in first_syllable WEAK_VOWELS
          && first_in second_syllable STRONG_VOWELS)
      || (last_in first_syllable STRONG_VOWELS
          && first_in second_syllable WEAK_VOWELS)).

(** The loop that builds [out_syllable_list], from index [index] on.
    The source marks the previous syllable when it reaches the next one;
    here a syllable is marked when it is built, by looking at its
    successor. *)
Fixpoint stress_syllables (len : nat) (stressed_position : Z) (index : nat)
         (syllable_list : list str) : list Syllable :=
  match syllable_list with
  | [] => []
  | syllable :: rest =>
    let out :=
      plain syllable
            ((Z.of_nat len - Z.of_nat index =? - stressed_position)%Z) in
    let out :=
      match rest with
      | second_syllable :: _ =>
        if sinaeresis_between syllable second_syllable
        then set_has_liaison sinaeresis (Some true) out
        else out
      | [] => out
      end in
    out :: stress_syllables len stressed_position (S index) rest
  end.

(** A token of a line after analysis: [{"word": ..., "stress_position":
    ...}] or [{"symbol": ...}]. *)
Inductive word_token : Type :=
| Word (word : list Syllable) (stress_position : Z)
| Symbol (symbol : str).

Section Stress.

Variable V : Type.
Variable SYLLABIFICATOR_FOREIGN_WORDS_DICT : str -> option str.
Variable ALTERNATIVE_SYLLABIFICATION : str -> option (V * list (variant V)).

Definition get_word_stress (word : str) (pos : str) (tag : dict)
           (alternative_syllabification : bool) : outcome word_token :=
  '(syllable_list, _) <-
    syllabify SYLLABIFICATOR_FOREIGN_WORDS_DICT ALTERNATIVE_SYLLABIFICATION
              word alternative_syllabification ;;
  let word_lower := lower word in
  stressed_position <-
    (if Nat.eqb (length syllable_list) 1 then
       first_monosyllable <- index (map lower syllable_list) 0 ;;
       if negb (smem first_monosyllable UNSTRESSED_UNACCENTED_MONOSYLLABLES)
          && (smem first_monosyllable STRESSED_UNACCENTED_MONOSYLLABLES
              || negb (ins pos ["SCONJ"; "CCONJ"; "DET"; "PRON"; "ADP"])
              || (eqs pos "PRON" && tag_is tag "Case" "Nom")
              || (eqs pos "DET" && tag_in tag "Definite" ["Dem"; "Ind"])
              || ins pos ["PROPN"; "NUM"; "NOUN"; "VERB"; "AUX"; "ADV"]
              || (eqs pos "ADJ" && negb (tag_is tag "Poss" "Yes"))
              || (eqs pos "PRON" && tag_in tag "PronType" ["Prs"; "Ind"])
              || (eqs pos "DET" && tag_is tag "PronType" "Ind")
              || in_adj_or_bool pos (tag_is tag "Poss" "Yes")
              || (ins pos ["PRON"; "DET"]
                  && tag_in tag "PronType" ["Exc"; "Int"; "Dem"])
              || smem (lower word) POSSESSIVE_PRON)
       then Ret (-1)%Z
       else Ret 0%Z (* unstressed monosyllable *)
     else if ins pos ["INTJ"; "PROPN"; "NUM"; "NOUN"; "VERB"; "AUX"; "ADV"]
             || (eqs pos "ADJ"
                 && negb (smem word_lower POSSESSIVE_PRON_UNSTRESSED))
             || (eqs pos "PRON" && tag_in tag "PronType" ["Prs"; "Ind"])
             || (eqs pos "DET" && tag_in tag "PronType" ["Dem"; "Ind"])
             || (eqs pos "DET" && tag_is tag "Definite" "Ind")
             || (eqs pos "PRON" && tag_is tag "Poss" "Yes")
             || (ins pos ["PRON"; "DET"]
                 && tag_in tag "PronType" ["Exc"; "Int"; "Dem"])
             || smem word_lower POSSESSIVE_PRON
     then
       match get_orthographic_accent syllable_list with
       (* If an orthographic accent exists, the syllable negative index
          is saved *)
       | Some tilde =>
         Ret (- (Z.of_nat (length syllable_list) - Z.of_nat tilde))%Z
       | None =>
         paroxytone <- is_paroxytone syllable_list ;;
         (* the penultimate syllable of a paroxytone word, the last one
            of an oxytone word *)
         if paroxytone then Ret (-2)%Z else Ret (-1)%Z
       end
     else Ret 0%Z (* unstressed *)) ;;
  Ret (Word (stress_syllables (length syllable_list) stressed_position
                              0 syllable_list)
            stressed_position).

End Stress.

(** ** Words of a line *)

Module Token.
(** What the program reads of a spaCy token. *)
Record t : Type := mk {
  text : str;
  is_alpha : bool;
  pos_ : str;
  tag_ : str
}.
(** [orth_] is the verbatim text of the token. *)
Definition orth_ (w : t) : str := text w.
End Token.

(** [s.split(sep)] for a separator of any length; [skip] counts the
    characters of a separator just found that are still to be passed. *)
Fixpoint is_prefix (p s : str) : bool :=
  match p, s with
  | [], _ => true
  | x :: p', y :: s' => char_eqb x y && is_prefix p' s'
  | _ :: _, [] => false
  end.

Fixpoint split_str_aux (sep : str) (skip : nat) (cur : str) (s : str)
  : list str :=
  match s with
  | [] => [rev cur]
  | c :: s' =>
    match skip with
    | S skip' => split_str_aux sep skip' cur s'
    | O =>
      if is_prefix sep s then
        rev cur :: split_str_aux sep (length sep - 1) [] s'
      else split_str_aux sep 0 (c :: cur) s'
    end
  end.

Definition split_str (sep : str) (s : str) : list str :=
  split_str_aux sep 0 [] s.

(** [sep in s] *)
Fixpoint contains (sep : str) (s : str) : bool :=
  is_prefix sep s
  || match s with
     | [] => false
     | _ :: s' => contains sep s'
     end.

Definition DUNDER : str := [95%N; 95%N].

(** Apply [f] to the last element of a list. *)
Definition on_last {A} (f : A -> A) (l : list A) : list A :=
  match rev l with
  | [] => []
  | a :: before => rev before ++ [f a]
  end.

Definition is_word (w : word_token) : bool :=
  match w with
  | Word _ _ => true
  | Symbol _ => false
  end.

(** [get_last_syllable]: the last syllable of the last word of the
    list, [None] when it holds no word. *)
Fixpoint get_last_syllable_rev (reversed : list word_token)
  : outcome (option Syllable) :=
  match reversed with
  | [] => Ret None
  | Word word _ :: _ =>
    match rev word with
    | last :: _ => Ret (Some last)
    | [] => Raise IndexError
    end
  | Symbol _ :: rest => get_last_syllable_rev rest
  end.

Definition get_last_syllable (token_list : list word_token)
  : outcome (option Syllable) :=
  get_last_syllable_rev (rev token_list).

(** [first_syllable.update({'has_synalepha': True})], where
    [first_syllable] is the dictionary that [get_last_syllable] found in
    [syllabified_words]: the update is seen through the list. *)
Fixpoint update_last_syllable_rev (reversed : list word_token)
  : list word_token :=
  match reversed with
  | [] => []
  | Word word p :: rest =>
    Word (on_last (set_has_liaison synalepha (Some true)) word) p :: rest
  | Symbol s :: rest => Symbol s :: update_last_syllable_rev rest
  end.

Definition update_last_syllable (token_list : list word_token)
  : list word_token :=
  rev (update_last_syllable_rev (rev token_list)).

Section Words.

Variable V : Type.
Variable SYLLABIFICATOR_FOREIGN_WORDS_DICT : str -> option str.
Variable ALTERNATIVE_SYLLABIFICATION : str -> option (V * list (variant V)).

(** The body of the loop of [get_words]. *)
Definition get_words_step (alternative_syllabification : bool)
           (syllabified_words : list word_token) (word : Token.t)
  : outcome (list word_token) :=
  if Token.is_alpha word then
    '(pos, tag) <-
      (if contains DUNDER (Token.tag_ word) then
         match split_str DUNDER (Token.tag_ word) with
         | [pos; tag] => Ret (pos, tag)
         | _ => Raise ValueError
         end
       else Ret (Token.pos_ word, Token.tag_ word)) ;;
    tags <- spacy_tag_to_dict tag ;;
    stressed_word <-
      get_word_stress SYLLABIFICATOR_FOREIGN_WORDS_DICT
                      ALTERNATIVE_SYLLABIFICATION
                      (Token.text word) pos tags
                      alternative_syllabification ;;
    first_syllable <- get_last_syllable syllabified_words ;;
    second_syllable <-
      match stressed_word with
      | Word word _ => index word 0
      | Symbol _ => Raise IndexError
      end ;;
    (* Synalepha *)
    marked <-
      match first_syllable with
      | Some first_syllable =>
        liaison <- have_prosodic_liaison first_syllable second_syllable ;;
        Ret (if liaison then update_last_syllable syllabified_words
             else syllabified_words)
      | None => Ret syllabified_words
      end ;;
    Ret (marked ++ [stressed_word])
  else Ret (syllabified_words ++ [Symbol (Token.text word)]).

Fixpoint get_words_from (alternative_syllabification : bool)
         (syllabified_words : list word_token) (word_list : list Token.t)
  : outcome (list word_token) :=
  match word_list with
  | [] => Ret syllabified_words
  | word :: rest =>
    ws <- get_words_step alternative_syllabification syllabified_words
                         word ;;
    get_words_from alternative_syllabification ws rest
  end.

Definition get_words (word_list : list Token.t)
           (alternative_syllabification : bool) : outcome (list word_token) :=
  get_words_from alternative_syllabification [] word_list.

End Words.

(** [syllable["is_word_end"] = True] on the last syllable of a word. *)
Definition mark_word_end (word : list Syllable) : list Syllable :=
  on_last (set_is_word_end (Some true)) word.

(** [get_syllables_word_end]: the syllables of the words, and the words
    as the function leaves them, since it writes the key into the
    dictionaries it is given. *)
Definition get_syllables_word_end (words : list word_token)
  : list word_token * list Syllable :=
  (map (fun w => match w with
                 | Word word p => Word (mark_word_end word) p
                 | Symbol s => Symbol s
                 end) words,
   flat_map (fun w => match w with
                      | Word word _ => mark_word_end word
                      | Symbol _ => []
                      end) words).

(** ** Candidate search *)

(** [product([1, 0], repeat=n)], in the order of [itertools]: the
    leftmost coordinate changes last. *)
Fixpoint product_1_0 (n : nat) : list (list Z) :=
  match n with
  | O => [[]]
  | S n' =>
    map (cons 1%Z) (product_1_0 n') ++ map (cons 0%Z) (product_1_0 n')
  end.

(** The vector that is zero everywhere but at the flagged positions,
    which receive the entries of [combination] in order. *)
Fixpoint place (positions : list Z) (combination : list Z) : list Z :=
  match positions with
  | [] => []
  | p :: positions' =>
    if truthy p then
      match combination with
      | c :: combination' => c :: place positions' combination'
      | [] => 0%Z :: place positions' []
      end
    else 0%Z :: place positions' combination
  end.

(** The generator [generate_liaison_positions], as the list of what it
    yields. *)
Definition generate_liaison_positions (syllables : list Syllable)
           (liaison_type : liaison) : list (list Z) :=
  let positions := flag_positions liaison_type syllables in
  (* Combinations start by applying all possible liaisons: [1, 1, ...] *)
  let combinations := product_1_0 (Z.to_nat (sum positions)) in
  map (place positions) combinations.

(** A generator is the list of what its successive resumptions give: a
    value yielded, or the exception that ends it.  Its consumer never
    resumes it after an exception. *)
Definition generator (A : Type) : Type := list (outcome A).

Section Search.

Variable V : Type.
Variable SYLLABIFICATOR_FOREIGN_WORDS_DICT : str -> option str.
Variable ALTERNATIVE_SYLLABIFICATION : str -> option (V * list (variant V)).

Definition generate_phonological_groups (tokens : list Token.t)
  : generator (list Syllable) :=
  flat_map (fun alternative_syllabification : bool =>
    match get_words SYLLABIFICATOR_FOREIGN_WORDS_DICT
                    ALTERNATIVE_SYLLABIFICATION
                    tokens alternative_syllabification with
    | Ret words =>
      let syllables := snd (get_syllables_word_end words) in
      flat_map (fun liaison : liaison * option liaison =>
        flat_map (fun ignore_synalepha_h : option breakage =>
          flat_map (fun liaison_positions_1 : list Z =>
            match get_phonological_groups
                    syllables (fst liaison) ignore_synalepha_h
                    (Some liaison_positions_1) with
            | Ret groups =>
              match snd liaison with
              | None => [Ret groups]
              | Some second =>
                map (fun liaison_positions_2 : list Z =>
                       get_phonological_groups
                         groups second ignore_synalepha_h
                         (Some liaison_positions_2))
                    (generate_liaison_positions syllables second)
              end
            | Raise e => [Raise e]
            | OutOfFuel => [OutOfFuel]
            end)
            (generate_liaison_positions syllables (fst liaison)))
          [Some break_on_h; None])
        [(synalepha, None);
         (sinaeresis, None);
         (sinaeresis, Some synalepha);
         (synalepha, Some sinaeresis)]
    | Raise e => [Raise e]
    | OutOfFuel => [OutOfFuel]
    end)
    [true; false].

(** The [for candidate in candidates] loop of [get_scansion]: the first
    candidate whose rhythm has the expected length, with that rhythm. *)
Fixpoint first_fit (rhythm_format : str) (expected : Z)
         (candidates : generator (list Syllable))
  : outcome (option (list Syllable * rhythm)) :=
  match candidates with
  | [] => Ret None
  | next :: rest =>
    candidate <- next ;;
    rhythm <- get_rhythmical_pattern candidate rhythm_format ;;
    if (length_ rhythm =? expected)%Z then Ret (Some (candidate, rhythm))
    else first_fit rhythm_format expected rest
  end.

(** ** Scansion of a text *)

(** A value of the rhyme analysis that the program only copies. *)
Inductive pyval : Type :=
| Ext (v : V)
| Str (s : str)
| PyNone.

(** The keys that the rhyme analysis adds to a line. *)
Record rhyme_keys : Type := mkRhymeKeys {
  structure : str;
  rhyme : V;
  ending : V;
  ending_stress : Z;
  rhyme_type : pyval;
  rhyme_relaxation : pyval
}.

(** A line of the result; the keys of the rhyme analysis are present
    when it was performed and found a structure. *)
Record line : Type := mkLine {
  tokens : list word_token;
  phonological_groups : list Syllable;
  line_rhythm : rhythm;
  rhyme_analysis_keys : option rhyme_keys
}.

(** What [analyze_rhyme] returns. *)
Record rhyme_result : Type := mkRhymeResult {
  r_name : str;
  r_rhyme : list V;
  r_endings : list V;
  r_endings_stress : list Z;
  r_rhyme_type : V;
  r_rhyme_relaxation : V
}.

(** The rhyme analyzer and the table of the lengths of the known
    structures, from [rhymes.py], which is not part of the sources at
    hand. *)
Variable analyze_rhyme : list line -> option rhyme_result.
Variable STRUCTURES_LENGTH : str -> option (list Z).

(** The first loop of [get_scansion]: the tokens of each line of the
    text, a line ending at a [SPACE] token that holds a line break. *)
Fixpoint split_lines (seen_tokens : list Token.t) (tokens : list Token.t)
  : list (list Token.t) :=
  match tokens with
  | [] => if Nat.ltb 0 (length seen_tokens) then [seen_tokens] else []
  | token :: rest =>
    if str_eqb (Token.pos_ token) SPACE
       && mem NEWLINE (Token.orth_ token)
       && Nat.ltb 0 (length seen_tokens)
    then seen_tokens :: split_lines [] rest
    else split_lines (seen_tokens ++ [token]) rest
  end.

(** The natural analysis of a line: sinaeresis, then synalepha. *)
Definition natural_line (rhythm_format : str) (words : list word_token)
  : outcome line :=
  let '(words, syllables) := get_syllables_word_end words in
  inner <- get_phonological_groups syllables sinaeresis None None ;;
  phonological_groups <- get_phonological_groups inner synalepha None None ;;
  rhythm <- get_rhythmical_pattern phonological_groups rhythm_format ;;
  Ret (mkLine words phonological_groups rhythm None).

(** The keys added to the line of index [idx] by the rhyme analysis. *)
Definition add_rhyme (rhyme : rhyme_result) (idx : nat) (l : line)
  : outcome line :=
  r <- index (r_rhyme rhyme) idx ;;
  e <- index (r_endings rhyme) idx ;;
  s <- index (r_endings_stress rhyme) idx ;;
  Ret (mkLine (tokens l) (phonological_groups l) (line_rhythm l)
         (Some (if (s =? 0)%Z
                then mkRhymeKeys (r_name rhyme) r e s (Str []) PyNone
                else mkRhymeKeys (r_name rhyme) r e s
                                 (Ext (r_rhyme_type rhyme))
                                 (Ext (r_rhyme_relaxation rhyme))))).

Fixpoint mapM_indexed {A B} (f : nat -> A -> outcome B) (idx : nat)
         (l : list A) : outcome (list B) :=
  match l with
  | [] => Ret []
  | a :: l' =>
    b <- f idx a ;;
    bs <- mapM_indexed f (S idx) l' ;;
    Ret (b :: bs)
  end.

(** The expected lengths of the lines: the explicit list when there is
    one, else the entry of the structure of the line in
    [STRUCTURES_LENGTH], when the line has a structure and the table an
    entry for it. *)
Definition structure_length_of (rhythmical_lengths : option (list Z))
           (l : line) : option (list Z) :=
  match rhythmical_lengths with
  | Some lengths => Some lengths
  | None =>
    match rhyme_analysis_keys l with
    | Some keys => STRUCTURES_LENGTH (structure keys)
    | None => None
    end
  end.

(** The body of the last loop of [get_scansion]. *)
Definition fit_line (rhythm_format : str)
           (rhythmical_lengths : option (list Z))
           (raw_tokens : list (list Token.t)) (idx : nat) (l : line)
  : outcome line :=
  match structure_length_of rhythmical_lengths l with
  | Some structure_length =>
    expected <- index structure_length idx ;;
    if (length_ (line_rhythm l) <? expected)%Z then
      raw <- index raw_tokens idx ;;
      found <- first_fit rhythm_format expected
                         (generate_phonological_groups raw) ;;
      match found with
      | Some (candidate, rhythm) =>
        Ret (mkLine (tokens l) candidate rhythm (rhyme_analysis_keys l))
      | None => Ret l
      end
    else Ret l
  | None => Ret l
  end.

(** [get_scansion] of a text that is already a [Doc]. *)
Definition get_scansion (text : list Token.t) (rhyme_analysis : bool)
           (rhythm_format : str) (rhythmical_lengths : option (list Z))
  : outcome (list line) :=
  let raw_tokens := split_lines [] text in
  (* Handle multi-line sentences and create the line with words *)
  words <- mapM (fun seen_tokens =>
                   get_words SYLLABIFICATOR_FOREIGN_WORDS_DICT
                             ALTERNATIVE_SYLLABIFICATION seen_tokens true)
                raw_tokens ;;
  (* Extract phonological groups and rhythm per line *)
  lines <- mapM (natural_line rhythm_format) words ;;
  lines <-
    (if rhyme_analysis then
       match analyze_rhyme lines with
       | Some rhyme => mapM_indexed (add_rhyme rhyme) 0 lines
       | None => Ret lines
       end
     else Ret lines) ;;
  mapM_indexed (fit_line rhythm_format rhythmical_lengths raw_tokens)
               0 lines.

End Search.

(** * Vocabulary of the specification *)

(** The 1-based indices of the stressed slots of a stress list. *)
Definition stressed_slots (stresses : list bool) : list nat :=
  filter (fun k => nth (k - 1) stresses false) (seq 1 (length stresses)).

(** The vowels of the liaison rules, in both cases. *)
Definition VOWELS : str := Eval vm_compute in u "aeiouáéíóúAEIOUÁÉÍÓÚ".

(** The second syllable starts with a consonantal y: [y] or [Y] followed
    at once by a vowel. *)
Definition consonantal_y (second : str) : bool :=
  match second with
  | y :: v :: _ => (char_eqb y 121%N || char_eqb y 89%N) && mem v VOWELS
  | _ => false
  end.

(** The tables of a program that registers no word at all. *)
Definition no_foreign_words : str -> option str := fun _ => None.
Definition no_alternatives : str -> option (unit * list (variant unit)) :=
  fun _ => None.
Definition no_rhymes : list (line unit) -> option (rhyme_result unit) :=
  fun _ => None.
Definition no_structures : str -> option (list Z) := fun _ => None.

(** An alphabetic token with a part of speech and no morphology. *)
Definition alpha (w pos : string) : Token.t := Token.mk (u w) true (u pos) [].



Definition b2n (b : bool) : nat := if b then 1 else 0.

(** What one step of the scan does when it raises nothing: it passes a
    consumed syllable, keeps the syllable, or fuses it with a successor. *)
Inductive step_kind (lt : liaison) (lp : list Z) (idx : nat) (s : Syllable)
          (st st' : scan_state) : Prop :=
| Passed :
    skip_next st = true ->
    st' = mkScan false (next_syllable st) (reduced_syllables st)
                 (liaison_index st) (fused st) ->
    step_kind lt lp idx s st st'
| Kept (next : option Syllable) :
    skip_next st = false ->
    st' = mkScan false next (reduced_syllables st ++ [s])
                 (liaison_index st ++ [0%Z]) (fused st) ->
    step_kind lt lp idx s st st'
| Fused (next : Syllable) (position following : Z) :
    skip_next st = false ->
    nth_error lp idx = Some position ->
    truthy position = true ->
    nth_error lp (idx + 1) = Some following ->
    st' = mkScan true (Some next)
                 (reduced_syllables st ++ [fuse lt s next])
                 (liaison_index st ++ [following]) (S (fused st)) ->
    step_kind lt lp idx s st st'.

Definition all_zero (l : list Z) : Prop := Forall (fun z => z = 0%Z) l.

(** A breakage function that stays within the pass budget, as every
    function that has no loop does. *)
Definition within_budget (bf : option breakage) : Prop :=
  forall f, bf = Some f -> forall lt a b, f lt a b <> OutOfFuel.

(** A breakage predicate: a breakage function that answers on every
    pair. *)
Definition predicate (f : liaison -> Syllable -> Syllable -> bool)
  : breakage := fun lt a b => Ret (f lt a b).

(** What a match consumes: a declarative reading of the patterns, sound
    for the matcher, that says which words a pattern can consume and
    what it then records in its groups.  Anchors and look-aheads consume
    nothing; where they hold is left out. *)
Inductive Sem : re -> str -> caps -> caps -> Prop :=
| SemEps c : Sem Eps [] c c
| SemCls p x c : p x = true -> Sem (Cls p) [x] c c
| SemCat r1 r2 w1 w2 c c1 c2 :
    Sem r1 w1 c c1 -> Sem r2 w2 c1 c2 -> Sem (Cat r1 r2) (w1 ++ w2) c c2
| SemAltL r1 r2 w c c' : Sem r1 w c c' -> Sem (Alt r1 r2) w c c'
| SemAltR r1 r2 w c c' : Sem r2 w c c' -> Sem (Alt r1 r2) w c c'
| SemStar p w c : Forall (fun x => p x = true) w -> Sem (Star p) w c c
| SemOptSome r w c c' : Sem r w c c' -> Sem (Opt r) w c c'
| SemOptNone r c : Sem (Opt r) [] c c
| SemGrp n r w c c' : Sem r w c c' -> Sem (Grp n r) w c ((n, w) :: c')
| SemBol c : Sem Bol [] c c
| SemEol c : Sem Eol [] c c
| SemNotAhead r c : Sem (NotAhead r) [] c c.

(** A pattern that ends in [.*], possibly inside groups. *)
Inductive ends_in_dot_star : re -> Prop :=
| EndStar : ends_in_dot_star (Star dot)
| EndCat r1 r2 : ends_in_dot_star r2 -> ends_in_dot_star (Cat r1 r2)
| EndGrp n r : ends_in_dot_star r -> ends_in_dot_star (Grp n r).

Definition no_newline (s : str) : Prop :=
  Forall (fun x => char_eqb x NEWLINE = false) s.

(** A continuation that succeeds wherever it is entered. *)
Definition succeeds (k : cont) : Prop := forall j s c, k j s c <> None.

(** A string without its hyphens. *)
Definition strip (s : str) : str :=
  filter (fun c => negb (char_eqb c HYPHEN)) s.

Fixpoint groups_free (r : re) : bool :=
  match r with
  | Cat r1 r2 | Alt r1 r2 => groups_free r1 && groups_free r2
  | Opt r' | NotAhead r' => groups_free r'
  | Grp _ _ => false
  | _ => true
  end.

(** A pattern and a template such that replacing a match by the
    template moves hyphens only. *)
Definition hyphen_faithful (r : re) (template : caps -> str) : Prop :=
  forall w c, Sem r w [] c -> strip (template c) = strip w.

(** A pattern of two groups that tile whatever it consumes. *)
Definition tiled (r : re) : Prop :=
  forall w c, Sem r w [] c -> group c 1 ++ group c 2 = w.

Definition bar_free (s : str) : Prop := mem BAR s = false.

(** How many syllables are marked as stressed. *)
Definition stressed_count (word : list Syllable) : nat :=
  length (filter is_stressed word).

(** The line "lee a casa", as three alphabetic tokens. *)
Definition lee_a_casa : list Token.t :=
  [alpha "lee" "VERB"; alpha "a" "ADP"; alpha "casa" "NOUN"].

(** The line "lee a", as two alphabetic tokens. *)
Definition lee_a : list Token.t := [alpha "lee" "VERB"; alpha "a" "ADP"].

(** A word without any of the three characters that the program uses
    as marks: the hyphen between syllables, the line break, and the bar
    with which [get_orthographic_accent] joins the syllables.  A word
    made of letters holds none of them. *)
Definition mark_free (word : str) : Prop :=
  Forall (fun c => char_eqb c HYPHEN = false
                   /\ char_eqb c NEWLINE = false
                   /\ char_eqb c BAR = false) word.

(** A syllable that carries neither liaison flag. *)
Definition unflagged (s : Syllable) : Prop :=
  has_synalepha s = None /\ has_sinaeresis s = None.

(** The final element of a list of syllables; an unflagged syllable
    stands for it when the list is empty. *)
Definition final (syllables : list Syllable) : Syllable :=
  last syllables (plain [] false).

(** How many syllables carry the flag of a liaison. *)
Definition eligible_count (lt : liaison) (syllables : list Syllable) : nat :=
  length (filter (fun s => match has_liaison lt s with
                           | Some true => true
                           | _ => false
                           end) syllables).

(** What a sequence of syllables amounts to, when each syllable amounts
    to [f] and a sequence to the composition, by [op], of its members. *)
Definition total {M : Type} (op : M -> M -> M) (e : M) (f : Syllable -> M)
           (l : list Syllable) : M :=
  fold_right (fun s acc => op (f s) acc) e l.

(** The other kind of liaison. *)
Definition other (lt : liaison) : liaison :=
  match lt with
  | synalepha => sinaeresis
  | sinaeresis => synalepha
  end.

(** A vector without negative entry. *)
Definition nonneg (l : list Z) : Prop := Forall (fun z => (0 <= z)%Z) l.

(** How many times a character occurs in a string. *)
Definition occurrences (c : char) (s : str) : nat :=
  length (filter (char_eqb c) s).

(** A feature as it stands in a tag: the key, the equals sign, the
    value. *)
Definition feature (p : str * str) : str := fst p ++ [EQUALS] ++ snd p.

(** The tag of a list of features: the features with bars between
    them. *)
Definition tag_of (features : dict) : str := join [BAR] (map feature features).

(** A key or a value that holds neither of the two separators. *)
Definition separator_free (s : str) : Prop :=
  mem EQUALS s = false /\ mem BAR s = false.

(** The vowels that carry a written accent, in both cases. *)
Definition ACCENTED_VOWELS : str := Eval vm_compute in u "áéíóúÁÉÍÓÚ".

(** A string that holds a vowel with a written accent. *)
Definition accented (s : str) : bool :=
  existsb (fun c => mem c ACCENTED_VOWELS) s.

(** The index of the first element that passes a test. *)
Fixpoint find_index {A} (p : A -> bool) (l : list A) : option nat :=
  match l with
  | [] => None
  | a :: l' => if p a then Some 0 else option_map S (find_index p l')
  end.

(** What the pattern of the paroxytone words matches from its first
    character to the end: a vowel or an [n], or a vowel and an [s],
    before the end of the string or the line break that ends it. *)
Definition paroxytone_tail (s : str) : bool :=
  match s with
  | [x] => icls (u "aeiou") x || icls (u "n") x
  | [x; y] =>
    ((icls (u "aeiou") x || icls (u "n") x) && char_eqb y NEWLINE)
    || (icls (u "aeiou") x && icls (u "s") y)
  | [x; y; z] =>
    icls (u "aeiou") x && icls (u "s") y && char_eqb z NEWLINE
  | _ => false
  end.

(** The ending of a paroxytone word without written accent: the string,
    a line break at its end apart, ends in a vowel, in an [n], or in an
    [s] after a vowel, in either case. *)
Definition ends_paroxytone (s : str) : bool :=
  let body := match rev s with
              | c :: r => if char_eqb c NEWLINE then r else c :: r
              | [] => []
              end in
  match body with
  | c :: r =>
    icls (u "aeiou") c || icls (u "n") c
    || (icls (u "s") c && match r with
                          | v :: _ => icls (u "aeiou") v
                          | [] => false
                          end)
  | [] => false
  end.

(** Whether a search found a match. *)
Definition found (m : option rmatch) : bool :=
  match m with
  | Some _ => true
  | None => false
  end.

(** The index of the syllable that the rules of the written language
    stress: the first syllable with a written accent; without one, the
    last syllable but one when the word has the ending of a paroxytone
    word, and the last syllable otherwise. *)
Definition stressed_syllable (syllables : list str) : nat :=
  match find_index accented syllables with
  | Some i => i
  | None =>
    if ends_paroxytone (last syllables [])
    then length syllables - 2
    else length syllables - 1
  end.

(** What [get_words] makes of a token.  A token that is not alphabetic
    gives a symbol with its text.  An alphabetic token gives a word: the
    syllables and the stress position that [get_word_stress] returns for
    its text, one syllable at least, the last of which may have received
    the flag of the synalepha since. *)
Definition analysed {V : Type}
           (SYLLABIFICATOR_FOREIGN_WORDS_DICT : str -> option str)
           (ALTERNATIVE_SYLLABIFICATION
            : str -> option (V * list (variant V)))
           (alternative_syllabification : bool)
           (token : Token.t) (w : word_token) : Prop :=
  match w with
  | Symbol s => Token.is_alpha token = false /\ s = Token.text token
  | Word syllables p =>
    Token.is_alpha token = true
    /\ exists pos tags out,
         get_word_stress SYLLABIFICATOR_FOREIGN_WORDS_DICT
                         ALTERNATIVE_SYLLABIFICATION
                         (Token.text token) pos tags
                         alternative_syllabification
         = Ret (Word out p)
         /\ out <> []
         /\ (syllables = out
             \/ syllables
                = on_last (set_has_liaison synalepha (Some true)) out)
  end.

(** A syllable that ends a word is not flagged for a sinaeresis, and a
    syllable inside a word is not flagged for a synalepha. *)
Definition well_flagged (s : Syllable) : Prop :=
  match is_word_end s with
  | Some _ => has_sinaeresis s = None
  | None => has_synalepha s = None
  end.

(** A token that ends a line: a [SPACE] token that holds a line break. *)
Definition line_break (token : Token.t) : bool :=
  str_eqb (Token.pos_ token) SPACE && mem NEWLINE (Token.orth_ token).

(** A token that does not end a line. *)
Definition in_line (token : Token.t) : bool := negb (line_break token).

(** What [get_scansion] keeps in the line that it returns for the tokens
    [raw]: the tokens of the result are the words of [raw], with
    alternative syllabification and with the ends of the words marked,
    and the rhythm is the rhythm of the phonological groups, in the
    format asked for. *)
Definition scanned {V : Type}
           (SYLLABIFICATOR_FOREIGN_WORDS_DICT : str -> option str)
           (ALTERNATIVE_SYLLABIFICATION
            : str -> option (V * list (variant V)))
           (rhythm_format : str) (raw : list Token.t) (l : line V) : Prop :=
  (exists words,
     get_words SYLLABIFICATOR_FOREIGN_WORDS_DICT ALTERNATIVE_SYLLABIFICATION
               raw true = Ret words
     /\ tokens l = fst (get_syllables_word_end words))
  /\ get_rhythmical_pattern (phonological_groups l) rhythm_format
     = Ret (line_rhythm l).

(** A token that the analysis of a line takes without error.  Nothing is
    asked of a token that is not alphabetic.  An alphabetic token is a
    word of one character at least, without any of the marks of the
    program, that is in none of the two tables; its tag holds no double
    underscore, and is a tag of features when it holds an equals sign. *)
Definition ordinary {V : Type}
           (SYLLABIFICATOR_FOREIGN_WORDS_DICT : str -> option str)
           (ALTERNATIVE_SYLLABIFICATION
            : str -> option (V * list (variant V)))
           (token : Token.t) : Prop :=
  Token.is_alpha token = true ->
  Token.text token <> []
  /\ mark_free (Token.text token)
  /\ SYLLABIFICATOR_FOREIGN_WORDS_DICT (Token.text token) = None
  /\ ALTERNATIVE_SYLLABIFICATION (lower (Token.text token)) = None
  /\ contains DUNDER (Token.tag_ token) = false
  /\ (mem EQUALS (Token.tag_ token) = true ->
      forallb (fun t => occurrences EQUALS t =? 1)
              (split BAR (Token.tag_ token)) = true).

(** Words that have syllables, and syllables that have characters. *)
Definition solid (w : word_token) : Prop :=
  match w with
  | Word syllables _ =>
    syllables <> [] /\ Forall (fun s => text s <> []) syllables
  | Symbol _ => True
  end.

(** Whether some syllable of the words of a line is stressed; false when
    [get_words] does not return. *)
Definition line_stress {V : Type}
           (SYLLABIFICATOR_FOREIGN_WORDS_DICT : str -> option str)
           (ALTERNATIVE_SYLLABIFICATION
            : str -> option (V * list (variant V)))
           (raw : list Token.t) : bool :=
  match get_words SYLLABIFICATOR_FOREIGN_WORDS_DICT
                  ALTERNATIVE_SYLLABIFICATION raw true with
  | Ret words => existsb is_stressed (snd (get_syllables_word_end words))
  | _ => false
  end.

(** A syllable whose text starts with [h], in either case. *)
Definition h_initial (s : Syllable) : bool :=
  match text s with
  | c :: _ => char_eqb c 104%N || char_eqb c 72%N
  | [] => false
  end.

(** The breakage function, when there is one, does not break the liaison
    of a syllable with the next one. *)
Definition unbroken (lt : liaison) (bf : option breakage)
           (s next : Syllable) : Prop :=
  match bf with
  | Some f => f lt s next = Ret false
  | None => True
  end.

(** What one pass over the syllables may give: each syllable is kept, or
    fused with the next one when the liaison of the two is not broken. *)
Inductive paired (lt : liaison) (bf : option breakage)
  : list Syllable -> list Syllable -> Prop :=
| paired_nil : paired lt bf [] []
| paired_keep (s : Syllable) (ss out : list Syllable) :
    paired lt bf ss out -> paired lt bf (s :: ss) (s :: out)
| paired_fuse (s next : Syllable) (ss out : list Syllable) :
    unbroken lt bf s next ->
    paired lt bf ss out ->
    paired lt bf (s :: next :: ss) (fuse lt s next :: out).

(** A group and the run of syllables that it is made of: the group holds
    the text of the syllables of the run, in their order, and is
    stressed when one of them is.  When the liaison is the synalepha and
    the breakage function is [break_on_h], no syllable of the run but
    the first starts with [h]. *)
Definition run_of (lt : liaison) (bf : option breakage)
           (run : list Syllable) (g : Syllable) : Prop :=
  run <> []
  /\ text g = concat (map text run)
  /\ is_stressed g = existsb is_stressed run
  /\ (lt = synalepha -> bf = Some break_on_h ->
      Forall (fun s => h_initial s = false) (tl run)).

(** A vector of zeros and ones. *)
Definition binary (l : list Z) : Prop :=
  Forall (fun z => z = 0%Z \/ z = 1%Z) l.

(** [d.get(key)] for a key that is any string: in a list of pairs, the
    last pair with the key decides. *)
Definition dict_lookup (d : dict) (key : str) : option str :=
  option_map snd (find (fun p => str_eqb (fst p) key) (rev d)).

(** * Verification *)

(** ** Formats of the stress list *)

Lemma join_singletons (yes no : char) (l : list bool) :
  join [] (map (fun b : bool => if b then [yes] else [no]) l)
  = map (fun b : bool => if b then yes else no) l.
Proof.
  induction l as [|b l IH]; [reflexivity|].
  destruct l as [|b' l]; [destruct b; reflexivity|].
  change (join [] (map (fun b : bool => if b then [yes] else [no])
                       (b :: b' :: l)))
    with ((if b then [yes] else [no]) ++ []
          ++ join [] (map (fun b : bool => if b then [yes] else [no])
                          (b' :: l))).
  rewrite IH. destruct b; reflexivity.
Qed.

Lemma stressed_indices_filter (l : list bool) : forall i,
  stressed_indices i l =
  map str_of_nat
      (filter (fun k => nth (k - 1 - i) l false) (seq (i + 1) (length l))).
Proof.
  induction l as [|b l IH]; intro i; [reflexivity|].
  assert (E : filter (fun k => nth (k - 1 - i) (b :: l) false)
                     (seq (S (i + 1)) (length l))
              = filter (fun k => nth (k - 1 - S i) l false)
                       (seq (S i + 1) (length l))).
  { replace (S (i + 1)) with (S i + 1) by lia.
    apply filter_ext_in. intros k Hk. apply in_seq in Hk.
    replace (k - 1 - i) with (S (k - 1 - S i)) by lia. reflexivity. }
  change (seq (i + 1) (length (b :: l)))
    with ((i + 1) :: seq (S (i + 1)) (length l)).
  cbn [filter]. rewrite E.
  replace (i + 1 - 1 - i) with 0 by lia.
  destruct b; cbn [nth stressed_indices map]; rewrite <- IH; reflexivity.
Qed.

Lemma stressed_indices_slots (l : list bool) :
  stressed_indices 0 l = map str_of_nat (stressed_slots l).
Proof.
  rewrite stressed_indices_filter. unfold stressed_slots. f_equal.
  apply filter_ext. intro k. now rewrite Nat.sub_0_r.
Qed.

(** C3, as the code has it.  [format_stress] turns the stress list
    [false, true, false, true] into ["-+-+"] under the pattern format,
    into ["0101"] under the binary format and, under the indexed format,
    into ["2-4"] with the default separator and into ["2,4"] when the
    separator [","] is passed.  In general the pattern format maps each
    slot to [+] or [-], the binary format to [1] or [0], and the indexed
    format gives the 1-based indices of the stressed slots, in decimal,
    joined by the separator. *)
Theorem format_stress_formats :
  format_stress [false; true; false; true] PATTERN default_indexed_separator
    = u "-+-+"
  /\ format_stress [false; true; false; true] BINARY
                   default_indexed_separator = u "0101"
  /\ format_stress [false; true; false; true] INDEXED
                   default_indexed_separator = u "2-4"
  /\ format_stress [false; true; false; true] INDEXED (u ",") = u "2,4"
  /\ (forall stresses separator,
        format_stress stresses PATTERN separator
        = map (fun stress : bool => if stress then 43%N else 45%N) stresses)
  /\ (forall stresses separator,
        format_stress stresses BINARY separator
        = map (fun stress : bool => if stress then 49%N else 48%N) stresses)
  /\ (forall stresses separator,
        format_stress stresses INDEXED separator
        = join separator (map str_of_nat (stressed_slots stresses))).
Proof.
  repeat split; try reflexivity; intros stresses separator.
  - unfold format_stress; cbn [str_eqb PATTERN INDEXED BINARY char_eqb].
    cbn. apply join_singletons.
  - unfold format_stress. cbn.
    apply join_singletons.
  - unfold format_stress. cbn -[stressed_indices join].
    now rewrite stressed_indices_slots.
Qed.

(** C3, as stated, fails: under the indexed format and the default
    separator the stress list [false, true, false, true] gives ["2-4"],
    not ["2,4"]. *)
Lemma format_stress_indexed_default :
  format_stress [false; true; false; true] INDEXED default_indexed_separator
  <> u "2,4".
Proof. vm_compute. discriminate. Qed.

(** ** Stresses at the end of a line *)

Lemma find_true_after (l r : list bool) :
  forallb negb l = true -> find_true (l ++ true :: r) = Some (length l).
Proof.
  induction l as [|b l IH]; cbn; [reflexivity|].
  destruct b; cbn; [discriminate|]. intro H. now rewrite IH.
Qed.

Lemma forallb_rev {A} (f : A -> bool) (l : list A) :
  forallb f (rev l) = forallb f l.
Proof.
  induction l as [|a l IH]; [reflexivity|].
  cbn. rewrite forallb_app, IH. cbn. rewrite andb_true_r. apply andb_comm.
Qed.

Lemma get_stresses_after (groups : list Syllable) (before after : list bool) :
  map is_stressed groups = before ++ true :: after ->
  forallb negb after = true ->
  get_stresses groups =
  let stresses := map is_stressed groups in
  match after with
  | [] => Ret (stresses ++ [false])
  | [_] => Ret stresses
  | _ => Ret (removelast stresses)
  end.
Proof.
  intros E H. unfold get_stresses. rewrite E.
  rewrite rev_app_distr. cbn [rev]. rewrite <- app_assoc. cbn [app].
  unfold index_true. rewrite find_true_after by now rewrite forallb_rev.
  rewrite length_rev. cbn [bind].
  destruct after as [|a [|a' after]]; cbn [length]; try reflexivity.
  cbv zeta.
  replace (- (Z.of_nat (S (S (length after))) + 1) =? -1)%Z with false
    by (symmetry; apply Z.eqb_neq; lia).
  replace (- (Z.of_nat (S (S (length after))) + 1) <=? -3)%Z with true
    by (symmetry; apply Z.leb_le; lia).
  reflexivity.
Qed.

(** C4.  When some group of the line is stressed, [get_stresses] gives
    the stress marks of the groups corrected at the end of the line: one
    unstressed slot more when the last stressed group is the final one,
    the final slot dropped when the last stressed group is three or more
    positions from the end, and the marks as they are when it is the
    penultimate group; the length that [get_rhythmical_pattern] reports
    is the length of the corrected list.  [after] holds the marks that
    follow the last stressed group. *)
Theorem get_stresses_line_end
        (groups : list Syllable) (before after : list bool) :
  map is_stressed groups = before ++ true :: after ->
  forallb negb after = true ->
  let stresses := map is_stressed groups in
  (length after = 0 -> get_stresses groups = Ret (stresses ++ [false]))
  /\ (2 <= length after -> get_stresses groups = Ret (removelast stresses))
  /\ (length after = 1 -> get_stresses groups = Ret stresses)
  /\ (exists corrected,
        get_stresses groups = Ret corrected
        /\ forall rhythm_format,
             get_rhythmical_pattern groups rhythm_format
             = Ret (mkRhythm (format_stress corrected rhythm_format
                                            default_indexed_separator)
                             rhythm_format
                             (Z.of_nat (length corrected)))).
Proof.
  intros E H stresses. pose proof (get_stresses_after E H) as G.
  cbv zeta in G. fold stresses in G.
  repeat split.
  - destruct after; [intros _; exact G | discriminate].
  - destruct after as [|a [|a' after]]; cbn; try lia. intros _. exact G.
  - destruct after as [|a [|a' after]]; try discriminate. intros _. exact G.
  - unfold get_rhythmical_pattern. rewrite G.
    destruct after as [|a [|a' after]]; eexists; (split; [reflexivity|]);
      intro; reflexivity.
Qed.

Lemma get_stresses_line_end_witness :
  let groups := [plain (u "can") false; plain (u "ta") true;
                 plain (u "ba") false; plain (u "mos") false] in
  get_stresses groups = Ret [false; true; false].
Proof.
  intro groups.
  destruct (@get_stresses_line_end groups [false] [false; false]
              eq_refl eq_refl) as (_ & H & _).
  apply H. cbn. lia.
Defined.

(** ** Liaison between two syllables *)

Lemma mem_above (bound c : char) (l : str) :
  forallb (fun k => (k <? bound)%N) l = true ->
  (bound <= c)%N -> mem c l = false.
Proof.
  unfold mem. induction l as [|k l IH]; cbn; [reflexivity|].
  intros H Hc. apply andb_true_iff in H as [Hk Hl].
  apply N.ltb_lt in Hk. rewrite IH by assumption.
  unfold char_eqb. replace (c =? k)%N with false; [reflexivity|].
  symmetry. apply N.eqb_neq. lia.
Qed.

Lemma below_by_cases (P : char -> bool) (bound : nat) :
  forallb (fun n => P (N.of_nat n)) (seq 0 bound) = true ->
  forall c, (c < N.of_nat bound)%N -> P c = true.
Proof.
  intros H c Hc. rewrite forallb_forall in H.
  rewrite <- (N2Nat.id c). apply H. apply in_seq. lia.
Qed.

(** Above Latin-1 and Latin Extended-A, lower-casing reaches Basic Latin
    and Latin-1 at three code points only. *)
Lemma tolower_above (c : char) :
  (512 <= c)%N ->
  lower_char c = [tolower c]
  /\ (tolower c = c \/ tolower c = 223 \/ tolower c = 107
      \/ tolower c = 229)%N.
Proof.
  intro H. unfold lower_char, tolower.
  replace (c =? 304)%N with false by (symmetry; apply N.eqb_neq; lia).
  replace (65 <=? c)%N with true by (symmetry; apply N.leb_le; lia).
  replace (c <=? 90)%N with false by (symmetry; apply N.leb_gt; lia).
  replace (192 <=? c)%N with true by (symmetry; apply N.leb_le; lia).
  replace (c <=? 222)%N with false by (symmetry; apply N.leb_gt; lia).
  replace (c =? 376)%N with false by (symmetry; apply N.eqb_neq; lia).
  cbn [andb]. split; [reflexivity|].
  destruct (c =? 7838)%N; [tauto|].
  destruct (c =? 8490)%N; [tauto|].
  destruct (c =? 8491)%N; tauto.
Qed.

Lemma lower_is_y (c : char) :
  lower_is c 121%N = char_eqb c 121%N || char_eqb c 89%N.
Proof.
  destruct (N.ltb_spec c 512) as [Hc|Hc].
  - apply eqb_prop.
    apply (@below_by_cases
             (fun c => eqb (lower_is c 121%N)
                           (char_eqb c 121%N || char_eqb c 89%N)) 512);
      [vm_compute; reflexivity | exact Hc].
  - destruct (tolower_above Hc) as [E T]. unfold lower_is. rewrite E.
    unfold char_eqb.
    replace (c =? 121)%N with false by (symmetry; apply N.eqb_neq; lia).
    replace (c =? 89)%N with false by (symmetry; apply N.eqb_neq; lia).
    cbn. unfold char_eqb. rewrite andb_true_r. apply N.eqb_neq. lia.
Qed.

Lemma lower_in_vowels (c : char) :
  lower_in c LIAISON_BLOCKING_VOWELS = mem c VOWELS.
Proof.
  destruct (N.ltb_spec c 512) as [Hc|Hc].
  - apply eqb_prop.
    apply (@below_by_cases
             (fun c => eqb (lower_in c LIAISON_BLOCKING_VOWELS)
                           (mem c VOWELS)) 512);
      [vm_compute; reflexivity | exact Hc].
  - destruct (tolower_above Hc) as [E T]. unfold lower_in. rewrite E.
    rewrite (@mem_above 512%N c VOWELS) by (reflexivity || assumption).
    destruct T as [T|[T|[T|T]]]; rewrite T; try reflexivity.
    now apply (@mem_above 512%N).
Qed.

Lemma consonantal_y_test (second : str) :
  match first_char second with
  | Ret c0 =>
    lower_is c0 121%N && (1 <? length second)
    && match nth_error second 1 with
       | Some c1 => lower_in c1 LIAISON_BLOCKING_VOWELS
       | None => false
       end
  | _ => false
  end = consonantal_y second.
Proof.
  destruct second as [|y [|v rest]]; cbn; [reflexivity| |].
  - now rewrite andb_false_r.
  - now rewrite andb_true_r, lower_is_y, lower_in_vowels.
Qed.

Lemma last_char_last (s : str) :
  s <> [] -> last_char s = Ret (last s 0%N).
Proof.
  intro H. destruct (exists_last H) as (s' & c & ->).
  unfold last_char. rewrite rev_app_distr, last_last. reflexivity.
Qed.

Lemma char_eqb_above (c k : char) :
  (k < 512)%N -> (512 <= c)%N -> char_eqb c k = false.
Proof. intros Hk Hc. apply N.eqb_neq. lia. Qed.

Lemma liaison_parts (c : char) :
  mem c LIAISON_FIRST_PART
  = mem c VOWELS || char_eqb c 121%N || char_eqb c 89%N
  /\ mem c LIAISON_SECOND_PART
     = mem c VOWELS || char_eqb c 104%N || char_eqb c 72%N
       || char_eqb c 121%N || char_eqb c 89%N.
Proof.
  destruct (N.ltb_spec c 512) as [Hc|Hc].
  - split; apply eqb_prop.
    + apply (@below_by_cases
               (fun c => eqb (mem c LIAISON_FIRST_PART)
                             (mem c VOWELS || char_eqb c 121%N
                              || char_eqb c 89%N)) 512);
        [vm_compute; reflexivity | exact Hc].
    + apply (@below_by_cases
               (fun c => eqb (mem c LIAISON_SECOND_PART)
                             (mem c VOWELS || char_eqb c 104%N
                              || char_eqb c 72%N || char_eqb c 121%N
                              || char_eqb c 89%N)) 512);
        [vm_compute; reflexivity | exact Hc].
  - rewrite !(@mem_above 512%N c) by (reflexivity || assumption).
    rewrite !(@char_eqb_above c) by (reflexivity || assumption).
    split; reflexivity.
Qed.

(** C5.  On two non-empty syllables [have_prosodic_liaison] answers
    false when the second one starts with [y] or [Y] followed at once by
    a vowel, and otherwise answers whether the last character of the
    first one is in the first-part set (the vowels, [y] and [Y]) and the
    first character of the second one is in the second-part set (the
    vowels, [h], [H], [y] and [Y]).  The blocking test reads the second
    syllable only: a first syllable that ends in [y] blocks nothing. *)
Theorem have_prosodic_liaison_rule (first second : Syllable) :
  text first <> [] -> text second <> [] ->
  (consonantal_y (text second) = true ->
   have_prosodic_liaison first second = Ret false)
  /\ (consonantal_y (text second) = false ->
      have_prosodic_liaison first second
      = Ret (mem (last (text first) 0%N) LIAISON_FIRST_PART
             && mem (hd 0%N (text second)) LIAISON_SECOND_PART))
  /\ (forall c,
        mem c LIAISON_FIRST_PART
        = mem c VOWELS || char_eqb c 121%N || char_eqb c 89%N
        /\ mem c LIAISON_SECOND_PART
           = mem c VOWELS || char_eqb c 104%N || char_eqb c 72%N
             || char_eqb c 121%N || char_eqb c 89%N)
  /\ (forall other : Syllable,
        text other <> [] ->
        consonantal_y (text second) = true ->
        have_prosodic_liaison other second = Ret false)
  /\ (consonantal_y (text second) = false ->
      last (text first) 0%N = 121%N \/ last (text first) 0%N = 89%N ->
      have_prosodic_liaison first second
      = Ret (mem (hd 0%N (text second)) LIAISON_SECOND_PART)).
Proof.
  intros Hf Hs.
  assert (Blocked : forall other : Syllable,
             consonantal_y (text second) = true ->
             have_prosodic_liaison other second = Ret false).
  { intros other B. unfold have_prosodic_liaison.
    pose proof (consonantal_y_test (text second)) as T.
    destruct (text second) as [|c0 rest] eqn:E; [contradiction|].
    cbn [first_char index nth_error bind] in *. rewrite T, B. reflexivity. }
  assert (Free : consonantal_y (text second) = false ->
                 have_prosodic_liaison first second
                 = Ret (mem (last (text first) 0%N) LIAISON_FIRST_PART
                        && mem (hd 0%N (text second)) LIAISON_SECOND_PART)).
  { intro B. unfold have_prosodic_liaison.
    pose proof (consonantal_y_test (text second)) as T.
    rewrite (last_char_last Hf).
    destruct (text second) as [|c0 rest] eqn:E; [contradiction|].
    cbn [first_char index nth_error bind hd] in *. rewrite T, B.
    destruct (mem (last (text first) 0%N) LIAISON_FIRST_PART); reflexivity. }
  repeat split.
  - apply Blocked.
  - exact Free.
  - apply liaison_parts.
  - apply liaison_parts.
  - intros other _. apply Blocked.
  - intros B Y. rewrite (Free B).
    destruct Y as [-> | ->]; reflexivity.
Qed.

Lemma have_prosodic_liaison_rule_witness :
  have_prosodic_liaison (plain (u "hoy") true) (plain (u "es") true)
  = Ret true
  /\ have_prosodic_liaison (plain (u "la") false) (plain (u "ya") true)
     = Ret false.
Proof.
  split.
  - destruct (@have_prosodic_liaison_rule
                (plain (u "hoy") true) (plain (u "es") true))
      as (_ & _ & _ & _ & H); [discriminate | discriminate |].
    apply H; [reflexivity | left; reflexivity].
  - destruct (@have_prosodic_liaison_rule
                (plain (u "la") false) (plain (u "ya") true))
      as (H & _); [discriminate | discriminate |].
    apply H. reflexivity.
Defined.

(** ** The group reducer *)

Lemma bind_Ret {A B} (m : outcome A) (f : A -> outcome B) (b : B) :
  bind m f = Ret b -> exists a, m = Ret a /\ f a = Ret b.
Proof. destruct m; cbn; intro H; try discriminate. eauto. Qed.

Lemma index_Ret {A} (l : list A) (i : nat) (a : A) :
  index l i = Ret a <-> nth_error l i = Some a.
Proof.
  unfold index. destruct (nth_error l i); split; intro H;
    try discriminate; congruence.
Qed.

Lemma index_lt {A} (l : list A) (i : nat) :
  i < length l -> exists a, index l i = Ret a.
Proof.
  intro H. unfold index. destruct (nth_error l i) eqn:E; [eauto|].
  apply nth_error_None in E. lia.
Qed.

Lemma scan_step_kind lt bf ss lp idx s st st' :
  scan_step lt bf ss lp idx s st = Ret st' -> step_kind lt lp idx s st st'.
Proof.
  unfold scan_step. destruct (skip_next st) eqn:Sk.
  - intro H. injection H as <-. now apply Passed.
  - intro H. apply bind_Ret in H as ([next breaks] & _ & H).
    apply bind_Ret in H as (position & Hp & H). apply index_Ret in Hp.
    destruct (truthy position && negb breaks) eqn:T.
    + destruct next as [nxt|]; [|discriminate].
      apply bind_Ret in H as (following & Hq & H). apply index_Ret in Hq.
      injection H as <-. apply andb_true_iff in T as [T _].
      eapply Fused; eauto.
    + injection H as <-. eapply Kept; eauto.
Qed.

Section ScanFacts.

Variable lt : liaison.
Variable bf : option breakage.
Variable ss : list Syllable.
Variable lp : list Z.

(** Bookkeeping of a scan: every syllable passed over was fused into its
    predecessor; the new eligibility vector grows with the reduced
    sequence, and holds zeros only unless some pair was fused. *)
Lemma scan_from_count (rest : list Syllable) : forall idx st st',
  scan_from lt bf ss lp idx rest st = Ret st' ->
  length (reduced_syllables st') + fused st' + b2n (skip_next st)
  = length (reduced_syllables st) + fused st + length rest
    + b2n (skip_next st')
  /\ fused st <= fused st'
  /\ (skip_next st' = true ->
      fused st < fused st' \/ (skip_next st = true /\ rest = []))
  /\ (length (liaison_index st) = length (reduced_syllables st) ->
      length (liaison_index st') = length (reduced_syllables st'))
  /\ (all_zero (liaison_index st) -> fused st' = fused st ->
      all_zero (liaison_index st')).
Proof.
  induction rest as [|s rest IH]; intros idx st st' H.
  - cbn in H. injection H as <-. cbn. repeat split; try lia; auto.
  - cbn [scan_from] in H. apply bind_Ret in H as (st1 & H1 & H).
    apply IH in H as (C & M & K & L & Zr).
    apply scan_step_kind in H1.
    destruct H1 as [Sk ->|next Sk ->|next p q Sk Hp Tp Hq ->];
      cbn [skip_next reduced_syllables liaison_index fused b2n] in *;
      rewrite ?Sk, ?length_app in *; cbn [length b2n] in *.
    + repeat split; try lia; auto.
      intro T. destruct (K T) as [|[? _]]; [now left | discriminate].
    + repeat split; try lia.
      * intro T. destruct (K T) as [|[? _]]; [now left | discriminate].
      * intros A E. apply Zr; [|exact E].
        apply Forall_app. split; [exact A | now constructor].
    + repeat split; lia.
Qed.

Hypothesis aligned : length lp = length ss.

(** When the eligibility vector has the length of the sequence, a fusion
    always has a successor to consume, so no scan ends on a pending
    skip. *)
Lemma scan_from_no_pending (rest : list Syllable) : forall idx st st',
  scan_from lt bf ss lp idx rest st = Ret st' ->
  idx + length rest = length ss ->
  (skip_next st = true -> rest <> []) ->
  skip_next st' = false.
Proof.
  induction rest as [|s rest IH]; intros idx st st' H N P.
  - cbn in H. injection H as <-.
    destruct (skip_next st); [now destruct P | reflexivity].
  - cbn [scan_from] in H. apply bind_Ret in H as (st1 & H1 & H).
    cbn [length] in N. apply IH in H; [exact H | lia |].
    apply scan_step_kind in H1.
    destruct H1 as [Sk ->|next Sk ->|next p q Sk Hp Tp Hq ->]; cbn;
      try discriminate.
    intros _. assert (idx + 1 < length lp)
      by (apply nth_error_Some; congruence).
    destruct rest; [cbn in N; lia | discriminate].
Qed.

End ScanFacts.

Lemma sum_all_zero (l : list Z) : all_zero l -> sum l = 0%Z.
Proof. induction 1 as [|z l -> _ IH]; cbn; [reflexivity | exact IH]. Qed.

(** A full scan over an aligned eligibility vector. *)
Lemma scan_aligned lt bf ss lp skip next count st' :
  length lp = length ss ->
  scan lt bf ss lp skip next count = Ret st' ->
  length (liaison_index st') = length (reduced_syllables st')
  /\ count <= fused st'
  /\ (fused st' = count -> all_zero (liaison_index st'))
  /\ (ss <> [] ->
      skip_next st' = false
      /\ length (reduced_syllables st') + fused st' + b2n skip
         = length ss + count)
  /\ (ss = [] -> reduced_syllables st' = []).
Proof.
  intros A H. unfold scan in H.
  pose proof (scan_from_count H) as (C & M & _ & L & Zr).
  cbn [reduced_syllables liaison_index fused skip_next length] in *.
  split; [auto|]. split; [exact M|]. split; [|split].
  - intro E. apply Zr; [constructor | exact E].
  - intro N.
    assert (S' : skip_next st' = false).
    { apply (scan_from_no_pending A) in H; [exact H | reflexivity |].
      intros _. exact N. }
    split; [exact S'|]. rewrite S' in C. cbn in C. lia.
  - intros ->. cbn in H. now injection H as <-.
Qed.

Lemma predicate_within_budget f : within_budget (option_map predicate f).
Proof.
  intros g E lt a b. destruct f as [f|]; [|discriminate].
  injection E as <-. discriminate.
Qed.

Lemma break_on_h_within_budget : within_budget (Some break_on_h).
Proof.
  intros g E lt a b. injection E as <-. unfold break_on_h.
  destruct (liaison_eqb lt synalepha); [|discriminate].
  unfold first_char, index. destruct (nth_error (text b) 0); discriminate.
Qed.

Lemma scan_step_budget lt bf ss lp idx s st :
  within_budget bf -> scan_step lt bf ss lp idx s st <> OutOfFuel.
Proof.
  intro W. unfold scan_step. destruct (skip_next st); [discriminate|].
  destruct (Z.of_nat idx <? Z.of_nat (length ss) - 1)%Z.
  - unfold index at 1. destruct (nth_error ss (idx + 1)); [|discriminate].
    cbn [bind]. destruct bf as [f|].
    + specialize (W f eq_refl lt s s0).
      destruct (f lt s s0); [|discriminate|contradiction].
      cbn [bind]. unfold index.
      destruct (nth_error lp idx); [|discriminate]. cbn [bind].
      destruct (truthy z && negb a); [|discriminate].
      destruct (nth_error lp (idx + 1)); discriminate.
    + cbn [bind]. unfold index.
      destruct (nth_error lp idx); [|discriminate]. cbn [bind].
      destruct (truthy z && negb false); [|discriminate].
      destruct (nth_error lp (idx + 1)); discriminate.
  - cbn [bind]. unfold index.
    destruct (nth_error lp idx); [|discriminate]. cbn [bind].
    destruct (truthy z && negb false); [|discriminate].
    destruct (next_syllable st); [|discriminate].
    destruct (nth_error lp (idx + 1)); discriminate.
Qed.

Lemma scan_from_budget lt bf ss lp (rest : list Syllable) : forall idx st,
  within_budget bf -> scan_from lt bf ss lp idx rest st <> OutOfFuel.
Proof.
  induction rest as [|s rest IH]; intros idx st W; [discriminate|].
  cbn [scan_from]. pose proof (@scan_step_budget lt _ ss lp idx s st W).
  destruct (scan_step lt bf ss lp idx s st); cbn [bind];
    [now apply IH | discriminate | contradiction].
Qed.

Lemma reduce_done fuel lt bf ss lp skip next count :
  (sum lp <= 0)%Z ->
  reduce fuel lt bf ss lp skip next count = Ret (ss, lp, count).
Proof.
  intro H. destruct fuel; cbn [reduce];
    (replace (0 <? sum lp)%Z with false
      by (symmetry; apply Z.ltb_ge; exact H)); reflexivity.
Qed.

Lemma length_zero_nil {A} (l : list A) : length l = 0 -> l = [].
Proof. now destruct l. Qed.

(** On an aligned eligibility vector every pass but the last one
    shortens the sequence. *)
Lemma reduce_budget_aligned lt bf (W : within_budget bf) :
  forall fuel ss lp skip next count,
    length lp = length ss -> length ss < fuel ->
    reduce fuel lt bf ss lp skip next count <> OutOfFuel.
Proof.
  induction fuel as [|fuel IH]; intros ss lp skip next count A N; [lia|].
  cbn [reduce]. destruct (0 <? sum lp)%Z; [|discriminate].
  pose proof (@scan_from_budget lt bf ss lp ss 0
                (mkScan skip next [] [] count) W) as B.
  fold (scan lt bf ss lp skip next count) in B.
  destruct (scan lt bf ss lp skip next count) as [st'| |] eqn:E;
    cbn [bind]; [|discriminate|contradiction].
  destruct (scan_aligned A E) as (L & M & Zr & Ne & Em).
  destruct ss as [|s ss].
  - rewrite (Em eq_refl) in *. cbn in L. apply length_zero_nil in L.
    rewrite L. rewrite reduce_done; [discriminate | cbn; lia].
  - destruct Ne as [S' C]; [discriminate|].
    destruct (Nat.eq_dec (fused st') count) as [F|F].
    + rewrite reduce_done; [discriminate|].
      rewrite sum_all_zero by auto. lia.
    + apply IH; [exact L|]. cbn [length] in *. lia.
Qed.

Lemma clean_from_budget lt lp (groups : list Syllable) : forall n,
  clean_from lt lp n groups <> OutOfFuel.
Proof.
  induction groups as [|g groups IH]; intros n E; [discriminate E|].
  cbn [clean_from] in E.
  destruct (has_liaison lt g); cbn [bind] in E.
  - unfold index in E. destruct (nth_error lp n); cbn [bind] in E;
      [|discriminate E].
    destruct (clean_from lt lp (S n) groups) eqn:E'; cbn [bind] in E;
      try discriminate E. now apply (IH (S n)).
  - destruct (clean_from lt lp (S n) groups) eqn:E'; cbn [bind] in E;
      try discriminate E. now apply (IH (S n)).
Qed.

(** The pass budget of [get_phonological_groups] is never used up. *)
Lemma get_phonological_groups_fuel_enough ss lt bf lp :
  within_budget bf -> get_phonological_groups ss lt bf lp <> OutOfFuel.
Proof.
  intro W. unfold get_phonological_groups, get_phonological_groups_fused.
  set (positions := match lp with
                    | Some l => l
                    | None => flag_positions lt ss
                    end).
  assert (R : reduce (length ss + 2) lt bf ss positions false None 0
              <> OutOfFuel).
  { replace (length ss + 2) with (S (length ss + 1)) by lia.
    cbn [reduce]. destruct (0 <? sum positions)%Z; [|discriminate].
    pose proof (@scan_from_budget lt bf ss positions ss 0
                  (mkScan false None [] [] 0) W) as B.
    fold (scan lt bf ss positions false None 0) in B.
    destruct (scan lt bf ss positions false None 0) as [st'| |] eqn:E;
      cbn [bind]; [|discriminate|contradiction].
    unfold scan in E.
    pose proof (scan_from_count E) as (C & _ & K & L & _).
    cbn [reduced_syllables liaison_index fused skip_next length b2n] in *.
    apply reduce_budget_aligned; [exact W | auto |].
    destruct (skip_next st'); cbn [b2n] in C; [|lia].
    destruct (K eq_refl) as [|[? _]]; [lia | discriminate]. }
  destruct (reduce (length ss + 2) lt bf ss positions false None 0)
    as [[[out lp'] count]| |]; cbn [bind]; [|discriminate|contradiction].
  destruct (clean_phonological_groups out lp' lt) eqn:E; cbn [bind];
    try discriminate.
  exfalso. exact (clean_from_budget E).
Qed.

(** Over an aligned eligibility vector, the syllables that leave the
    loop and the fusions made in it add up to the syllables that
    entered. *)
Lemma reduce_count lt bf : forall fuel ss lp next count out lp' count',
  length lp = length ss ->
  reduce fuel lt bf ss lp false next count = Ret (out, lp', count') ->
  length out + count' = length ss + count /\ length lp' = length out.
Proof.
  induction fuel as [|fuel IH]; intros ss lp next count out lp' count' A H;
    cbn [reduce] in H; destruct (0 <? sum lp)%Z eqn:Sm;
    try discriminate H; try (injection H as <- <- <-; now split).
  apply bind_Ret in H as (st' & E & H).
  destruct (scan_aligned A E) as (L & M & _ & Ne & _).
  destruct ss as [|s ss].
  { apply length_zero_nil in A. subst lp. discriminate Sm. }
  destruct Ne as [S' C]; [discriminate|]. rewrite S' in H.
  apply IH in H as [H1 H2]; [|exact L]. cbn [b2n] in C. split; [lia|exact H2].
Qed.

Lemma clean_from_length lt lp (groups : list Syllable) : forall n out,
  clean_from lt lp n groups = Ret out -> length out = length groups.
Proof.
  induction groups as [|g groups IH]; intros n out H; cbn [clean_from] in H.
  - now injection H as <-.
  - apply bind_Ret in H as (g' & _ & H).
    apply bind_Ret in H as (gs & H' & H). injection H as <-.
    cbn. f_equal. eauto.
Qed.

Lemma flag_positions_length lt ss :
  length (flag_positions lt ss) = length ss.
Proof. apply length_map. Qed.

Lemma set_has_liaison_same lt (g : Syllable) (b : bool) :
  has_liaison lt g = Some b -> set_has_liaison lt (Some b) g = g.
Proof. destruct g, lt; cbn; now intros ->. Qed.

(** Cleaning against the flags themselves changes nothing. *)
Lemma clean_from_flags lt (groups : list Syllable) : forall front,
  clean_from lt (flag_positions lt (front ++ groups)) (length front) groups
  = Ret groups.
Proof.
  induction groups as [|g groups IH]; intro front; [reflexivity|].
  cbn [clean_from].
  replace (front ++ g :: groups) with ((front ++ [g]) ++ groups)
    by now rewrite <- app_assoc.
  specialize (IH (front ++ [g])). rewrite length_app in IH.
  cbn [length] in IH. rewrite Nat.add_1_r in IH. rewrite IH.
  destruct (has_liaison lt g) as [b|] eqn:F; [|reflexivity].
  unfold index, flag_positions. rewrite nth_error_map, <- app_assoc.
  rewrite nth_error_app2, Nat.sub_diag by lia. cbn. rewrite F.
  replace (truthy (if b then 1%Z else 0%Z)) with b by now destruct b.
  now rewrite set_has_liaison_same.
Qed.

Lemma sum_flags_zero lt ss :
  Forall (fun s => has_liaison lt s <> Some true) ss ->
  sum (flag_positions lt ss) = 0%Z.
Proof.
  induction 1 as [|s ss H _ IH]; [reflexivity|].
  unfold sum, flag_positions in *. cbn [map fold_right]. rewrite IH.
  destruct (has_liaison lt s) as [[|]|]; [now destruct H | reflexivity..].
Qed.

(** X23.  For the eligibility read from the flags, and for a vector that
    has the length of the syllables, whatever the syllables, the kind of
    liaison and the breakage function, [get_phonological_groups] comes
    to an end, and the groups it returns are as many as the syllables
    less the fusions it made: never more than the syllables, and as many
    exactly when nothing was fused.  On syllables none of which is
    flagged it returns them as they are.  Nothing is said of a vector of
    another length. *)
Theorem get_phonological_groups_length
        (ss : list Syllable) (lt : liaison) (bf : option breakage)
        (lp : option (list Z)) :
  within_budget bf ->
  (forall l, lp = Some l -> length l = length ss) ->
  get_phonological_groups ss lt bf lp <> OutOfFuel
  /\ (forall out,
        get_phonological_groups ss lt bf lp = Ret out ->
        exists merges,
          get_phonological_groups_fused (length ss + 2) ss lt bf lp
          = Ret (out, merges)
          /\ length out + merges = length ss
          /\ length out <= length ss
          /\ (length out = length ss <-> merges = 0))
  /\ (Forall (fun s => has_liaison lt s <> Some true) ss ->
      get_phonological_groups ss lt bf None = Ret ss).
Proof.
  intros W A. split; [now apply get_phonological_groups_fuel_enough|]. split.
  - intros out H. unfold get_phonological_groups in H.
    apply bind_Ret in H as ([out' merges] & H & E). injection E as <-.
    exists merges. split; [exact H|].
    unfold get_phonological_groups_fused in H.
    apply bind_Ret in H as ([[groups lp'] count] & R & H).
    apply bind_Ret in H as (cleaned & C & H). injection H as <- <-.
    apply clean_from_length in C.
    apply reduce_count in R.
    + cbn [fst]. lia.
    + destruct lp as [l|]; [now apply A | apply flag_positions_length].
  - intro F. unfold get_phonological_groups, get_phonological_groups_fused.
    rewrite reduce_done by (rewrite sum_flags_zero by exact F; lia).
    cbn [bind]. unfold clean_phonological_groups.
    pose proof (@clean_from_flags lt ss []) as C. cbn [app length] in C.
    now rewrite C.
Qed.

Lemma get_phonological_groups_length_witness :
  get_phonological_groups
    [set_has_liaison sinaeresis (Some true) (plain (u "le") true);
     plain (u "e") false; plain (u "a") false]
    sinaeresis (Some break_on_h) None <> OutOfFuel.
Proof.
  apply get_phonological_groups_length.
  - exact break_on_h_within_budget.
  - discriminate.
Defined.

(** C7 fails on the code, on a call that the program makes.  For the
    second liaison of a pair [generate_phonological_groups] hands
    [get_phonological_groups] the groups that the first liaison left
    together with a vector made for the syllables of the line, which are
    more.  For "lee a" the sinaeresis leaves the two groups lee and a,
    and the vector of the synalepha is [0, 1, 0]: at the last group the
    reducer fuses the group with the successor left over from the step
    before, which is the group itself.  It returns two groups, lee and
    aa: as many as it was given, although it made one fusion. *)
Theorem get_phonological_groups_fuses_without_shrinking :
  exists words syllables groups candidate,
    get_words no_foreign_words no_alternatives lee_a true = Ret words
    /\ syllables = snd (get_syllables_word_end words)
    /\ get_phonological_groups syllables sinaeresis (Some break_on_h)
                               (Some [1%Z; 0%Z; 0%Z]) = Ret groups
    /\ map text groups = [u "lee"; u "a"]
    /\ nth_error (generate_liaison_positions syllables synalepha) 0
       = Some [0%Z; 1%Z; 0%Z]
    /\ get_phonological_groups groups synalepha (Some break_on_h)
                               (Some [0%Z; 1%Z; 0%Z]) = Ret candidate
    /\ get_phonological_groups_fused (length groups + 2) groups synalepha
                                     (Some break_on_h)
                                     (Some [0%Z; 1%Z; 0%Z])
       = Ret (candidate, 1)
    /\ length candidate = length groups
    /\ map text candidate = [u "lee"; u "aa"]
    /\ nth_error (generate_phonological_groups no_foreign_words
                                               no_alternatives lee_a) 8
       = Some (Ret candidate).
Proof.
  do 4 eexists.
  split; [vm_compute; reflexivity|].
  split; [reflexivity|].
  split; [vm_compute; reflexivity|].
  split; [vm_compute; reflexivity|].
  split; [vm_compute; reflexivity|].
  split; [vm_compute; reflexivity|].
  split; [vm_compute; reflexivity|].
  split; [vm_compute; reflexivity|].
  split; vm_compute; reflexivity.
Qed.

(** ** Termination of the group reducer *)

Lemma nth_last {A} (l : list A) (d : A) :
  nth (length l - 1) l d = last l d.
Proof.
  induction l as [|a l IH]; [reflexivity|].
  destruct l as [|b l]; [reflexivity|].
  cbn [length] in *. rewrite Nat.sub_succ, Nat.sub_0_r in *.
  change (nth (S (length l)) (a :: b :: l) d)
    with (nth (length l) (b :: l) d).
  rewrite IH. reflexivity.
Qed.

Section Safe.

Variable lt : liaison.
Variable f : option (liaison -> Syllable -> Syllable -> bool).
Variable ss : list Syllable.
Variable lp : list Z.

Hypothesis aligned : length lp = length ss.
Hypothesis last_zero : last lp 0%Z = 0%Z.

(** With no eligibility at the final position a scan raises nothing,
    and leaves no eligibility at the final position. *)
Lemma scan_from_safe (rest : list Syllable) : forall idx st,
  idx + length rest = length ss ->
  (skip_next st = true ->
   rest <> [] /\ last (liaison_index st) 0%Z = nth idx lp 0%Z) ->
  (skip_next st = false -> rest = [] -> last (liaison_index st) 0%Z = 0%Z) ->
  exists st',
    scan_from lt (option_map predicate f) ss lp idx rest st = Ret st'
    /\ last (liaison_index st') 0%Z = 0%Z.
Proof.
  induction rest as [|s rest IH]; intros idx st N P Q.
  - exists st. split; [reflexivity|].
    destruct (skip_next st); [now destruct P | now apply Q].
  - cbn [length] in N. cbn [scan_from]. unfold scan_step.
    destruct (skip_next st) eqn:Sk.
    + cbn [bind]. apply IH; cbn; [lia | discriminate |].
      intros _ ->. destruct P as [_ P]; [reflexivity|].
      rewrite P. cbn in N. replace idx with (length lp - 1) by lia.
      now rewrite nth_last.
    + destruct (index_lt (l := lp) (i := idx)) as [p Hp]; [lia|].
      destruct (Z.ltb_spec (Z.of_nat idx) (Z.of_nat (length ss) - 1))
        as [Lt|Ge].
      * destruct (index_lt (l := ss) (i := idx + 1)) as [nxt Hn]; [lia|].
        destruct (index_lt (l := lp) (i := idx + 1)) as [q Hq]; [lia|].
        rewrite Hn. cbn [bind].
        assert (B : exists b,
                   match option_map predicate f with
                   | Some g => g lt s nxt
                   | None => Ret false
                   end = Ret b).
        { destruct f; cbn; unfold predicate; eauto. }
        destruct B as [b ->]. cbn [bind]. rewrite Hp. cbn [bind].
        destruct (truthy p && negb b).
        -- rewrite Hq. cbn [bind]. apply IH; cbn; [lia | | discriminate].
           intros _. split; [destruct rest; [cbn in N; lia | discriminate]|].
           rewrite last_last. apply index_Ret in Hq.
           replace (S idx) with (idx + 1) by lia.
           symmetry. now apply nth_error_nth.
        -- apply IH; cbn; [lia | discriminate |].
           intros _ _. now rewrite last_last.
      * cbn [bind]. rewrite Hp. cbn [bind].
        assert (p = 0%Z) as ->.
        { apply index_Ret in Hp. apply nth_error_nth with (d := 0%Z) in Hp.
          rewrite <- Hp. transitivity (last lp 0%Z); [|exact last_zero].
          rewrite <- nth_last. f_equal. lia. }
        cbn. apply IH; cbn; [lia | discriminate |].
        intros _ _. now rewrite last_last.
Qed.

End Safe.

Lemma sum_positive_two (lp : list Z) :
  (0 < sum lp)%Z -> last lp 0%Z = 0%Z -> 2 <= length lp.
Proof.
  destruct lp as [|a [|b lp]]; cbn; try lia.
Qed.

(** More passes than needed change nothing. *)
Lemma reduce_more_fuel lt bf : forall fuel fuel' ss lp skip next count r,
  reduce fuel lt bf ss lp skip next count = Ret r ->
  fuel <= fuel' ->
  reduce fuel' lt bf ss lp skip next count = Ret r.
Proof.
  induction fuel as [|fuel IH]; intros fuel' ss lp skip next count r H Le.
  - cbn [reduce] in H. destruct (0 <? sum lp)%Z eqn:E; [discriminate|].
    injection H as <-. apply reduce_done. now apply Z.ltb_ge.
  - destruct fuel' as [|fuel']; [lia|]. cbn [reduce] in *.
    destruct (0 <? sum lp)%Z; [|exact H].
    apply bind_Ret in H as (st' & -> & H). cbn [bind].
    apply IH; [exact H | lia].
Qed.

(** As many passes as there are syllables are enough. *)
Lemma reduce_safe lt f : forall fuel ss lp next count,
  length lp = length ss -> last lp 0%Z = 0%Z -> length ss <= fuel ->
  exists out lp' count',
    reduce fuel lt (option_map predicate f) ss lp false next count
    = Ret (out, lp', count')
    /\ length lp' = length out /\ last lp' 0%Z = 0%Z
    /\ (sum lp' <= 0)%Z.
Proof.
  induction fuel as [|fuel IH]; intros ss lp next count A Lz N.
  - apply Nat.le_0_r, length_zero_nil in N. subst ss.
    apply length_zero_nil in A. subst lp.
    exists [], [], count. cbn. repeat split; lia.
  - destruct (Z.ltb_spec 0 (sum lp)) as [Pos|NPos].
    + cbn [reduce]. replace (0 <? sum lp)%Z with true
        by (symmetry; now apply Z.ltb_lt).
      destruct (@scan_from_safe lt f ss lp A Lz ss 0
                  (mkScan false next [] [] count))
        as (st' & E & Lz'); [reflexivity | discriminate | reflexivity |].
      fold (scan lt (option_map predicate f) ss lp false next count) in E.
      rewrite E. cbn [bind].
      destruct (scan_aligned A E) as (L & M & Zr & Ne & _).
      pose proof (sum_positive_two Pos Lz) as Two.
      destruct Ne as [S' C]; [intros ->; cbn in A; lia|].
      rewrite S'. cbn [b2n] in C.
      destruct (Nat.eq_dec (fused st') count) as [F|F].
      * rewrite reduce_done by (rewrite sum_all_zero by auto; lia).
        do 3 eexists. repeat split; eauto.
        rewrite sum_all_zero by auto. lia.
      * apply IH; auto. lia.
    + rewrite reduce_done by exact NPos.
      do 3 eexists. repeat split; eauto.
Qed.

(** C8.  The loop of [get_phonological_groups] terminates, whatever the
    syllables, the eligibility vector of their length with no eligibility
    at the final position, and the breakage predicate.  Every full scan
    raises nothing and either fuses a pair, which shortens the sequence,
    or leaves an eligibility vector of zeros; the vector it leaves has
    again the length of the sequence and no eligibility at the final
    position.  Hence as many passes as there are syllables are enough:
    with that budget or a larger one the loop returns, and returns the
    same. *)
Theorem reduce_terminates
        (lt : liaison) (f : option (liaison -> Syllable -> Syllable -> bool))
        (ss : list Syllable) (lp : list Z) :
  length lp = length ss ->
  last lp 0%Z = 0%Z ->
  Forall (fun z => z = 0%Z \/ z = 1%Z) lp ->
  (forall next count, exists st',
      scan lt (option_map predicate f) ss lp false next count = Ret st'
      /\ skip_next st' = false
      /\ length (liaison_index st') = length (reduced_syllables st')
      /\ last (liaison_index st') 0%Z = 0%Z
      /\ length (reduced_syllables st') + (fused st' - count) = length ss
      /\ (count < fused st' \/ all_zero (liaison_index st')))
  /\ (exists r, forall fuel,
        length ss <= fuel ->
        reduce fuel lt (option_map predicate f) ss lp false None 0 = Ret r).
Proof.
  intros A Lz _. split.
  - intros next count.
    destruct (@scan_from_safe lt f ss lp A Lz ss 0
                (mkScan false next [] [] count))
      as (st' & E & Lz'); [reflexivity | discriminate | reflexivity |].
    fold (scan lt (option_map predicate f) ss lp false next count) in E.
    exists st'. split; [exact E|].
    destruct (scan_aligned A E) as (L & M & Zr & Ne & Em).
    destruct ss as [|s ss'].
    + cbn in E. injection E as <-. cbn.
      repeat split; try lia. right. constructor.
    + destruct Ne as [S' C]; [discriminate|]. cbn [b2n] in C.
      repeat split; auto; try lia.
      destruct (Nat.eq_dec (fused st') count); [right; auto | left; lia].
  - destruct (@reduce_safe lt f (length ss) ss lp None 0 A Lz (le_n _))
      as (out & lp' & count' & R & _).
    exists (out, lp', count'). intros fuel Le.
    now apply (reduce_more_fuel R).
Qed.

Lemma reduce_terminates_witness :
  exists r, forall fuel,
    3 <= fuel ->
    reduce fuel synalepha
           (option_map predicate (Some (fun _ _ b => first_in (text b)
                                                               (u "hH"))))
           [plain (u "la") false; plain (u "a") true; plain (u "ve") false]
           [1%Z; 1%Z; 0%Z] false None 0 = Ret r.
Proof.
  refine (proj2 (@reduce_terminates
                   synalepha
                   (Some (fun _ _ b => first_in (text b) (u "hH")))
                   [plain (u "la") false; plain (u "a") true;
                    plain (u "ve") false]
                   [1%Z; 1%Z; 0%Z] eq_refl eq_refl _)).
  repeat (apply Forall_cons; [lia|]). apply Forall_nil.
Defined.

Lemma firstn_length_app {A} (w s : list A) (i : nat) :
  firstn (i + length w - i) (w ++ s) = w.
Proof.
  replace (i + length w - i) with (length w + 0) by lia.
  rewrite firstn_app_2. cbn. apply app_nil_r.
Qed.

Lemma star_sound p (s : str) : forall i c k a,
  star p i s c k = Some a ->
  exists w s', s = w ++ s' /\ Forall (fun x => p x = true) w
               /\ k (i + length w) s' c = Some a.
Proof.
  induction s as [|x s IH]; intros i c k a H; cbn [star] in H.
  - exists [], []. rewrite Nat.add_0_r. auto.
  - destruct (p x) eqn:Px.
    + destruct (star p (S i) s c k) eqn:E.
      * injection H as <-. apply IH in E as (w & s' & -> & F & K).
        exists (x :: w), s'. cbn [length app].
        rewrite Nat.add_succ_r. auto.
      * exists [], (x :: s). rewrite Nat.add_0_r. auto.
    + exists [], (x :: s). rewrite Nat.add_0_r. auto.
Qed.

(** Soundness of the matcher: when it succeeds, the pattern consumed a
    prefix of the subject and the continuation succeeded on the rest. *)
Lemma run_sound (r : re) : forall i s c k a,
  run r i s c k = Some a ->
  exists w s' c', s = w ++ s' /\ Sem r w c c'
                  /\ k (i + length w) s' c' = Some a.
Proof.
  induction r as [|p|r1 IH1 r2 IH2|r1 IH1 r2 IH2|p|r IH|n r IH| | |r IH];
    intros i s c k a H; cbn [run] in H.
  - exists [], s, c. rewrite Nat.add_0_r. repeat split; [constructor|auto].
  - destruct s as [|x s]; [discriminate|]. destruct (p x) eqn:Px;
      [|discriminate].
    exists [x], s, c. cbn [length]. rewrite Nat.add_1_r.
    repeat split; [now constructor | auto].
  - apply IH1 in H as (w1 & s1 & c1 & -> & S1 & H).
    apply IH2 in H as (w2 & s2 & c2 & -> & S2 & H).
    exists (w1 ++ w2), s2, c2. rewrite length_app, Nat.add_assoc, app_assoc.
    repeat split; [econstructor; eauto | auto].
  - destruct (run r1 i s c k) eqn:E.
    + injection H as <-. apply IH1 in E as (w & s' & c' & -> & S1 & K).
      exists w, s', c'. repeat split; [now apply SemAltL | auto].
    + apply IH2 in H as (w & s' & c' & -> & S2 & K).
      exists w, s', c'. repeat split; [now apply SemAltR | auto].
  - apply star_sound in H as (w & s' & -> & F & K).
    exists w, s', c. repeat split; [now constructor | auto].
  - destruct (run r i s c k) eqn:E.
    + injection H as <-. apply IH in E as (w & s' & c' & -> & S1 & K).
      exists w, s', c'. repeat split; [now apply SemOptSome | auto].
    + exists [], s, c. rewrite Nat.add_0_r.
      repeat split; [apply SemOptNone | auto].
  - apply IH in H as (w & s' & c' & -> & S1 & K).
    rewrite firstn_length_app in K.
    exists w, s', ((n, w) :: c'). repeat split; [now apply SemGrp | auto].
  - destruct (Nat.eqb i 0); [|discriminate].
    exists [], s, c. rewrite Nat.add_0_r. repeat split; [constructor|auto].
  - assert (K : k i s c = Some a).
    { destruct s as [|x [|y s]]; try discriminate; auto.
      destruct (char_eqb x NEWLINE); [auto | discriminate]. }
    exists [], s, c. rewrite Nat.add_0_r. repeat split; [constructor|auto].
  - destruct (run r i s c (fun j _ c' => Some (j, c'))); [discriminate|].
    exists [], s, c. rewrite Nat.add_0_r. repeat split; [constructor|auto].
Qed.

Lemma star_dot_all (s : str) : forall i c k,
  no_newline s -> succeeds k ->
  star dot i s c k = k (i + length s) [] c.
Proof.
  induction s as [|x s IH]; intros i c k N T; cbn [star length].
  - now rewrite Nat.add_0_r.
  - inversion N as [|? ? Hx Hs]; subst. unfold dot at 1. rewrite Hx.
    cbn [negb]. rewrite (IH (S i) c k Hs T), Nat.add_succ_r. cbn [Nat.add].
    destruct (k (S (i + length s)) [] c) eqn:E; [reflexivity|].
    now destruct (T _ _ _ E).
Qed.

Lemma no_newline_app (a b : str) :
  no_newline (a ++ b) <-> no_newline a /\ no_newline b.
Proof. apply Forall_app. Qed.

(** On a subject without line break, a pattern that ends in [.*] and is
    followed by nothing that can fail consumes the whole subject. *)
Lemma run_to_the_end (r : re) : ends_in_dot_star r ->
  forall i s c k a,
    no_newline s -> succeeds k ->
    run r i s c k = Some a ->
    exists c', Sem r s c c' /\ k (i + length s) [] c' = Some a.
Proof.
  induction 1 as [|r1 r2 _ IH|n r _ IH]; intros i s c k a N T H.
  - cbn [run] in H. rewrite star_dot_all in H by assumption.
    exists c. split; [|exact H]. constructor.
    eapply Forall_impl; [|exact N]. intros x Hx. unfold dot. now rewrite Hx.
  - cbn [run] in H. apply run_sound in H as (w1 & s1 & c1 & -> & S1 & H).
    apply no_newline_app in N as [_ N].
    apply IH in H as (c' & S2 & K); try assumption.
    exists c'. rewrite length_app, Nat.add_assoc.
    split; [econstructor; eauto | exact K].
  - cbn [run] in H. apply IH in H as (c' & S1 & K); try assumption.
    + replace (i + length s - i) with (length s) in K by lia.
      rewrite firstn_all in K.
      exists ((n, s) :: c'). split; [now apply SemGrp | exact K].
    + intros j s' c0. apply T.
Qed.

(** ** Hyphens are all that the syllabifier adds or removes *)

Lemma strip_app (a b : str) : strip (a ++ b) = strip a ++ strip b.
Proof. apply filter_app. Qed.

Lemma Sem_groups_free r w c c' :
  Sem r w c c' -> groups_free r = true -> c' = c.
Proof.
  induction 1; cbn [groups_free]; intro G; try reflexivity;
    try (apply andb_true_iff in G as [G1 G2]); try discriminate; auto.
  rewrite IHSem2, IHSem1; auto.
Qed.

Lemma Sem_group n r w c c' :
  groups_free r = true -> Sem (Grp n r) w c c' -> c' = (n, w) :: c.
Proof.
  intros G H. inversion H; subst.
  match goal with
  | S : Sem r _ _ _ |- _ => apply Sem_groups_free in S; [now subst | exact G]
  end.
Qed.

Lemma Sem_cat r1 r2 w c c' :
  Sem (Cat r1 r2) w c c' ->
  exists w1 w2 c1, w = w1 ++ w2 /\ Sem r1 w1 c c1 /\ Sem r2 w2 c1 c'.
Proof. intro H. inversion H; subst. eauto 6. Qed.

Lemma Sem_hyphen w c c' : Sem hyphen w c c' -> w = [HYPHEN] /\ c' = c.
Proof.
  intro H. inversion H; subst. split; [|reflexivity].
  f_equal. now apply N.eqb_eq.
Qed.

Lemma Sem_bol w c c' : Sem Bol w c c' -> w = [] /\ c' = c.
Proof. intro H. inversion H; subst. now split. Qed.

(** The optional first group of the post-syllabification patterns:
    [(?:(...)|^)]. *)
Lemma Sem_group_or_bol r w c c' :
  groups_free r = true -> Sem (Alt (Grp 1 r) Bol) w c c' ->
  c' = (1, w) :: c \/ (w = [] /\ c' = c).
Proof.
  intros G H. inversion H; subst.
  - left. eapply Sem_group; eauto.
  - right. now apply Sem_bol.
Qed.

Lemma HIATUS_FIRST_VOWEL_RE_faithful :
  hyphen_faithful HIATUS_FIRST_VOWEL_RE template_hyphen.
Proof.
  intros w c H. unfold HIATUS_FIRST_VOWEL_RE in H. cbn [cat] in H.
  apply Sem_cat in H as (w1 & w' & c1 & -> & H1 & H).
  apply Sem_cat in H as (w2 & w3 & c2 & -> & H2 & H3).
  apply Sem_group in H2; [|reflexivity]. apply Sem_group in H3; [|reflexivity].
  subst c c2. unfold template_hyphen.
  apply Sem_group_or_bol in H1 as [->|[-> ->]]; [| |reflexivity];
    cbn [group Nat.eqb]; rewrite !strip_app; reflexivity.
Qed.

Lemma CONSONANT_CLUSTER_RE_faithful :
  hyphen_faithful CONSONANT_CLUSTER_RE template_plain.
Proof.
  intros w c H. unfold CONSONANT_CLUSTER_RE in H. cbn [cat] in H.
  apply Sem_cat in H as (w1 & wa & c1 & -> & H1 & H).
  apply Sem_cat in H as (w2 & wb & c2 & -> & H2 & H).
  apply Sem_cat in H as (h & w3 & c3 & -> & Hh & H3).
  apply Sem_hyphen in Hh as [-> ->].
  apply Sem_group in H2; [|reflexivity]. apply Sem_group in H3; [|reflexivity].
  subst c c2. unfold template_plain.
  apply Sem_group_or_bol in H1 as [->|[-> ->]]; [| |reflexivity];
    cbn [group Nat.eqb]; rewrite !strip_app; reflexivity.
Qed.

Lemma diphthong_faithful (second third : re) :
  groups_free second = true -> groups_free third = true ->
  hyphen_faithful (cat [Grp 1 onset; Grp 2 second; hyphen; Grp 3 third])
                  template_plain.
Proof.
  intros G2 G3 w c H. cbn [cat] in H.
  apply Sem_cat in H as (w1 & wa & c1 & -> & H1 & H).
  apply Sem_cat in H as (w2 & wb & c2 & -> & H2 & H).
  apply Sem_cat in H as (h & w3 & c3 & -> & Hh & H3).
  apply Sem_hyphen in Hh as [-> ->].
  apply Sem_group in H1; [|reflexivity].
  apply Sem_group in H2; [|exact G2]. apply Sem_group in H3; [|exact G3].
  subst c c2 c1. unfold template_plain. cbn [group Nat.eqb].
  rewrite !strip_app. reflexivity.
Qed.

Lemma search_from_sound r (s : str) : forall i m,
  search_from r i s = Some m ->
  exists pre w post,
    s = pre ++ w ++ post /\ m_start m = i + length pre
    /\ m_end m = m_start m + length w /\ Sem r w [] (m_caps m).
Proof.
  assert (Here : forall i s j c,
             run r i s [] accept = Some (j, c) ->
             exists pre w post,
               s = pre ++ w ++ post /\ i = i + length pre
               /\ j = i + length w /\ Sem r w [] c).
  { intros i s0 j c H. apply run_sound in H as (w & s' & c' & -> & S & K).
    injection K as <- <-. exists [], w, s'. cbn. rewrite Nat.add_0_r. auto. }
  induction s as [|x s IH]; intros i m H; cbn [search_from] in H.
  - destruct (run r i [] [] accept) as [[j c]|] eqn:E; [|discriminate].
    injection H as <-. cbn. now apply Here.
  - destruct (run r i (x :: s) [] accept) as [[j c]|] eqn:E.
    + injection H as <-. cbn. now apply Here.
    + apply IH in H as (pre & w & post & -> & Hs & He & S).
      exists (x :: pre), w, post. cbn [length app].
      rewrite Nat.add_succ_r. auto.
Qed.

Lemma sub_from_strip r template :
  hyphen_faithful r template ->
  forall fuel i s, strip (sub_from fuel r template i s) = strip s.
Proof.
  intros F. induction fuel as [|fuel IH]; intros i s; [reflexivity|].
  cbn [sub_from]. destruct (search_from r i s) as [m|] eqn:E; [|reflexivity].
  destruct (Nat.eqb (m_end m) (m_start m)); [reflexivity|].
  apply search_from_sound in E as (pre & w & post & -> & Hs & He & S).
  rewrite Hs in *. rewrite He.
  replace (i + length pre - i) with (length pre + 0) by lia.
  rewrite firstn_app_2. cbn [firstn]. rewrite app_nil_r.
  replace (i + length pre + length w - i) with (length (pre ++ w))
    by (rewrite length_app; lia).
  rewrite (app_assoc pre w post), skipn_app, skipn_all, Nat.sub_diag.
  cbn [skipn app].
  rewrite !strip_app, IH, (F _ _ S). now rewrite app_assoc.
Qed.

Lemma apply_post_rule_strip r template s :
  hyphen_faithful r template ->
  strip (apply_post_rule r template s) = strip s.
Proof.
  intro F. unfold apply_post_rule, re_sub.
  destruct (re_search r s); [|reflexivity].
  now rewrite !sub_from_strip.
Qed.

Lemma apply_exception_rules_post_strip s :
  strip (apply_exception_rules_post s) = strip s.
Proof.
  unfold apply_exception_rules_post.
  rewrite !apply_post_rule_strip; try reflexivity.
  - apply HIATUS_FIRST_VOWEL_RE_faithful.
  - apply CONSONANT_CLUSTER_RE_faithful.
  - now apply diphthong_faithful.
  - now apply diphthong_faithful.
Qed.

Lemma cluster_scan_strip (word : str) :
  strip (cluster_scan word) = strip word.
Proof.
  induction word as [|c rest IH]; [reflexivity|].
  cbn [cluster_scan].
  set (mark := match re_search letter_clusters_re (c :: rest) with
               | Some m => _
               | None => _
               end).
  assert (M : strip mark = []).
  { subst mark.
    destruct (re_search letter_clusters_re (c :: rest)) as [m|];
      [|reflexivity].
    destruct (lastindex (m_caps m)) as [n|]; [|reflexivity].
    do 12 (destruct n as [|n]; try reflexivity). }
  rewrite !strip_app, M, IH. unfold strip. cbn [filter].
  destruct (negb (char_eqb c HYPHEN)); reflexivity.
Qed.

Lemma accept_succeeds : succeeds accept.
Proof. intros j s c. discriminate. Qed.

Lemma two_groups_tiled (a b : re) :
  groups_free a = true -> groups_free b = true ->
  tiled (Cat (Grp 1 a) (Grp 2 b)).
Proof.
  intros Ga Gb w c H.
  apply Sem_cat in H as (w1 & w2 & c1 & -> & H1 & H2).
  apply Sem_group in H1; [|exact Ga]. apply Sem_group in H2; [|exact Gb].
  subst. reflexivity.
Qed.

Lemma anchored_tiled (r : re) : tiled r -> tiled (Cat Bol r).
Proof.
  intros T w c H. apply Sem_cat in H as (w1 & w2 & c1 & -> & H1 & H2).
  apply Sem_bol in H1 as [-> ->]. now apply T.
Qed.

Lemma no_newline_hyphen (a b : str) :
  no_newline (a ++ b) -> no_newline (a ++ [HYPHEN] ++ b).
Proof.
  intro N. apply no_newline_app in N as [Na Nb].
  apply no_newline_app. split; [exact Na|].
  apply no_newline_app. split; [|exact Nb]. now constructor.
Qed.

(** A pre-syllabification rule inserts one hyphen into a word that has
    no line break, or leaves the word alone. *)
Lemma apply_rule_strip (r : re) (word : str) :
  ends_in_dot_star r -> tiled r -> no_newline word ->
  strip (apply_rule r word) = strip word /\ no_newline (apply_rule r word).
Proof.
  intros E T N. unfold apply_rule, re_match, re_search.
  destruct (run r 0 word [] accept) as [[j c]|] eqn:R; [|now split].
  assert (S : search_from r 0 word = Some (mkMatch 0 j c)).
  { destruct word; cbn [search_from]; now rewrite R. }
  rewrite S. cbn [m_caps join].
  apply (run_to_the_end E N accept_succeeds) in R as (c' & Sm & K).
  injection K as _ Ec. subst c'. apply T in Sm.
  split.
  - transitivity (strip (group c 1 ++ group c 2)); [|now rewrite Sm].
    rewrite !strip_app. reflexivity.
  - apply no_newline_hyphen. now rewrite Sm.
Qed.

Ltac rule_shape :=
  first [ apply anchored_tiled; now apply two_groups_tiled
        | now apply two_groups_tiled
        | repeat constructor ].

Lemma apply_exception_rules_strip (word : str) :
  no_newline word -> strip (apply_exception_rules word) = strip word.
Proof.
  intro N0. unfold apply_exception_rules.
  pose proof (@apply_rule_strip W_VOWEL_GROUP _
                ltac:(rule_shape) ltac:(rule_shape) N0) as [E1 N1].
  pose proof (@apply_rule_strip CONSONANT_GROUP _
                ltac:(rule_shape) ltac:(rule_shape) N1) as [E2 N2].
  pose proof (@apply_rule_strip CONSONANT_GROUP_EXCEPTION_LL _
                ltac:(rule_shape) ltac:(rule_shape) N2) as [E3 N3].
  pose proof (@apply_rule_strip CONSONANT_GROUP_EXCEPTION_DL _
                ltac:(rule_shape) ltac:(rule_shape) N3) as [E4 N4].
  pose proof (@apply_rule_strip PREFIX_SIN_WITH_CONSONANT_RE _
                ltac:(rule_shape) ltac:(rule_shape) N4) as [E5 N5].
  pose proof (@apply_rule_strip PREFIX_DES_WITH_CONSONANT_RE _
                ltac:(rule_shape) ltac:(rule_shape) N5) as [E6 N6].
  now rewrite E6, E5, E4, E3, E2, E1.
Qed.

Lemma split_aux_strip (s : str) : forall cur,
  concat (filter nonempty (split_aux HYPHEN cur s))
  = rev cur ++ strip s.
Proof.
  induction s as [|c s IH]; intro cur; cbn [split_aux].
  - cbn [filter]. destruct (rev cur); reflexivity.
  - unfold strip. cbn [filter]. fold (strip s).
    destruct (char_eqb c HYPHEN); cbn [negb].
    + cbn [filter].
      destruct (nonempty (rev cur)) eqn:Ne; cbn [concat]; rewrite IH;
        [reflexivity|].
      destruct (rev cur); [reflexivity | discriminate].
    + rewrite IH. cbn [rev]. now rewrite <- app_assoc.
Qed.

(** The syllables that the splitting leaves make up the string without
    its hyphens. *)
Lemma split_strip (s : str) :
  concat (filter nonempty (split HYPHEN s)) = strip s.
Proof. apply split_aux_strip. Qed.

Lemma strip_no_hyphen (s : str) :
  Forall (fun c => char_eqb c HYPHEN = false) s -> strip s = s.
Proof.
  induction 1 as [|c s H _ IH]; [reflexivity|].
  unfold strip. cbn [filter]. rewrite H. cbn [negb]. fold (strip s).
  now rewrite IH.
Qed.

Section RoundTrip.

Variable V : Type.
Variable SYLLABIFICATOR_FOREIGN_WORDS_DICT : str -> option str.
Variable ALTERNATIVE_SYLLABIFICATION : str -> option (V * list (variant V)).

(** The syllables of a word that is split by the rules, not by the
    tables. *)
Lemma syllabify_by_rules (word : str) (alternative_syllabification : bool) :
  SYLLABIFICATOR_FOREIGN_WORDS_DICT word = None ->
  (alternative_syllabification = true ->
   ALTERNATIVE_SYLLABIFICATION (lower word) = None) ->
  no_newline word ->
  exists syllables alternatives,
    syllabify SYLLABIFICATOR_FOREIGN_WORDS_DICT ALTERNATIVE_SYLLABIFICATION
              word alternative_syllabification
    = Ret (syllables, alternatives)
    /\ concat syllables = strip word.
Proof.
  intros F A N. unfold syllabify. rewrite F.
  assert (E : (if alternative_syllabification
               then ALTERNATIVE_SYLLABIFICATION (lower word)
               else None) = None).
  { destruct alternative_syllabification; auto. }
  rewrite E. do 2 eexists. split; [reflexivity|].
  now rewrite split_strip, apply_exception_rules_post_strip,
    cluster_scan_strip, apply_exception_rules_strip.
Qed.

(** C6.  A word that is made of letters, so that it holds no hyphen and
    no line break, that is not in the table of foreign words and for
    which no alternative syllabification is registered, is the
    concatenation of the syllables that [syllabify] returns for it, in
    order and without separators.  More generally the concatenation is
    the word without its hyphens, whenever the word holds no line
    break. *)
Theorem syllabify_round_trip
        (word : str) (alternative_syllabification : bool) :
  SYLLABIFICATOR_FOREIGN_WORDS_DICT word = None ->
  ALTERNATIVE_SYLLABIFICATION (lower word) = None ->
  no_newline word ->
  exists syllables alternatives,
    syllabify SYLLABIFICATOR_FOREIGN_WORDS_DICT ALTERNATIVE_SYLLABIFICATION
              word alternative_syllabification
    = Ret (syllables, alternatives)
    /\ concat syllables = strip word
    /\ (Forall (fun c => char_eqb c HYPHEN = false) word ->
        concat syllables = word).
Proof.
  intros F A N.
  destruct (@syllabify_by_rules word alternative_syllabification F
              (fun _ => A) N) as (syllables & alternatives & E & C).
  exists syllables, alternatives. split; [exact E|]. split; [exact C|].
  intro H. now rewrite C, strip_no_hyphen.
Qed.

End RoundTrip.

Lemma syllabify_round_trip_witness :
  exists syllables alternatives,
    syllabify no_foreign_words no_alternatives (u "cneorácea") true
    = Ret (syllables, alternatives)
    /\ concat syllables = u "cneorácea".
Proof.
  destruct (@syllabify_round_trip unit no_foreign_words no_alternatives
              (u "cneorácea") true eq_refl eq_refl)
    as (syllables & alternatives & E & _ & C).
  - repeat constructor.
  - exists syllables, alternatives. split; [exact E|].
    apply C. repeat constructor.
Defined.

(** ** Stress of a word *)

Lemma count_bar_app (a b : str) :
  count_bar (a ++ b) = count_bar a + count_bar b.
Proof. unfold count_bar. now rewrite filter_app, length_app. Qed.

Lemma count_bar_free (s : str) : bar_free s -> count_bar s = 0.
Proof.
  unfold bar_free, mem, count_bar.
  induction s as [|c s IH]; [reflexivity|]. cbn [existsb filter].
  intro H. apply orb_false_iff in H as [Hc Hs].
  unfold char_eqb in *. rewrite N.eqb_sym, Hc. auto.
Qed.

Lemma count_bar_join (l : list str) :
  Forall bar_free l -> count_bar (join [BAR] l) = length l - 1.
Proof.
  induction 1 as [|s l Hs Hl IH]; [reflexivity|].
  destruct l as [|s' l].
  - cbn [join length]. now apply count_bar_free.
  - change (join [BAR] (s :: s' :: l))
      with (s ++ [BAR] ++ join [BAR] (s' :: l)).
    rewrite !count_bar_app, IH, (count_bar_free Hs). cbn [length].
    change (count_bar [BAR]) with 1. lia.
Qed.

(** The syllable of the written accent is one of the syllables. *)
Lemma get_orthographic_accent_bound (l : list str) (tilde : nat) :
  Forall bar_free l -> get_orthographic_accent l = Some tilde ->
  tilde < length l.
Proof.
  intros B H. unfold get_orthographic_accent, re_search in H.
  destruct (search_from accents_re 0 (join [BAR] l)) as [m|] eqn:E;
    [|discriminate].
  injection H as <-.
  apply search_from_sound in E as (pre & w & post & J & Hs & He & S).
  rewrite Hs, J. cbn [Nat.add]. rewrite firstn_app, Nat.sub_diag.
  rewrite firstn_all. cbn [firstn]. rewrite app_nil_r.
  pose proof (count_bar_join B) as C. rewrite J, !count_bar_app in C.
  inversion S; subst. cbn [length] in *.
  destruct l as [|s l]; [now destruct pre|]. cbn [length] in *. lia.
Qed.

Lemma is_paroxytone_returns (l : list str) :
  l <> [] -> exists b, is_paroxytone l = Ret b.
Proof.
  intro N. unfold is_paroxytone.
  destruct (py_not _); [|eauto].
  destruct (rev l) eqn:R; [|eauto].
  apply (f_equal (@rev str)) in R. rewrite rev_involutive in R.
  now destruct N.
Qed.

Lemma set_has_liaison_keeps lt v (s : Syllable) :
  text (set_has_liaison lt v s) = text s
  /\ is_stressed (set_has_liaison lt v s) = is_stressed s.
Proof. destruct lt; now split. Qed.

(** The dictionaries of the syllables of a word: their texts and their
    stress marks. *)
Lemma stress_syllables_spec len p (l : list str) : forall idx,
  map text (stress_syllables len p idx l) = l
  /\ forall i s,
       nth_error (stress_syllables len p idx l) i = Some s ->
       is_stressed s
       = (Z.of_nat len - Z.of_nat (idx + i) =? - p)%Z.
Proof.
  induction l as [|x l IH]; intro idx.
  - split; [reflexivity|]. intros [|i] s H; discriminate H.
  - cbn [stress_syllables]. destruct (IH (S idx)) as [T F].
    set (out := match l with
                | second :: _ => _
                | [] => _
                end).
    assert (O : text out = x
                /\ is_stressed out
                   = (Z.of_nat len - Z.of_nat idx =? - p)%Z).
    { subst out. destruct l as [|y l]; [now split|].
      destruct (sinaeresis_between x y); [|now split].
      apply set_has_liaison_keeps. }
    destruct O as [Ot Os]. split.
    + cbn [map]. now rewrite Ot, T.
    + intros [|i] s H.
      * injection H as <-. now rewrite Os, Nat.add_0_r.
      * cbn [nth_error] in H. apply F in H. rewrite H.
        now rewrite Nat.add_succ_r.
Qed.

Lemma stress_syllables_count len p (l : list str) : forall idx,
  idx + length l = len ->
  stressed_count (stress_syllables len p idx l)
  = if ((1 <=? - p) && (- p <=? Z.of_nat (length l)))%Z then 1 else 0.
Proof.
  induction l as [|x l IH]; intros idx N.
  - cbn. destruct (1 <=? - p)%Z eqn:A; [|reflexivity].
    destruct (- p <=? 0)%Z eqn:B; [|reflexivity]. cbn. lia.
  - destruct (stress_syllables_spec len p (x :: l) idx) as [_ F].
    specialize (F 0). cbn [stress_syllables] in *.
    set (out := match l with
                | second :: _ => _
                | [] => _
                end) in *.
    specialize (F out eq_refl). cbn [length] in N.
    specialize (IH (S idx) ltac:(lia)).
    unfold stressed_count in *. cbn [filter]. rewrite F.
    rewrite Nat.add_0_r.
    destruct (Z.eqb_spec (Z.of_nat len - Z.of_nat idx) (- p));
      cbn [length]; rewrite IH;
      destruct (Z.leb_spec 1 (- p));
      destruct (Z.leb_spec (- p) (Z.of_nat (length l)));
      destruct (Z.leb_spec (- p) (Z.of_nat (S (length l))));
      cbn [andb]; lia.
Qed.

Lemma mem_false_iff (x : char) (s : str) :
  mem x s = false <-> Forall (fun c => char_eqb c x = false) s.
Proof.
  unfold mem. induction s as [|c s IH]; cbn [existsb].
  - split; [constructor | reflexivity].
  - unfold char_eqb in *. rewrite orb_false_iff, IH, (N.eqb_sym x c).
    split; [intros [? ?]; now constructor | now inversion 1].
Qed.

Lemma Forall_concat {A} (P : A -> Prop) (l : list (list A)) :
  Forall P (concat l) <-> Forall (Forall P) l.
Proof.
  induction l as [|x l IH]; cbn [concat].
  - split; constructor.
  - rewrite Forall_app, IH. split; [intros [? ?]; now constructor|].
    now inversion 1.
Qed.

Section StressFacts.

Variable V : Type.
Variable SYLLABIFICATOR_FOREIGN_WORDS_DICT : str -> option str.
Variable ALTERNATIVE_SYLLABIFICATION : str -> option (V * list (variant V)).

(** The syllables of a word of letters that the rules split are some,
    and hold no bar. *)
Lemma syllabify_of_letters (word : str) (alternative_syllabification : bool) :
  SYLLABIFICATOR_FOREIGN_WORDS_DICT word = None ->
  (alternative_syllabification = true ->
   ALTERNATIVE_SYLLABIFICATION (lower word) = None) ->
  word <> [] -> mark_free word ->
  exists syllable_list alternatives,
    syllabify SYLLABIFICATOR_FOREIGN_WORDS_DICT ALTERNATIVE_SYLLABIFICATION
              word alternative_syllabification
    = Ret (syllable_list, alternatives)
    /\ concat syllable_list = word
    /\ syllable_list <> []
    /\ Forall bar_free syllable_list.
Proof.
  intros F A Ne M.
  destruct (@syllabify_by_rules V SYLLABIFICATOR_FOREIGN_WORDS_DICT
              ALTERNATIVE_SYLLABIFICATION word alternative_syllabification
              F A) as (l & alts & E & C).
  { eapply Forall_impl; [|exact M]. now intros c (_ & H & _). }
  rewrite strip_no_hyphen in C
    by (eapply Forall_impl; [|exact M]; now intros c (H & _)).
  exists l, alts. split; [exact E|]. split; [exact C|]. split.
  - intros ->. now destruct Ne.
  - assert (B : Forall (fun c => char_eqb c BAR = false) (concat l)).
    { rewrite C. eapply Forall_impl; [|exact M]. now intros c (_ & _ & H). }
    apply Forall_concat in B. eapply Forall_impl; [|exact B].
    intros s Hs. now apply mem_false_iff.
Qed.

(** C9.  For a word whose syllables are some, and hold no [|] (as the
    syllables of a word made of letters do), [get_word_stress] returns a
    stress position that is 0 or a negative index of one of the
    syllables, from -1 for the last one on; a syllable is marked as
    stressed exactly when its distance from the end of the word, 1 for
    the last syllable, is the opposite of the stress position; so one
    syllable exactly is stressed when the stress position is not 0, and
    none when it is 0. *)
Theorem get_word_stress_position
        (word pos : str) (tag : dict) (alternative_syllabification : bool)
        (syllable_list : list str) (alternatives : alternatives V) :
  syllabify SYLLABIFICATOR_FOREIGN_WORDS_DICT ALTERNATIVE_SYLLABIFICATION
            word alternative_syllabification
  = Ret (syllable_list, alternatives) ->
  syllable_list <> [] ->
  Forall bar_free syllable_list ->
  exists out stress_position,
    get_word_stress SYLLABIFICATOR_FOREIGN_WORDS_DICT
                    ALTERNATIVE_SYLLABIFICATION
                    word pos tag alternative_syllabification
    = Ret (Word out stress_position)
    /\ map text out = syllable_list
    /\ (stress_position = 0
        \/ - Z.of_nat (length out) <= stress_position <= -1)%Z
    /\ (forall i s,
          nth_error out i = Some s ->
          (is_stressed s = true
           <-> (Z.of_nat (length out) - Z.of_nat i = - stress_position)%Z))
    /\ (stress_position <> 0%Z -> stressed_count out = 1)
    /\ (stress_position = 0%Z -> stressed_count out = 0).
Proof.
  intros E Ne B. unfold get_word_stress. rewrite E. cbn [bind].
  match goal with
  | |- context [bind ?m _] =>
    assert (P : exists p, m = Ret p
                          /\ (p = 0 \/ - Z.of_nat (length syllable_list)
                                       <= p <= -1)%Z)
  end.
  { destruct (Nat.eqb (length syllable_list) 1) eqn:L1.
    - apply Nat.eqb_eq in L1.
      destruct syllable_list as [|s [|]]; try discriminate.
      cbn [map index nth_error bind length].
      match goal with
      | |- context [if ?b then _ else _] => destruct b
      end; eexists; (split; [reflexivity|]); lia.
    - apply Nat.eqb_neq in L1.
      match goal with
      | |- context [if ?b then _ else _] => destruct b
      end; [|eexists; split; [reflexivity | now left]].
      destruct (get_orthographic_accent syllable_list) as [tilde|] eqn:T.
      + apply get_orthographic_accent_bound in T; [|exact B].
        eexists. split; [reflexivity|]. lia.
      + destruct (is_paroxytone_returns Ne) as [b ->]. cbn [bind].
        destruct syllable_list as [|s [|s' l]]; try easy.
        destruct b; eexists; (split; [reflexivity|]); cbn [length]; lia. }
  destruct P as (p & -> & R). cbn [bind].
  destruct (stress_syllables_spec (length syllable_list) p syllable_list 0)
    as [T F].
  pose proof (@stress_syllables_count (length syllable_list) p
                syllable_list 0 eq_refl) as C.
  assert (L : length (stress_syllables (length syllable_list) p 0
                                       syllable_list)
              = length syllable_list).
  { rewrite <- T at 3. now rewrite length_map. }
  do 2 eexists. split; [reflexivity|]. rewrite L.
  split; [exact T|]. split; [exact R|]. split; [|split].
  - intros i s H. rewrite (F _ _ H). cbn [Nat.add]. apply Z.eqb_eq.
  - intro Nz. rewrite C.
    destruct (Z.leb_spec 1 (- p));
      destruct (Z.leb_spec (- p) (Z.of_nat (length syllable_list)));
      cbn [andb]; lia.
  - intros ->. rewrite C. reflexivity.
Qed.

End StressFacts.

Lemma get_word_stress_position_witness :
  exists out stress_position,
    get_word_stress no_foreign_words no_alternatives
                    (u "cantábamos") (u "VERB") [] true
    = Ret (Word out stress_position)
    /\ stressed_count out = 1.
Proof.
  destruct (@syllabify_of_letters unit no_foreign_words no_alternatives
              (u "cantábamos") true eq_refl (fun _ => eq_refl))
    as (syllable_list & alternatives & E & _ & Ne & B).
  - discriminate.
  - repeat constructor.
  - destruct (@get_word_stress_position
                unit no_foreign_words no_alternatives
                (u "cantábamos") (u "VERB") [] true
                syllable_list alternatives E Ne B)
      as (out & p & G & _ & _ & _ & C & _).
    exists out, p. split; [exact G|]. apply C.
    intros ->. vm_compute in G. discriminate G.
Defined.

(** ** The search for a candidate of the expected length *)


Section Fit.

Variable V : Type.
Variable SYLLABIFICATOR_FOREIGN_WORDS_DICT : str -> option str.
Variable ALTERNATIVE_SYLLABIFICATION : str -> option (V * list (variant V)).
Variable STRUCTURES_LENGTH : str -> option (list Z).


End Fit.



(** ** A line without stress *)

Lemma find_true_none (l : list bool) :
  forallb negb l = true -> find_true l = None.
Proof.
  induction l as [|b l IH]; [reflexivity|]. cbn.
  destruct b; cbn; [discriminate|]. intro H. now rewrite IH.
Qed.

(** C2 fails on the code: [get_stresses] raises [ValueError] on every
    sequence of groups none of which is stressed, the empty one
    included, and so does [get_scansion] on the line made of the
    article "la". *)
Theorem get_stresses_raises_without_stress :
  (forall groups : list Syllable,
      forallb (fun g => negb (is_stressed g)) groups = true ->
      get_stresses groups = Raise ValueError)
  /\ get_scansion no_foreign_words no_alternatives no_rhymes no_structures
                  [Token.mk (u "la") true (u "DET")
                            (u "Definite=Def|Gender=Fem|PronType=Art")]
                  false PATTERN None
     = Raise ValueError.
Proof.
  split; [|vm_compute; reflexivity].
  intros groups H. unfold get_stresses, index_true.
  rewrite find_true_none; [reflexivity|].
  rewrite forallb_rev. clear -H.
  induction groups as [|g groups IH]; [reflexivity|].
  cbn in *. apply andb_true_iff in H as [-> H]. auto.
Qed.

(** ** A liaison vector that does not fit its sequence *)

Lemma last_app_nonempty {A} (l1 l2 : list A) (d : A) :
  l2 <> [] -> last (l1 ++ l2) d = last l2 d.
Proof.
  intro N. destruct (exists_last N) as (l & a & ->).
  now rewrite app_assoc, !last_last.
Qed.

Lemma on_last_final (g : Syllable -> Syllable) (l : list Syllable) :
  l <> [] -> on_last g l <> [] /\ final (on_last g l) = g (final l).
Proof.
  intro N. destruct (exists_last N) as (front & a & ->).
  unfold on_last, final. rewrite rev_app_distr. cbn [rev app].
  rewrite rev_involutive, !last_last. split; [|reflexivity].
  now destruct front.
Qed.

Lemma stress_syllables_final len p (l : list str) : forall idx,
  unflagged (final (stress_syllables len p idx l)).
Proof.
  induction l as [|x l IH]; intro idx; [now split|].
  cbn [stress_syllables]. destruct l as [|y l]; [now split|].
  specialize (IH (S idx)). cbn [stress_syllables] in IH.
  unfold final in *. cbn [last] in *. exact IH.
Qed.

Section FinalSyllable.

Variable V : Type.
Variable SYLLABIFICATOR_FOREIGN_WORDS_DICT : str -> option str.
Variable ALTERNATIVE_SYLLABIFICATION : str -> option (V * list (variant V)).

Lemma get_word_stress_final word pos tag alternative_syllabification w :
  get_word_stress SYLLABIFICATOR_FOREIGN_WORDS_DICT
                  ALTERNATIVE_SYLLABIFICATION
                  word pos tag alternative_syllabification = Ret w ->
  exists out p, w = Word out p /\ unflagged (final out).
Proof.
  unfold get_word_stress. intro H.
  apply bind_Ret in H as ([l alts] & _ & H).
  apply bind_Ret in H as (p & _ & H). injection H as <-.
  do 2 eexists. split; [reflexivity|]. apply stress_syllables_final.
Qed.

Lemma syllables_app (W1 W2 : list word_token) :
  snd (get_syllables_word_end (W1 ++ W2))
  = snd (get_syllables_word_end W1) ++ snd (get_syllables_word_end W2).
Proof. cbn [get_syllables_word_end snd]. apply flat_map_app. Qed.

(** A step of [get_words] leaves a line whose final syllable carries no
    flag. *)
Lemma get_words_step_final alternative_syllabification W token W' :
  unflagged (final (snd (get_syllables_word_end W))) ->
  get_words_step SYLLABIFICATOR_FOREIGN_WORDS_DICT
                 ALTERNATIVE_SYLLABIFICATION
                 alternative_syllabification W token = Ret W' ->
  unflagged (final (snd (get_syllables_word_end W'))).
Proof.
  intros P H. unfold get_words_step in H.
  destruct (Token.is_alpha token).
  - apply bind_Ret in H as ([pos tag] & _ & H).
    apply bind_Ret in H as (tags & _ & H).
    apply bind_Ret in H as (stressed & G & H).
    apply get_word_stress_final in G as (out & p & -> & U).
    apply bind_Ret in H as (first_syllable & _ & H).
    apply bind_Ret in H as (second_syllable & I & H).
    apply bind_Ret in H as (marked & _ & H). injection H as <-.
    assert (N : out <> []).
    { intros ->. discriminate I. }
    rewrite syllables_app. cbn [get_syllables_word_end snd flat_map].
    rewrite app_nil_r. unfold mark_word_end.
    destruct (on_last_final (set_is_word_end (Some true)) N) as [N' F].
    unfold final in *. rewrite last_app_nonempty by exact N'.
    rewrite F. exact U.
  - injection H as <-. rewrite syllables_app.
    cbn [get_syllables_word_end snd flat_map]. now rewrite app_nil_r.
Qed.

Lemma get_words_from_final alternative_syllabification
      (tokens : list Token.t) : forall W W',
  unflagged (final (snd (get_syllables_word_end W))) ->
  get_words_from SYLLABIFICATOR_FOREIGN_WORDS_DICT
                 ALTERNATIVE_SYLLABIFICATION
                 alternative_syllabification W tokens = Ret W' ->
  unflagged (final (snd (get_syllables_word_end W'))).
Proof.
  induction tokens as [|token tokens IH]; intros W W' P H;
    cbn [get_words_from] in H.
  - now injection H as <-.
  - apply bind_Ret in H as (W1 & S1 & H).
    eapply IH; [|exact H]. eapply get_words_step_final; eauto.
Qed.

Lemma place_length (positions : list Z) : forall combination,
  length (place positions combination) = length positions.
Proof.
  induction positions as [|p ps IH]; intro c; [reflexivity|].
  cbn [place]. destruct (truthy p); [destruct c|]; cbn [length];
    now rewrite IH.
Qed.

Lemma last_cons {A} (x : A) (l : list A) (d : A) :
  l <> [] -> last (x :: l) d = last l d.
Proof. now destruct l. Qed.

Lemma place_last (positions : list Z) : forall combination,
  last positions 0%Z = 0%Z -> last (place positions combination) 0%Z = 0%Z.
Proof.
  induction positions as [|p ps IH]; intros c H; [reflexivity|].
  destruct ps as [|q ps'] eqn:E.
  - cbn in H. subst p. reflexivity.
  - rewrite <- E in *.
    assert (N : ps <> []) by (rewrite E; discriminate).
    rewrite last_cons in H by exact N.
    assert (N' : forall c', place ps c' <> []).
    { intros c' Z. apply (f_equal (@length _)) in Z.
      rewrite place_length, E in Z. discriminate Z. }
    cbn [place]. destruct (truthy p); [destruct c|];
      rewrite last_cons by apply N'; now apply IH.
Qed.

Lemma flag_positions_last lt (syllables : list Syllable) :
  unflagged (final syllables) -> last (flag_positions lt syllables) 0%Z = 0%Z.
Proof.
  intros [Sy Si]. unfold flag_positions, final in *.
  destruct syllables as [|s0 rest] eqn:E; [reflexivity|].
  rewrite <- E in *.
  assert (N : syllables <> []) by (rewrite E; discriminate).
  destruct (exists_last N) as (front & s & ->).
  rewrite last_last in Sy, Si. rewrite map_app. cbn [map].
  rewrite last_last. destruct lt; cbn [has_liaison]; now rewrite ?Sy, ?Si.
Qed.

(** The part of C10 that holds.  In every line that [get_words] and
    [get_syllables_word_end] build, the final syllable carries neither
    liaison flag; hence the vector read from the flags and every vector
    that [generate_liaison_positions] yields have the length of the line
    and 0 at the last position. *)
Lemma final_syllable_unflagged
      (tokens : list Token.t) (alternative_syllabification : bool)
      (words : list word_token) :
  get_words SYLLABIFICATOR_FOREIGN_WORDS_DICT ALTERNATIVE_SYLLABIFICATION
            tokens alternative_syllabification = Ret words ->
  let syllables := snd (get_syllables_word_end words) in
  unflagged (final syllables)
  /\ forall lt,
       last (flag_positions lt syllables) 0%Z = 0%Z
       /\ Forall (fun positions =>
                    length positions = length syllables
                    /\ last positions 0%Z = 0%Z)
                 (generate_liaison_positions syllables lt).
Proof.
  intros H syllables.
  assert (U : unflagged (final syllables)).
  { eapply get_words_from_final; [|exact H]. now split. }
  split; [exact U|]. intro lt.
  pose proof (flag_positions_last lt U) as L. split; [exact L|].
  unfold generate_liaison_positions. apply Forall_forall.
  intros v Hv. apply in_map_iff in Hv as (c & <- & _).
  split; [now rewrite place_length, flag_positions_length|].
  now apply place_last.
Qed.

End FinalSyllable.

(** C10 fails on the code in the candidates that combine two kinds of
    liaison.  The three syllables of "lee a" are le, e and a, and the
    last one carries no flag; sinaeresis fuses the first two, which
    leaves two groups; the vector for synalepha is still generated for
    the three syllables, [0, 1, 0], and is eligible at the last of the
    two groups.  There [get_phonological_groups] fuses the last group
    with the successor left over from the step before, which is that
    group itself, and the candidate holds the group "aa". *)
Theorem candidate_fuses_past_the_end :
  exists words syllables groups candidate,
    get_words no_foreign_words no_alternatives lee_a true = Ret words
    /\ syllables = snd (get_syllables_word_end words)
    /\ map text syllables = [u "le"; u "e"; u "a"]
    /\ has_synalepha (last syllables (plain [] false)) = None
    /\ has_sinaeresis (last syllables (plain [] false)) = None
    /\ get_phonological_groups syllables sinaeresis (Some break_on_h)
                               (Some [1%Z; 0%Z; 0%Z]) = Ret groups
    /\ map text groups = [u "lee"; u "a"]
    /\ nth_error (generate_liaison_positions syllables synalepha) 0
       = Some [0%Z; 1%Z; 0%Z]
    /\ get_phonological_groups groups synalepha (Some break_on_h)
                               (Some [0%Z; 1%Z; 0%Z]) = Ret candidate
    /\ map text candidate = [u "lee"; u "aa"]
    /\ nth_error (generate_phonological_groups no_foreign_words
                                               no_alternatives lee_a) 8
       = Some (Ret candidate).
Proof.
  do 4 eexists.
  split; [vm_compute; reflexivity|].
  split; [reflexivity|].
  split; [vm_compute; reflexivity|].
  split; [vm_compute; reflexivity|].
  split; [vm_compute; reflexivity|].
  split; [vm_compute; reflexivity|].
  split; [vm_compute; reflexivity|].
  split; [vm_compute; reflexivity|].
  split; [vm_compute; reflexivity|].
  split; vm_compute; reflexivity.
Qed.

(** * Further properties of the code *)

(** ** Shape of a rhythm *)

Lemma find_true_split (l : list bool) (i : nat) :
  find_true l = Some i ->
  exists l1 l2, l = l1 ++ true :: l2 /\ forallb negb l1 = true.
Proof.
  revert i. induction l as [|b l IH]; intros i H; [discriminate|].
  destruct b.
  - exists [], l. now split.
  - cbn in H. destruct (find_true l) as [j|] eqn:E; [|discriminate].
    destruct (IH j eq_refl) as (l1 & l2 & -> & F).
    exists (false :: l1), l2. now split.
Qed.

Lemma find_true_some (l : list bool) :
  existsb (fun b => b) l = true -> exists i, find_true l = Some i.
Proof.
  induction l as [|b l IH]; [discriminate|]. destruct b; cbn; [eauto|].
  intro H. destruct (IH H) as [i ->]. cbn. eauto.
Qed.

Lemma existsb_rev {A} (f : A -> bool) (l : list A) :
  existsb f (rev l) = existsb f l.
Proof.
  induction l as [|a l IH]; [reflexivity|].
  cbn. rewrite existsb_app, IH. cbn. rewrite orb_false_r. apply orb_comm.
Qed.

Lemma last_all_false (l : list bool) (d : bool) :
  l <> [] -> forallb negb l = true -> last l d = false.
Proof.
  intros N F. destruct (exists_last N) as (front & b & ->).
  rewrite last_last. rewrite forallb_app in F.
  apply andb_true_iff in F as [_ F]. cbn in F. now destruct b.
Qed.

Lemma existsb_stressed (groups : list Syllable) :
  existsb (fun b => b) (map is_stressed groups)
  = existsb is_stressed groups.
Proof. induction groups as [|g l IH]; [reflexivity|]. cbn. now rewrite IH. Qed.

(** The stress marks split at the last stressed one. *)
Lemma stresses_split (groups : list Syllable) (i : nat) :
  find_true (rev (map is_stressed groups)) = Some i ->
  exists front after,
    map is_stressed groups = front ++ true :: after
    /\ forallb negb after = true.
Proof.
  intro H. apply find_true_split in H as (l1 & l2 & E & F).
  exists (rev l2), (rev l1). split.
  - rewrite <- (rev_involutive (map is_stressed groups)), E.
    rewrite rev_app_distr. cbn [rev]. now rewrite <- app_assoc.
  - now rewrite forallb_rev.
Qed.

(** X1.  [get_stresses] returns exactly when some group is stressed. What it
    returns then has two slots at least, ends in an unstressed slot, has a
    stressed slot, and is one slot longer or shorter than the groups at
    most. *)
Theorem get_stresses_shape (groups : list Syllable) :
  ((exists stresses, get_stresses groups = Ret stresses)
   <-> existsb is_stressed groups = true)
  /\ forall stresses,
       get_stresses groups = Ret stresses ->
       2 <= length stresses
       /\ last stresses true = false
       /\ existsb (fun b => b) stresses = true
       /\ length groups - 1 <= length stresses <= length groups + 1.
Proof.
  assert (Shape : forall front after,
             map is_stressed groups = front ++ true :: after ->
             forallb negb after = true ->
             exists stresses,
               get_stresses groups = Ret stresses
               /\ 2 <= length stresses
               /\ last stresses true = false
               /\ existsb (fun b => b) stresses = true
               /\ length groups - 1 <= length stresses
                  <= length groups + 1).
  { intros front after E F. rewrite (get_stresses_after E F). cbv zeta.
    assert (L : length groups = length front + S (length after)).
    { rewrite <- (length_map is_stressed), E, length_app. reflexivity. }
    rewrite E.
    destruct after as [|a [|a' after]].
    - eexists. split; [reflexivity|].
      rewrite !length_app, last_last, !existsb_app. cbn in *.
      rewrite orb_true_r. repeat split; lia.
    - eexists. split; [reflexivity|]. cbn in F. destruct a; [discriminate|].
      change (front ++ [true; false]) with (front ++ [true] ++ [false]).
      rewrite app_assoc, last_last, !length_app, !existsb_app. cbn in *.
      rewrite orb_true_r. repeat split; lia.
    - assert (Ne : a :: a' :: after <> []) by discriminate.
      destruct (exists_last Ne) as (mid & z & Em).
      assert (Lm : S (length mid) = S (S (length after))).
      { apply (f_equal (@length bool)) in Em. rewrite length_app in Em.
        cbn [length] in Em. lia. }
      rewrite Em in *. clear Em Ne.
      replace (front ++ true :: mid ++ [z])
        with ((front ++ true :: mid) ++ [z])
        by now rewrite <- app_assoc.
      rewrite removelast_last.
      eexists. split; [reflexivity|].
      rewrite forallb_app in F. apply andb_true_iff in F as [F _].
      assert (N : mid <> []) by (destruct mid; [cbn in Lm; lia|discriminate]).
      change (front ++ true :: mid) with (front ++ [true] ++ mid).
      rewrite app_assoc, last_app_nonempty by exact N.
      rewrite (last_all_false true N F), !length_app, !existsb_app.
      rewrite length_app in L.
      cbn [length existsb] in *. rewrite orb_true_r.
      repeat split; lia. }
  split; [split|].
  - intros [stresses H]. unfold get_stresses, index_true in H.
    destruct (find_true (rev (map is_stressed groups))) as [i|] eqn:E;
      [|discriminate].
    apply stresses_split in E as (front & after & E & _).
    rewrite <- existsb_stressed, E, existsb_app. cbn.
    now rewrite orb_true_r.
  - intro X. rewrite <- existsb_stressed, <- existsb_rev in X.
    apply find_true_some in X as [i Y].
    apply stresses_split in Y as (front & after & E & F).
    destruct (Shape front after E F) as (stresses & H & _). eauto.
  - intros stresses H. pose proof H as H0.
    unfold get_stresses, index_true in H0.
    destruct (find_true (rev (map is_stressed groups))) as [i|] eqn:E;
      [|discriminate].
    apply stresses_split in E as (front & after & E & F).
    destruct (Shape front after E F) as (stresses' & H' & R).
    rewrite H in H'. injection H' as <-. exact R.
Qed.

Lemma get_stresses_shape_witness :
  exists stresses,
    get_stresses [plain (u "sol") true] = Ret stresses
    /\ last stresses true = false.
Proof.
  exists [true; false]. split; [reflexivity|].
  destruct (get_stresses_shape [plain (u "sol") true]) as [_ H].
  destruct (H [true; false] eq_refl) as (_ & L & _). exact L.
Defined.

(** X2.  Under every format but the indexed one, [get_rhythmical_pattern]
    gives a stress string of one character for each slot, so that the length
    it reports is the length of the string. A format that is neither the
    indexed nor the binary one gives the string of the pattern format. *)
Theorem rhythm_one_character_per_slot
        (groups : list Syllable) (rhythm_format : str) (r : rhythm) :
  get_rhythmical_pattern groups rhythm_format = Ret r ->
  str_eqb rhythm_format INDEXED = false ->
  type r = rhythm_format
  /\ Z.of_nat (length (stress r)) = length_ r
  /\ (str_eqb rhythm_format BINARY = false ->
      get_rhythmical_pattern groups PATTERN
      = Ret (mkRhythm (stress r) PATTERN (length_ r))).
Proof.
  intros H I. unfold get_rhythmical_pattern in *.
  destruct (get_stresses groups) as [stresses| |]; try discriminate H.
  cbn [bind] in *. injection H as <-. cbn [type stress length_].
  unfold format_stress. rewrite I. split; [reflexivity|]. split.
  - destruct (str_eqb rhythm_format BINARY);
      now rewrite join_singletons, length_map.
  - intros ->. reflexivity.
Qed.

Lemma rhythm_one_character_per_slot_witness :
  get_rhythmical_pattern [plain (u "sol") true] PATTERN
  = Ret (mkRhythm (u "+-") PATTERN 2).
Proof.
  destruct (@rhythm_one_character_per_slot
              [plain (u "sol") true] (u "marks")
              (mkRhythm (u "+-") (u "marks") 2) eq_refl eq_refl)
    as (_ & _ & P).
  exact (P eq_refl).
Defined.

(** ** The liaison vectors of the search *)

Lemma sum_flag_positions lt (syllables : list Syllable) :
  sum (flag_positions lt syllables)
  = Z.of_nat (eligible_count lt syllables).
Proof.
  unfold eligible_count, flag_positions, sum.
  induction syllables as [|s l IH]; [reflexivity|].
  cbn [map fold_right filter]. rewrite IH.
  destruct (has_liaison lt s) as [[|]|]; cbn [length]; lia.
Qed.

Lemma product_1_0_length (n : nat) : length (product_1_0 n) = 2 ^ n.
Proof.
  induction n as [|n IH]; [reflexivity|].
  cbn [product_1_0]. rewrite length_app, !length_map, IH. cbn. lia.
Qed.

Lemma product_1_0_nonempty (n : nat) : product_1_0 n <> [].
Proof.
  intro E. pose proof (product_1_0_length n) as L. rewrite E in L.
  cbn in L. pose proof (Nat.pow_nonzero 2 n). lia.
Qed.

Lemma product_1_0_first (n : nat) :
  hd [] (product_1_0 n) = repeat 1%Z n.
Proof.
  induction n as [|n IH]; [reflexivity|]. cbn [product_1_0 repeat].
  pose proof (@product_1_0_nonempty n) as N.
  destruct (product_1_0 n) as [|c l]; [now destruct N|].
  cbn in *. now rewrite IH.
Qed.

Lemma last_map {A B} (f : A -> B) (l : list A) (d : A) (d' : B) :
  l <> [] -> last (map f l) d' = f (last l d).
Proof.
  intro N. destruct (exists_last N) as (front & a & ->).
  rewrite map_app. cbn [map]. now rewrite !last_last.
Qed.

Lemma product_1_0_last (n : nat) :
  last (product_1_0 n) [] = repeat 0%Z n.
Proof.
  induction n as [|n IH]; [reflexivity|]. cbn [product_1_0 repeat].
  pose proof (@product_1_0_nonempty n) as N.
  rewrite last_app_nonempty
    by (destruct (product_1_0 n); [now destruct N | discriminate]).
  now rewrite (last_map (cons 0%Z) [] [] N), IH.
Qed.

Lemma product_1_0_entries (n : nat) :
  Forall (fun c => length c = n /\ Forall (fun z => z = 0%Z \/ z = 1%Z) c)
         (product_1_0 n).
Proof.
  induction n as [|n IH]; [repeat constructor|].
  cbn [product_1_0]. apply Forall_app. split; apply Forall_map;
    (eapply Forall_impl; [|exact IH]); intros c [L F]; cbn [length];
    (split; [now rewrite L | constructor; [lia | exact F]]).
Qed.

(** Filling the flagged positions with ones gives back the flags; with
    zeros, zeros. *)
Lemma place_ones lt (syllables : list Syllable) : forall m,
  eligible_count lt syllables <= m ->
  place (flag_positions lt syllables) (repeat 1%Z m)
  = flag_positions lt syllables.
Proof.
  unfold eligible_count, flag_positions.
  induction syllables as [|s l IH]; intros m H; [reflexivity|].
  cbn [map place filter] in *.
  destruct (has_liaison lt s) as [[|]|]; cbn [truthy Z.eqb negb length] in *.
  - destruct m as [|m]; [lia|]. cbn [repeat]. f_equal. apply IH. lia.
  - f_equal. now apply IH.
  - f_equal. now apply IH.
Qed.

Lemma place_zeros (positions : list Z) : forall m,
  place positions (repeat 0%Z m) = repeat 0%Z (length positions).
Proof.
  induction positions as [|p ps IH]; intro m; [reflexivity|].
  cbn [place length repeat]. destruct (truthy p).
  - destruct m as [|m]; cbn [repeat]; f_equal; [apply (IH 0) | apply IH].
  - f_equal. apply IH.
Qed.

Lemma place_entries (positions : list Z) : forall combination i,
  Forall (fun z => z = 0%Z \/ z = 1%Z) combination ->
  (nth i (place positions combination) 0%Z = 0%Z
   \/ nth i (place positions combination) 0%Z = 1%Z)
  /\ (nth i positions 0%Z = 0%Z ->
      nth i (place positions combination) 0%Z = 0%Z).
Proof.
  induction positions as [|p ps IH]; intros c i F.
  - destruct i; cbn; auto.
  - cbn [place]. destruct (truthy p) eqn:T.
    + destruct c as [|x c].
      * destruct i as [|i]; cbn [nth].
        -- split; [now left|reflexivity].
        -- apply IH. constructor.
      * inversion F as [|? ? Hx Hc]; subst.
        destruct i as [|i]; cbn [nth].
        -- split; [exact Hx|]. intros ->. discriminate T.
        -- now apply IH.
    + destruct i as [|i]; cbn [nth].
      * split; [now left|reflexivity].
      * now apply IH.
Qed.

(** X3.  [generate_liaison_positions] yields one vector for each subset of
    the flagged syllables, 2 to the power of their number in all. The first
    one is the vector of the flags, which applies every liaison, and the
    last one is the vector of zeros, which applies none; every vector has
    the length of the line, holds zeros and ones only, and is zero wherever
    the syllable is not flagged. *)
Theorem generate_liaison_positions_spec
        (syllables : list Syllable) (lt : liaison) :
  let vectors := generate_liaison_positions syllables lt in
  length vectors = 2 ^ eligible_count lt syllables
  /\ hd [] vectors = flag_positions lt syllables
  /\ last vectors [] = repeat 0%Z (length syllables)
  /\ Forall (fun v =>
               length v = length syllables
               /\ forall i,
                    (nth i v 0%Z = 0%Z \/ nth i v 0%Z = 1%Z)
                    /\ (nth i (flag_positions lt syllables) 0%Z = 0%Z ->
                        nth i v 0%Z = 0%Z))
            vectors.
Proof.
  cbv zeta. unfold generate_liaison_positions.
  rewrite sum_flag_positions, Nat2Z.id.
  set (k := eligible_count lt syllables).
  pose proof (product_1_0_length k) as L.
  pose proof (@product_1_0_nonempty k) as N.
  split; [now rewrite length_map|]. split; [|split].
  - pose proof (product_1_0_first k) as F.
    destruct (product_1_0 k) as [|c l]; [now destruct N|].
    cbn in *. subst c. now apply place_ones.
  - pose proof (product_1_0_last k) as F.
    destruct (exists_last N) as (front & c & E). rewrite E in *.
    rewrite last_last in F. subst c.
    rewrite map_app. cbn [map]. rewrite last_last, place_zeros.
    now rewrite flag_positions_length.
  - apply Forall_map. eapply Forall_impl; [|apply product_1_0_entries].
    intros c [_ F]. split.
    + now rewrite place_length, flag_positions_length.
    + intro i. now apply place_entries.
Qed.

(** ** What the group reducer keeps *)

Lemma firstn_snoc {A} (l : list A) : forall i a,
  nth_error l i = Some a -> firstn (S i) l = firstn i l ++ [a].
Proof.
  induction l as [|x l IH]; intros [|i] a H; try discriminate H.
  - now injection H as <-.
  - cbn [nth_error] in H. cbn [firstn app]. f_equal. now apply IH.
Qed.

Lemma skipn_cons {A} (l : list A) : forall i a r,
  skipn i l = a :: r -> nth_error l i = Some a /\ skipn (S i) l = r.
Proof.
  induction l as [|x l IH]; intros [|i] a r H; try discriminate H.
  - injection H as <- <-. now split.
  - cbn [skipn] in H. now apply IH.
Qed.

(** The three ways of a step of the scan over an aligned vector: the
    successor that a fusion consumes is the next syllable of the
    sequence. *)
Lemma scan_step_aligned lt bf ss lp idx s st st' :
  length lp = length ss ->
  scan_step lt bf ss lp idx s st = Ret st' ->
  (skip_next st = true /\ skip_next st' = false
   /\ reduced_syllables st' = reduced_syllables st)
  \/ (skip_next st = false /\ skip_next st' = false
      /\ reduced_syllables st' = reduced_syllables st ++ [s])
  \/ (skip_next st = false /\ skip_next st' = true
      /\ exists next,
           nth_error ss (idx + 1) = Some next
           /\ reduced_syllables st'
              = reduced_syllables st ++ [fuse lt s next]).
Proof.
  intros A H. unfold scan_step in H. destruct (skip_next st) eqn:Sk.
  - injection H as <-. left. now repeat split.
  - right.
    destruct (Z.ltb_spec (Z.of_nat idx) (Z.of_nat (length ss) - 1))
      as [Lt|Ge].
    + apply bind_Ret in H as ([next breaks] & N & H).
      apply bind_Ret in N as (nxt & Hn & N).
      apply bind_Ret in N as (b & _ & N). injection N as <- <-.
      apply index_Ret in Hn.
      apply bind_Ret in H as (position & _ & H).
      match type of H with
      | context [if ?c then _ else _] => destruct c
      end.
      * apply bind_Ret in H as (following & _ & H). injection H as <-.
        right. repeat split. eauto.
      * injection H as <-. left. now repeat split.
    + cbn [bind] in H. apply bind_Ret in H as (position & _ & H).
      destruct (truthy position && negb false).
      * destruct (next_syllable st); [|discriminate].
        apply bind_Ret in H as (following & F & H).
        apply index_Ret in F.
        assert (idx + 1 < length lp) by (apply nth_error_Some; congruence).
        lia.
      * injection H as <-. left. now repeat split.
Qed.

Section Kept.

Variable M : Type.
Variable op : M -> M -> M.
Variable e : M.
Variable f : Syllable -> M.

Hypothesis op_assoc : forall x y z, op x (op y z) = op (op x y) z.
Hypothesis op_e_r : forall x, op x e = x.
Hypothesis op_e_l : forall x, op e x = x.
Hypothesis f_fuse : forall lt a b, f (fuse lt a b) = op (f a) (f b).
Hypothesis f_flag : forall lt v s, f (set_has_liaison lt v s) = f s.

Lemma total_app (l1 l2 : list Syllable) :
  total op e f (l1 ++ l2) = op (total op e f l1) (total op e f l2).
Proof.
  unfold total. induction l1 as [|s l IH]; cbn [app fold_right].
  - now rewrite op_e_l.
  - now rewrite IH, op_assoc.
Qed.

Lemma total_snoc (l : list Syllable) (s : Syllable) :
  total op e f (l ++ [s]) = op (total op e f l) (f s).
Proof. rewrite total_app. unfold total at 2. cbn. now rewrite op_e_r. Qed.

Variable lt : liaison.
Variable bf : option breakage.

Lemma scan_from_total ss lp (A : length lp = length ss)
      (rest : list Syllable) : forall idx st st',
  scan_from lt bf ss lp idx rest st = Ret st' ->
  rest = skipn idx ss ->
  total op e f (reduced_syllables st)
  = total op e f (firstn (idx + b2n (skip_next st)) ss) ->
  total op e f (reduced_syllables st')
  = total op e f (firstn (length ss + b2n (skip_next st')) ss).
Proof.
  induction rest as [|s rest IH]; intros idx st st' H R T.
  - cbn in H. injection H as <-. rewrite T.
    assert (length ss <= idx).
    { destruct (Nat.le_gt_cases (length ss) idx) as [L|L]; [exact L|].
      apply (f_equal (@length _)) in R. rewrite length_skipn in R.
      cbn in R. lia. }
    now rewrite !firstn_all2 by lia.
  - cbn [scan_from] in H. apply bind_Ret in H as (st1 & H1 & H).
    symmetry in R. apply skipn_cons in R as [Hs R].
    apply (IH _ _ _ H); [now symmetry|].
    apply (scan_step_aligned A) in H1
      as [(Sk & Sk' & E)|[(Sk & Sk' & E)|(Sk & Sk' & next & Hn & E)]];
      rewrite Sk in T; rewrite Sk', E; cbn [b2n] in *.
    + rewrite Nat.add_0_r. now rewrite Nat.add_1_r in T.
    + rewrite Nat.add_0_r in *. rewrite total_snoc, T.
      now rewrite (firstn_snoc Hs), total_snoc.
    + rewrite Nat.add_0_r in T. rewrite total_snoc, T, f_fuse.
      rewrite Nat.add_1_r. rewrite Nat.add_1_r in Hn.
      rewrite (firstn_snoc Hn), (firstn_snoc Hs), !total_snoc.
      now rewrite op_assoc.
Qed.

Lemma reduce_total : forall fuel ss lp next count out lp' count',
  length lp = length ss ->
  reduce fuel lt bf ss lp false next count = Ret (out, lp', count') ->
  total op e f out = total op e f ss.
Proof.
  induction fuel as [|fuel IH]; intros ss lp next count out lp' count' A H;
    cbn [reduce] in H; destruct (0 <? sum lp)%Z eqn:Sm;
    try discriminate H; try (now injection H as <- <- <-).
  apply bind_Ret in H as (st' & E & H).
  destruct (scan_aligned A E) as (L & _ & _ & Ne & _).
  destruct ss as [|s ss].
  { apply length_zero_nil in A. subst lp. discriminate Sm. }
  destruct Ne as [S' _]; [discriminate|]. rewrite S' in H.
  apply IH in H; [|exact L]. rewrite H.
  unfold scan in E. apply (scan_from_total A) in E; [|reflexivity..].
  rewrite S', Nat.add_0_r, firstn_all in E. exact E.
Qed.

Lemma clean_from_total (lp : list Z) (groups : list Syllable) :
  forall idx out,
    clean_from lt lp idx groups = Ret out ->
    total op e f out = total op e f groups.
Proof.
  induction groups as [|g groups IH]; intros idx out H;
    cbn [clean_from] in H.
  - now injection H as <-.
  - apply bind_Ret in H as (g' & G & H).
    apply bind_Ret in H as (gs & H' & H). injection H as <-.
    unfold total in *. cbn [fold_right]. rewrite (IH _ _ H'). f_equal.
    destruct (has_liaison lt g); [|now injection G as <-].
    apply bind_Ret in G as (p & _ & G). injection G as <-. apply f_flag.
Qed.

Lemma get_phonological_groups_total ss lp out :
  (forall l, lp = Some l -> length l = length ss) ->
  get_phonological_groups ss lt bf lp = Ret out ->
  total op e f out = total op e f ss.
Proof.
  intros A H. unfold get_phonological_groups in H.
  apply bind_Ret in H as ([out' merges] & H & E). injection E as <-.
  unfold get_phonological_groups_fused in H.
  apply bind_Ret in H as ([[groups lp'] count] & R & H).
  apply bind_Ret in H as (cleaned & C & H). injection H as <- <-.
  cbn [fst]. rewrite (clean_from_total C).
  eapply reduce_total; [|exact R].
  destruct lp as [l|]; [now apply A | apply flag_positions_length].
Qed.

End Kept.

Lemma total_text (l : list Syllable) :
  total (@app char) [] text l = concat (map text l).
Proof. induction l as [|s l IH]; [reflexivity|]. cbn. now rewrite <- IH. Qed.

Lemma total_stress (l : list Syllable) :
  total orb false is_stressed l = existsb is_stressed l.
Proof. induction l as [|s l IH]; [reflexivity|]. cbn. now rewrite <- IH. Qed.

(** ** The group reducer on its own result *)

Lemma scan_from_nonneg lt bf ss lp (P : nonneg lp) (rest : list Syllable) :
  forall idx st st',
    scan_from lt bf ss lp idx rest st = Ret st' ->
    nonneg (liaison_index st) -> nonneg (liaison_index st').
Proof.
  induction rest as [|s rest IH]; intros idx st st' H N.
  - cbn in H. now injection H as <-.
  - cbn [scan_from] in H. apply bind_Ret in H as (st1 & H1 & H).
    apply (IH _ _ _ H). apply scan_step_kind in H1.
    destruct H1 as [Sk ->|next Sk ->|next p q Sk Hp Tp Hq ->];
      cbn [liaison_index]; auto.
    + apply Forall_app. split; [exact N|]. constructor; [lia|constructor].
    + apply Forall_app. split; [exact N|]. constructor; [|constructor].
      apply nth_error_In in Hq. unfold nonneg in P.
      rewrite Forall_forall in P. now apply P.
Qed.

Lemma nonneg_sum (l : list Z) : nonneg l -> (0 <= sum l)%Z.
Proof.
  induction 1 as [|z l Hz _ IH]; [reflexivity|].
  unfold sum in *. cbn [fold_right]. lia.
Qed.

Lemma nonneg_all_zero (l : list Z) :
  nonneg l -> (sum l <= 0)%Z -> all_zero l.
Proof.
  induction 1 as [|z l Hz P IH]; intro S; [constructor|].
  pose proof (nonneg_sum P) as N. unfold sum in *. cbn [fold_right] in S.
  constructor; [lia | apply IH; lia].
Qed.

(** The loop ends on a vector of zeros when it starts on a vector
    without negative entry. *)
Lemma reduce_nonneg lt bf : forall fuel ss lp skip next count out lp' count',
  nonneg lp ->
  reduce fuel lt bf ss lp skip next count = Ret (out, lp', count') ->
  all_zero lp'.
Proof.
  induction fuel as [|fuel IH];
    intros ss lp skip next count out lp' count' P H;
    cbn [reduce] in H; destruct (0 <? sum lp)%Z eqn:Sm;
    try discriminate H;
    try (injection H as <- <- <-; apply Z.ltb_ge in Sm;
         now apply nonneg_all_zero).
  apply bind_Ret in H as (st' & E & H).
  eapply IH; [|exact H]. unfold scan in E.
  apply (scan_from_nonneg P) in E; [exact E | constructor].
Qed.

Lemma flag_positions_nonneg lt ss : nonneg (flag_positions lt ss).
Proof.
  apply Forall_map. apply Forall_forall. intros s _.
  destruct (has_liaison lt s) as [[|]|]; lia.
Qed.

Lemma clean_from_unflags lt (lp : list Z) (Zr : all_zero lp)
      (groups : list Syllable) : forall idx out,
  clean_from lt lp idx groups = Ret out ->
  Forall (fun s => has_liaison lt s <> Some true) out.
Proof.
  induction groups as [|g groups IH]; intros idx out H;
    cbn [clean_from] in H.
  - injection H as <-. constructor.
  - apply bind_Ret in H as (g' & G & H).
    apply bind_Ret in H as (gs & H' & H). injection H as <-.
    constructor; [|eauto].
    destruct (has_liaison lt g) eqn:F.
    + apply bind_Ret in G as (p & Hp & G). injection G as <-.
      apply index_Ret, nth_error_In in Hp.
      unfold all_zero in Zr. rewrite Forall_forall in Zr.
      rewrite (Zr _ Hp). destruct g, lt; discriminate.
    + injection G as <-. rewrite F. discriminate.
Qed.

(** Syllables none of which is flagged are returned as they are. *)
Lemma get_phonological_groups_unflagged ss lt bf :
  Forall (fun s => has_liaison lt s <> Some true) ss ->
  get_phonological_groups ss lt bf None = Ret ss.
Proof.
  intro F. unfold get_phonological_groups, get_phonological_groups_fused.
  rewrite reduce_done by (rewrite sum_flags_zero by exact F; lia).
  cbn [bind]. unfold clean_phonological_groups.
  pose proof (@clean_from_flags lt ss []) as C. cbn [app length] in C.
  now rewrite C.
Qed.

(** X4.  [get_phonological_groups] is idempotent: over the eligibility read
    from the flags, or over a given vector without negative entry, none of
    the groups it returns is flagged for the liaison any more, the flag
    being absent or false, and the function returns them as they are when it
    is given them, whatever the breakage function. *)
Theorem get_phonological_groups_idempotent
        (ss : list Syllable) (lt : liaison) (bf bf' : option breakage)
        (lp : option (list Z)) (out : list Syllable) :
  (forall l, lp = Some l -> nonneg l) ->
  get_phonological_groups ss lt bf lp = Ret out ->
  Forall (fun s => has_liaison lt s <> Some true) out
  /\ get_phonological_groups out lt bf' None = Ret out.
Proof.
  intros P H.
  assert (F : Forall (fun s => has_liaison lt s <> Some true) out).
  { unfold get_phonological_groups in H.
    apply bind_Ret in H as ([out' merges] & H & E). injection E as <-.
    unfold get_phonological_groups_fused in H.
    apply bind_Ret in H as ([[groups lp'] count] & R & H).
    apply bind_Ret in H as (cleaned & C & H). injection H as <- <-.
    cbn [fst]. apply reduce_nonneg in R.
    - exact (clean_from_unflags R C).
    - destruct lp as [l|]; [now apply P | apply flag_positions_nonneg]. }
  split; [exact F | now apply get_phonological_groups_unflagged].
Qed.

Lemma get_phonological_groups_idempotent_witness :
  exists out,
    get_phonological_groups
      [set_has_liaison synalepha (Some true) (plain (u "la") false);
       plain (u "a") true; plain (u "ve") false]
      synalepha None None = Ret out
    /\ get_phonological_groups out synalepha (Some break_on_h) None
       = Ret out.
Proof.
  eexists. split; [vm_compute; reflexivity|].
  refine (proj2 (@get_phonological_groups_idempotent
                   [set_has_liaison synalepha (Some true)
                                    (plain (u "la") false);
                    plain (u "a") true; plain (u "ve") false]
                   synalepha None (Some break_on_h) None _ _ _)).
  - discriminate.
  - vm_compute. reflexivity.
Defined.

(** ** The natural analysis of a line *)

Lemma final_snoc (l : list Syllable) (s : Syllable) : final (l ++ [s]) = s.
Proof. apply last_last. Qed.

Lemma skipn_final (ss : list Syllable) (idx : nat) (s : Syllable) :
  skipn idx ss = [s] -> final ss = s.
Proof.
  intro H. rewrite <- (firstn_skipn idx ss), H. apply final_snoc.
Qed.

Lemma fuse_other lt a b : has_liaison (other lt) (fuse lt a b) = None.
Proof. now destruct lt. Qed.

(** The group that ends the scanned sequence is the final syllable or a
    fusion, and carries the flag of the other liaison only if the final
    syllable does. *)
Lemma scan_from_final_other lt bf ss lp (A : length lp = length ss)
      (F : has_liaison (other lt) (final ss) = None)
      (rest : list Syllable) : forall idx st st',
  scan_from lt bf ss lp idx rest st = Ret st' ->
  skipn idx ss = rest ->
  (skip_next st = true \/ rest = [] ->
   has_liaison (other lt) (final (reduced_syllables st)) = None) ->
  has_liaison (other lt) (final (reduced_syllables st')) = None.
Proof.
  induction rest as [|s rest IH]; intros idx st st' H R Q.
  - cbn in H. injection H as <-. apply Q. now right.
  - cbn [scan_from] in H. apply bind_Ret in H as (st1 & H1 & H).
    pose proof R as R0. apply skipn_cons in R as [Hs R].
    apply (IH _ _ _ H R).
    apply (scan_step_aligned A) in H1
      as [(Sk & Sk' & E)|[(Sk & Sk' & E)|(Sk & Sk' & next & Hn & E)]];
      rewrite Sk', E; intros [X|X]; try discriminate X.
    + apply Q. now left.
    + rewrite final_snoc. rewrite X in R0.
      now rewrite <- (skipn_final R0).
    + rewrite final_snoc. apply fuse_other.
    + rewrite final_snoc. apply fuse_other.
Qed.

Lemma reduce_final_other lt bf :
  forall fuel ss lp next count out lp' count',
    length lp = length ss ->
    has_liaison (other lt) (final ss) = None ->
    reduce fuel lt bf ss lp false next count = Ret (out, lp', count') ->
    has_liaison (other lt) (final out) = None.
Proof.
  induction fuel as [|fuel IH];
    intros ss lp next count out lp' count' A F H;
    cbn [reduce] in H; destruct (0 <? sum lp)%Z eqn:Sm;
    try discriminate H; try (now injection H as <- <- <-).
  apply bind_Ret in H as (st' & E & H).
  destruct (scan_aligned A E) as (L & _ & _ & Ne & _).
  destruct ss as [|s ss].
  { apply length_zero_nil in A. subst lp. discriminate Sm. }
  destruct Ne as [S' _]; [discriminate|]. rewrite S' in H.
  apply IH in H; [exact H | exact L |].
  unfold scan in E.
  apply (scan_from_final_other A F) in E; [exact E | reflexivity |].
  intros [X|X]; discriminate X.
Qed.

Lemma last_map_default {A B} (g : A -> B) (l : list A) (d : A) :
  last (map g l) (g d) = g (last l d).
Proof.
  induction l as [|a l IH]; [reflexivity|].
  destruct l; [reflexivity|]. exact IH.
Qed.

Lemma clean_from_other lt lp (groups : list Syllable) : forall idx out,
  clean_from lt lp idx groups = Ret out ->
  map (has_liaison (other lt)) out = map (has_liaison (other lt)) groups.
Proof.
  induction groups as [|g groups IH]; intros idx out H;
    cbn [clean_from] in H.
  - now injection H as <-.
  - apply bind_Ret in H as (g' & G & H).
    apply bind_Ret in H as (gs & H' & H). injection H as <-.
    cbn [map]. rewrite (IH _ _ H'). f_equal.
    destruct (has_liaison lt g); [|now injection G as <-].
    apply bind_Ret in G as (p & _ & G). injection G as <-.
    now destruct lt, g.
Qed.

Lemma clean_from_returns lt lp (groups : list Syllable) : forall idx,
  idx + length groups <= length lp ->
  exists out, clean_from lt lp idx groups = Ret out.
Proof.
  induction groups as [|g groups IH]; intros idx L; [now exists []|].
  cbn [length] in L. cbn [clean_from].
  destruct (IH (S idx)) as [gs ->]; [lia|].
  destruct (has_liaison lt g); [|cbn; eauto].
  destruct (index_lt (l := lp) (i := idx)) as [p ->]; [lia|]. cbn. eauto.
Qed.

Lemma flag_positions_last_flag lt (syllables : list Syllable) :
  has_liaison lt (final syllables) = None ->
  last (flag_positions lt syllables) 0%Z = 0%Z.
Proof.
  intro H. unfold flag_positions, final in *.
  destruct syllables as [|s0 rest] eqn:E; [reflexivity|].
  rewrite <- E in *.
  assert (N : syllables <> []) by (rewrite E; discriminate).
  destruct (exists_last N) as (front & s & ->).
  rewrite last_last in H. rewrite map_app. cbn [map].
  rewrite last_last. now rewrite H.
Qed.

(** Without eligibility at the final syllable and without breakage
    function, [get_phonological_groups] returns, and its final group
    does not carry the flag of the other liaison if the final syllable
    does not. *)
Lemma get_phonological_groups_safe (ss : list Syllable) (lt : liaison) :
  has_liaison lt (final ss) = None ->
  exists out,
    get_phonological_groups ss lt None None = Ret out
    /\ (has_liaison (other lt) (final ss) = None ->
        has_liaison (other lt) (final out) = None).
Proof.
  intros F. unfold get_phonological_groups, get_phonological_groups_fused.
  destruct (@reduce_safe lt None (length ss + 2) ss (flag_positions lt ss)
              None 0)
    as (groups & lp' & count' & R & L & _);
    [apply flag_positions_length | now apply flag_positions_last_flag
     | lia |].
  cbn [option_map] in R. rewrite R. cbn [bind].
  unfold clean_phonological_groups.
  destruct (@clean_from_returns lt lp' groups 0) as [out C]; [cbn; lia|].
  rewrite C. cbn [bind fst]. exists out. split; [reflexivity|].
  intro O.
  apply reduce_final_other in R;
    [| apply flag_positions_length | exact O].
  apply clean_from_other in C. unfold final in *.
  rewrite <- last_map_default in R |- *. now rewrite C.
Qed.

Lemma get_phonological_groups_text ss lt bf out :
  get_phonological_groups ss lt bf None = Ret out ->
  concat (map text out) = concat (map text ss).
Proof.
  intro H. rewrite <- !total_text.
  apply (get_phonological_groups_total
           (@app_assoc char) (@app_nil_r char) (@app_nil_l char))
    with (lt := lt) (bf := bf) (lp := None); auto.
  - intros k a b. now destruct k.
  - intros k v s. now destruct k.
  - discriminate.
Qed.

Lemma get_phonological_groups_stress ss lt bf out :
  get_phonological_groups ss lt bf None = Ret out ->
  existsb is_stressed out = existsb is_stressed ss.
Proof.
  intro H. rewrite <- !total_stress.
  apply (get_phonological_groups_total orb_assoc orb_false_r orb_false_l)
    with (lt := lt) (bf := bf) (lp := None); auto.
  - intros k a b. now destruct k.
  - intros k v s. now destruct k.
  - discriminate.
Qed.

Lemma get_stresses_returns (groups : list Syllable) :
  existsb is_stressed groups = true ->
  exists stresses, get_stresses groups = Ret stresses.
Proof.
  intro X. rewrite <- existsb_stressed, <- existsb_rev in X.
  apply find_true_some in X as [i Y].
  unfold get_stresses, index_true. rewrite Y. cbn [bind].
  repeat match goal with
         | |- context [if ?c then _ else _] => destruct c
         end; eauto.
Qed.

Lemma get_stresses_raises (groups : list Syllable) :
  existsb is_stressed groups = false ->
  get_stresses groups = Raise ValueError.
Proof.
  intro X. unfold get_stresses, index_true.
  rewrite find_true_none; [reflexivity|].
  rewrite forallb_rev.
  induction groups as [|g l IH]; [reflexivity|].
  cbn in *. apply orb_false_iff in X as [-> X]. now apply IH.
Qed.

Section Natural.

Variable V : Type.
Variable SYLLABIFICATOR_FOREIGN_WORDS_DICT : str -> option str.
Variable ALTERNATIVE_SYLLABIFICATION : str -> option (V * list (variant V)).

Lemma natural_line_cases
        (tokens : list Token.t) (alternative_syllabification : bool)
        (words : list word_token) (rhythm_format : str) :
  get_words SYLLABIFICATOR_FOREIGN_WORDS_DICT ALTERNATIVE_SYLLABIFICATION
            tokens alternative_syllabification = Ret words ->
  (existsb is_stressed (snd (get_syllables_word_end words)) = true ->
   exists l : line V,
     natural_line V rhythm_format words = Ret l
     /\ concat (map text (phonological_groups l))
        = concat (map text (snd (get_syllables_word_end words)))
     /\ get_rhythmical_pattern (phonological_groups l) rhythm_format
        = Ret (line_rhythm l))
  /\ (existsb is_stressed (snd (get_syllables_word_end words)) = false ->
      natural_line V rhythm_format words = Raise ValueError).
Proof.
  intros H.
  assert (U : unflagged (final (snd (get_syllables_word_end words)))).
  { eapply get_words_from_final; [|exact H]. now split. }
  unfold natural_line.
  destruct (get_syllables_word_end words) as [words' syllables].
  cbn [snd] in *. destruct U as [Sy Si].
  destruct (@get_phonological_groups_safe syllables sinaeresis Si)
    as (inner & P1 & O1).
  specialize (O1 Sy). cbn [other] in O1.
  destruct (@get_phonological_groups_safe inner synalepha O1)
    as (groups & P2 & _).
  rewrite P1. cbn [bind]. rewrite P2. cbn [bind].
  pose proof (get_phonological_groups_stress P2) as S2.
  rewrite (get_phonological_groups_stress P1) in S2.
  pose proof (get_phonological_groups_text P2) as T2.
  rewrite (get_phonological_groups_text P1) in T2.
  split; intro X; rewrite <- S2 in X.
  - apply get_stresses_returns in X as [stresses X].
    unfold get_rhythmical_pattern. rewrite X. cbn [bind].
    eexists. split; [reflexivity|]. cbn [phonological_groups line_rhythm].
    split; [exact T2|]. now rewrite X.
  - apply get_stresses_raises in X.
    unfold get_rhythmical_pattern. now rewrite X.
Qed.

(** X5.  The natural analysis of a line that [get_words] built fails for the
    lack of a stressed syllable only: it returns a line when some syllable
    of the words is stressed, and raises [ValueError] when none is, so that
    it raises neither [IndexError] nor [UnboundLocalError]. The groups of
    the line that it returns hold the text of the syllables, in their order,
    and the rhythm is the one of these groups. *)
Theorem natural_line_returns
        (tokens : list Token.t) (alternative_syllabification : bool)
        (words : list word_token) (rhythm_format : str) :
  get_words SYLLABIFICATOR_FOREIGN_WORDS_DICT ALTERNATIVE_SYLLABIFICATION
            tokens alternative_syllabification = Ret words ->
  (existsb is_stressed (snd (get_syllables_word_end words)) = true ->
   exists l : line V,
     natural_line V rhythm_format words = Ret l
     /\ concat (map text (phonological_groups l))
        = concat (map text (snd (get_syllables_word_end words)))
     /\ get_rhythmical_pattern (phonological_groups l) rhythm_format
        = Ret (line_rhythm l))
  /\ (existsb is_stressed (snd (get_syllables_word_end words)) = false ->
      natural_line V rhythm_format words = Raise ValueError).
Proof.
  apply natural_line_cases.
Qed.

End Natural.

Lemma natural_line_returns_witness :
  exists words,
    get_words no_foreign_words no_alternatives lee_a_casa false = Ret words
    /\ exists l : line unit,
         natural_line unit PATTERN words = Ret l
         /\ concat (map text (phonological_groups l)) = u "leeacasa".
Proof.
  eexists. split; [vm_compute; reflexivity|].
  match goal with
  | |- exists l, natural_line _ _ ?w = _ /\ _ =>
    destruct (@natural_line_returns unit no_foreign_words no_alternatives
                lee_a_casa false w PATTERN) as [R _];
      [vm_compute; reflexivity|]
  end.
  destruct R as (l & N & T & _); [vm_compute; reflexivity|].
  exists l. split; [exact N|]. rewrite T. vm_compute. reflexivity.
Defined.

(** ** Morphological tags *)

Lemma mem_app (c : char) (a b : str) : mem c (a ++ b) = mem c a || mem c b.
Proof. apply existsb_app. Qed.

Lemma split_aux_free (sep : char) (p : str) : forall cur,
  mem sep p = false -> split_aux sep cur p = [rev cur ++ p].
Proof.
  induction p as [|c p IH]; intros cur H; cbn [split_aux].
  - now rewrite app_nil_r.
  - cbn in H. apply orb_false_iff in H as [C H].
    unfold char_eqb in *. rewrite N.eqb_sym, C, IH by exact H.
    cbn [rev]. now rewrite <- app_assoc.
Qed.

Lemma split_aux_sep (sep : char) (p s : str) : forall cur,
  mem sep p = false ->
  split_aux sep cur (p ++ sep :: s) = (rev cur ++ p) :: split_aux sep [] s.
Proof.
  induction p as [|c p IH]; intros cur H; cbn [split_aux app].
  - unfold char_eqb. now rewrite N.eqb_refl, app_nil_r.
  - cbn in H. apply orb_false_iff in H as [C H].
    unfold char_eqb in *. rewrite N.eqb_sym, C, IH by exact H.
    cbn [rev]. now rewrite <- app_assoc.
Qed.

(** Splitting what was joined gives the parts back. *)
Lemma split_join (sep : char) (parts : list str) :
  parts <> [] ->
  Forall (fun p => mem sep p = false) parts ->
  split sep (join [sep] parts) = parts.
Proof.
  unfold split. induction parts as [|p rest IH]; intros N F; [easy|].
  inversion F as [|? ? Hp Hr]; subst. destruct rest as [|q rest].
  - cbn [join]. now rewrite split_aux_free.
  - change (join [sep] (p :: q :: rest))
      with (p ++ sep :: join [sep] (q :: rest)).
    rewrite split_aux_sep by exact Hp. cbn [rev app]. f_equal.
    apply IH; [discriminate | exact Hr].
Qed.

(** Joining what was split gives the string back. *)
Lemma join_split_aux (sep : char) (s : str) : forall cur,
  join [sep] (split_aux sep cur s) = rev cur ++ s.
Proof.
  induction s as [|c s IH]; intro cur; cbn [split_aux].
  - cbn [join]. now rewrite app_nil_r.
  - destruct (char_eqb c sep) eqn:C.
    + apply N.eqb_eq in C. subst c.
      specialize (IH []). cbn [rev app] in IH.
      destruct (split_aux sep [] s) as [|q l] eqn:E.
      { destruct s; cbn in E; [discriminate|].
        destruct (char_eqb c sep); discriminate. }
      change (join [sep] (rev cur :: q :: l))
        with (rev cur ++ sep :: join [sep] (q :: l)).
      now rewrite IH.
    + rewrite IH. cbn [rev]. now rewrite <- app_assoc.
Qed.

Lemma split_aux_length (sep : char) (s : str) : forall cur,
  length (split_aux sep cur s) = S (occurrences sep s).
Proof.
  unfold occurrences.
  induction s as [|c s IH]; intro cur; cbn [split_aux filter]; [reflexivity|].
  unfold char_eqb in *. rewrite (N.eqb_sym sep c).
  destruct (N.eqb c sep); cbn [length]; now rewrite IH.
Qed.

(** The pairs that the pieces of a tag split into: one pair for each
    piece when each piece holds one equals sign, and [ValueError]
    otherwise. *)
Lemma features_of_pieces (pieces : list str) :
  (forallb (fun t => occurrences EQUALS t =? 1) pieces = true ->
   exists d,
     mapM (fun t => match split EQUALS t with
                    | [key; value] => Ret (key, value)
                    | _ => Raise ValueError
                    end) pieces = Ret d
     /\ map feature d = pieces)
  /\ (forallb (fun t => occurrences EQUALS t =? 1) pieces = false ->
      mapM (fun t => match split EQUALS t with
                     | [key; value] => Ret (key, value)
                     | _ => Raise ValueError
                     end) pieces = Raise ValueError).
Proof.
  induction pieces as [|t pieces [IHt IHf]]; [split; [now exists []|easy]|].
  cbn [forallb mapM].
  pose proof (split_aux_length EQUALS t []) as L.
  pose proof (join_split_aux EQUALS t []) as J.
  fold (split EQUALS t) in L, J. cbn [rev app] in J.
  destruct (Nat.eqb_spec (occurrences EQUALS t) 1) as [One|Other].
  - rewrite One in L.
    destruct (split EQUALS t) as [|key [|value [|x l]]];
      try discriminate L.
    cbn [bind andb]. split; intro H.
    + destruct (IHt H) as (d & -> & M). cbn [bind].
      exists ((key, value) :: d). split; [reflexivity|].
      cbn [map]. now rewrite M, <- J.
    + now rewrite (IHf H).
  - split; [discriminate|]. intros _.
    destruct (split EQUALS t) as [|key [|value [|x l]]];
      try reflexivity.
    cbn [length] in L. lia.
Qed.

Lemma features_of_features (features : dict) :
  Forall (fun p => separator_free (fst p) /\ separator_free (snd p))
         features ->
  mapM (fun t => match split EQUALS t with
                 | [key; value] => Ret (key, value)
                 | _ => Raise ValueError
                 end) (map feature features) = Ret features.
Proof.
  induction 1 as [|[key value] l [[K _] [W _]] _ IH]; [reflexivity|].
  cbn [map mapM]. rewrite IH. cbn [fst snd] in *.
  unfold feature, split. cbn [fst snd app].
  rewrite split_aux_sep by exact K.
  rewrite split_aux_free by exact W. reflexivity.
Qed.

Lemma mem_nonempty (c : char) (s : str) : mem c s = true -> nonempty s = true.
Proof. now destruct s. Qed.

Lemma str_eqb_eq (a b : str) : str_eqb a b = true -> a = b.
Proof.
  revert b. induction a as [|x a IH]; intros [|y b] H; try discriminate H.
  - reflexivity.
  - cbn [str_eqb] in H. apply andb_true_iff in H as [X H].
    apply N.eqb_eq in X. subst y. f_equal. now apply IH.
Qed.

Lemma str_eqb_refl (a : str) : str_eqb a a = true.
Proof.
  induction a as [|x a IH]; [reflexivity|]. cbn [str_eqb].
  unfold char_eqb. now rewrite N.eqb_refl, IH.
Qed.

Lemma str_eqb_neq (a b : str) : a <> b -> str_eqb a b = false.
Proof.
  intro N. destruct (str_eqb a b) eqn:E; [|reflexivity].
  now apply str_eqb_eq in E.
Qed.

Lemma find_snoc {A} (p : A -> bool) (l : list A) (a : A) :
  find p (l ++ [a])
  = match find p l with
    | Some x => Some x
    | None => if p a then Some a else None
    end.
Proof.
  induction l as [|x l IH]; cbn [app find]; [reflexivity|].
  destruct (p x); [reflexivity | exact IH].
Qed.

(** The pair that stands first is looked at last. *)
Lemma dict_lookup_cons (p : str * str) (d : dict) (k : str) :
  dict_lookup (p :: d) k
  = match dict_lookup d k with
    | Some v => Some v
    | None => if str_eqb (fst p) k then Some (snd p) else None
    end.
Proof.
  unfold dict_lookup. cbn [rev]. rewrite find_snoc.
  destruct (find _ (rev d)); [reflexivity|].
  now destruct (str_eqb (fst p) k).
Qed.

Lemma dict_lookup_fresh (d : dict) (k : str) :
  ~ In k (map fst d) -> dict_lookup d k = None.
Proof.
  induction d as [|p d IH]; intro N; [reflexivity|].
  rewrite dict_lookup_cons, IH by (intro H; apply N; now right).
  rewrite str_eqb_neq; [reflexivity|]. intro E. apply N. now left.
Qed.

Lemma dict_set_keys (d : dict) (k v k' : str) :
  In k' (map fst (dict_set d k v)) <-> In k' (map fst d) \/ k' = k.
Proof.
  induction d as [|[k0 v0] d IH]; cbn [dict_set map fst In].
  - split; [intros [<-|[]]; now right | intros [[]| ->]; now left].
  - destruct (str_eqb k0 k) eqn:E; cbn [map fst In].
    + apply str_eqb_eq in E. subst k0. split; [tauto|].
      intros [H| ->]; [exact H | now left].
    + rewrite IH. tauto.
Qed.

Lemma dict_set_NoDup (d : dict) (k v : str) :
  NoDup (map fst d) -> NoDup (map fst (dict_set d k v)).
Proof.
  induction d as [|[k0 v0] d IH]; cbn [dict_set map fst]; intro N.
  - constructor; [easy | constructor].
  - inversion N as [|? ? Hn Hd]; subst.
    destruct (str_eqb k0 k) eqn:E; cbn [map fst]; [exact N|].
    constructor; [|now apply IH].
    rewrite dict_set_keys. intros [H| ->]; [now apply Hn|].
    now rewrite str_eqb_refl in E.
Qed.

Lemma dict_set_lookup (d : dict) (k v k' : str) :
  NoDup (map fst d) ->
  dict_lookup (dict_set d k v) k'
  = if str_eqb k k' then Some v else dict_lookup d k'.
Proof.
  induction d as [|[k0 v0] d IH]; cbn [dict_set map fst]; intro N.
  - rewrite dict_lookup_cons. cbn [fst snd].
    now destruct (str_eqb k k').
  - inversion N as [|? ? Hn Hd]; subst.
    destruct (str_eqb k0 k) eqn:E.
    + apply str_eqb_eq in E. subst k0.
      rewrite !dict_lookup_cons. cbn [fst snd].
      destruct (str_eqb k k') eqn:E'; [|now destruct (dict_lookup d k')].
      apply str_eqb_eq in E'. subst k'.
      now rewrite (dict_lookup_fresh Hn).
    + rewrite !dict_lookup_cons, (IH Hd). cbn [fst snd].
      destruct (str_eqb k k') eqn:E'; [reflexivity|].
      reflexivity.
Qed.

Lemma dict_set_fresh (d : dict) (k v : str) :
  ~ In k (map fst d) -> dict_set d k v = d ++ [(k, v)].
Proof.
  induction d as [|[k0 v0] d IH]; cbn [dict_set map fst In]; intro N;
    [reflexivity|].
  rewrite str_eqb_neq by (intro E; apply N; now left).
  cbn [app]. f_equal. apply IH. intro H. apply N. now right.
Qed.

Lemma dict_set_length (d : dict) (k v : str) :
  length (dict_set d k v) <= S (length d).
Proof.
  induction d as [|[k0 v0] d IH]; cbn [dict_set length]; [lia|].
  destruct (str_eqb k0 k); cbn [length]; lia.
Qed.

(** What [dict] makes of a list of pairs, from a dictionary on: every
    key stands once, a key has the value of the last pair that holds it,
    and pairs with keys all different are kept as they are. *)
Lemma dict_of_from (pairs : list (str * str)) : forall acc : dict,
  NoDup (map fst acc) ->
  NoDup (map fst (fold_left (fun d p => dict_set d (fst p) (snd p))
                            pairs acc))
  /\ (forall k,
        dict_lookup (fold_left (fun d p => dict_set d (fst p) (snd p))
                               pairs acc) k
        = match dict_lookup pairs k with
          | Some v => Some v
          | None => dict_lookup acc k
          end)
  /\ length (fold_left (fun d p => dict_set d (fst p) (snd p)) pairs acc)
     <= length acc + length pairs
  /\ (NoDup (map fst (acc ++ pairs)) ->
      fold_left (fun d p => dict_set d (fst p) (snd p)) pairs acc
      = acc ++ pairs).
Proof.
  induction pairs as [|[k v] pairs IH]; intros acc N; cbn [fold_left].
  - rewrite app_nil_r. cbn [length]. repeat split; auto; lia.
  - destruct (IH (dict_set acc k v) (dict_set_NoDup k v N))
      as (Nd & Lk & Ln & Eq).
    cbn [fst snd] in *. split; [exact Nd|]. split; [|split].
    + intro k'. rewrite Lk, dict_lookup_cons, (dict_set_lookup _ _ _ N).
      cbn [fst snd].
      destruct (dict_lookup pairs k'); [reflexivity|].
      now destruct (str_eqb k k').
    + pose proof (dict_set_length acc k v). cbn [length]. lia.
    + intro D. rewrite map_app in D. cbn [map fst] in D.
      assert (Fk : ~ In k (map fst acc)).
      { apply NoDup_remove_2 in D. intro H. apply D.
        apply in_or_app. now left. }
      rewrite (dict_set_fresh v Fk) in Eq |- *.
      rewrite <- app_assoc in Eq. cbn [app] in Eq. apply Eq.
      rewrite map_app. exact D.
Qed.

Lemma dict_of_spec (pairs : list (str * str)) :
  NoDup (map fst (dict_of pairs))
  /\ (forall k, dict_lookup (dict_of pairs) k = dict_lookup pairs k)
  /\ length (dict_of pairs) <= length pairs
  /\ (NoDup (map fst pairs) -> dict_of pairs = pairs).
Proof.
  unfold dict_of.
  destruct (@dict_of_from pairs [] (NoDup_nil _)) as (N & L & Ln & E).
  split; [exact N|]. split; [|split; [exact Ln | exact E]].
  intro k. rewrite (L k). now destruct (dict_lookup pairs k).
Qed.

(** X6.  [spacy_tag_to_dict] reads back the features that a tag was
    written from: a tag of one feature at least, keys and values holding
    neither an equals sign nor a bar, gives a dictionary in which every
    key stands once and has the value of the last feature with that key.
    When the keys of the features are all different the dictionary is
    these features, in their order. *)
Theorem spacy_tag_to_dict_round_trip (features : dict) :
  features <> [] ->
  Forall (fun p => separator_free (fst p) /\ separator_free (snd p))
         features ->
  exists d,
    spacy_tag_to_dict (tag_of features) = Ret d
    /\ NoDup (map fst d)
    /\ (forall k, dict_lookup d k = dict_lookup features k)
    /\ (NoDup (map fst features) -> d = features).
Proof.
  intros N F. unfold spacy_tag_to_dict, tag_of.
  assert (Eq : mem EQUALS (join [BAR] (map feature features)) = true).
  { destruct features as [|p [|q l]]; [easy| |].
    - cbn [map join]. unfold feature. rewrite !mem_app. cbn.
      now rewrite orb_true_r.
    - change (join [BAR] (map feature (p :: q :: l)))
        with (feature p ++ [BAR] ++ join [BAR] (map feature (q :: l))).
      unfold feature at 1. rewrite !mem_app. cbn.
      now rewrite orb_true_r. }
  rewrite Eq, (mem_nonempty Eq). cbn [andb].
  rewrite split_join.
  - rewrite (features_of_features F). cbn [bind].
    destruct (dict_of_spec features) as (Nd & Lk & _ & E).
    exists (dict_of features). now repeat split.
  - destruct features; [easy | discriminate].
  - apply Forall_map. eapply Forall_impl; [|exact F].
    intros [key value] [[_ K] [_ W]]. cbn [fst snd] in *.
    unfold feature. cbn [fst snd]. rewrite !mem_app, K, W. reflexivity.
Qed.

Lemma spacy_tag_to_dict_round_trip_witness :
  spacy_tag_to_dict (u "Gender=Fem|Number=Sing")
  = Ret [(u "Gender", u "Fem"); (u "Number", u "Sing")]
  /\ exists d,
       spacy_tag_to_dict (u "Case=Acc|Case=Nom") = Ret d
       /\ dict_lookup d (u "Case") = Some (u "Nom").
Proof.
  split.
  - destruct (@spacy_tag_to_dict_round_trip
                [(u "Gender", u "Fem"); (u "Number", u "Sing")])
      as (d & E & _ & _ & D).
    + discriminate.
    + repeat constructor.
    + rewrite D in E; [exact E|].
      repeat (constructor; [cbn; intuition discriminate|]). constructor.
  - destruct (@spacy_tag_to_dict_round_trip
                [(u "Case", u "Acc"); (u "Case", u "Nom")])
      as (d & E & _ & L & _).
    + discriminate.
    + repeat constructor.
    + exists d. split; [exact E|]. now rewrite L.
Defined.

(** X7.  A tag that holds an equals sign is read when each of its
    pieces, between the bars, holds one equals sign, and raises
    [ValueError] otherwise.  When it is read the pieces are features, a
    key and a value each, which written back give the tag; in the
    dictionary every key stands once and has the value of the last piece
    with that key, so that the dictionary has one entry for each piece
    at most; it is the features themselves, one for each piece and in
    their order, when their keys are all different. *)
Theorem spacy_tag_to_dict_pieces (tag : str) :
  mem EQUALS tag = true ->
  (forallb (fun t => occurrences EQUALS t =? 1) (split BAR tag) = true ->
   exists features d,
     tag_of features = tag
     /\ length features = S (occurrences BAR tag)
     /\ spacy_tag_to_dict tag = Ret d
     /\ NoDup (map fst d)
     /\ length d <= length features
     /\ (forall k, dict_lookup d k = dict_lookup features k)
     /\ (NoDup (map fst features) -> d = features))
  /\ (forallb (fun t => occurrences EQUALS t =? 1) (split BAR tag) = false ->
      spacy_tag_to_dict tag = Raise ValueError).
Proof.
  intro Eq. unfold spacy_tag_to_dict. rewrite Eq, (mem_nonempty Eq).
  cbn [andb]. destruct (features_of_pieces (split BAR tag)) as [R E].
  split; [|intro H; now rewrite (E H)].
  intro H. destruct (R H) as (features & -> & M). cbn [bind].
  destruct (dict_of_spec features) as (Nd & Lk & Ln & D).
  exists features, (dict_of features).
  split; [unfold tag_of; rewrite M; apply (join_split_aux BAR tag [])|].
  split; [rewrite <- (length_map feature), M; apply split_aux_length|].
  now repeat split.
Qed.

Lemma spacy_tag_to_dict_pieces_witness :
  spacy_tag_to_dict (u "Gender=Fem|Sing") = Raise ValueError
  /\ exists d,
       spacy_tag_to_dict (u "Case=Acc|Case=Nom") = Ret d /\ length d <= 2.
Proof.
  split.
  - destruct (@spacy_tag_to_dict_pieces (u "Gender=Fem|Sing") eq_refl)
      as [_ E].
    apply E. reflexivity.
  - destruct (@spacy_tag_to_dict_pieces (u "Case=Acc|Case=Nom") eq_refl)
      as [R _].
    destruct (R eq_refl) as (features & d & _ & Lf & E & _ & Ld & _).
    exists d. split; [exact E|]. rewrite Lf in Ld. exact Ld.
Defined.

(** ** Liaison with an empty syllable *)

(** X8.  [have_prosodic_liaison] raises [IndexError], and nothing else, in
    two cases: the second syllable is empty, or the first one is empty and
    the second one does not start with a consonantal y. An empty first
    syllable before a consonantal y raises nothing: the answer is false,
    without the first syllable being read. *)
Theorem have_prosodic_liaison_index_error (first second : Syllable) :
  (have_prosodic_liaison first second = Raise IndexError
   <-> text second = []
       \/ (text first = [] /\ consonantal_y (text second) = false))
  /\ (forall e, have_prosodic_liaison first second = Raise e
                -> e = IndexError)
  /\ (text first = [] -> consonantal_y (text second) = true ->
      have_prosodic_liaison first second = Ret false).
Proof.
  unfold have_prosodic_liaison.
  pose proof (consonantal_y_test (text second)) as T.
  destruct (text second) as [|c0 rest] eqn:E.
  { cbn. split; [split; auto|]. split; [now intros e [= <-]|discriminate]. }
  cbn [first_char index nth_error bind] in *. rewrite T.
  destruct (consonantal_y (c0 :: rest)) eqn:B.
  { split; [split; [discriminate|intros [X|[_ X]]; discriminate X]|].
    split; [discriminate|reflexivity]. }
  destruct (text first) as [|f0 front] eqn:F.
  { cbn. split; [split; auto|]. split; [now intros e [= <-]|discriminate]. }
  rewrite <- F, last_char_last by (rewrite F; discriminate).
  cbn [bind]. rewrite F.
  destruct (mem (last (f0 :: front) 0%N) LIAISON_FIRST_PART).
  - split; [split; [discriminate|intros [X|[X _]]; discriminate X]|].
    split; discriminate.
  - split; [split; [discriminate|intros [X|[X _]]; discriminate X]|].
    split; discriminate.
Qed.

Lemma have_prosodic_liaison_index_error_witness :
  have_prosodic_liaison (plain [] false) (plain (u "ya") true) = Ret false
  /\ (have_prosodic_liaison (plain [] false) (plain (u "a") true)
      = Raise IndexError).
Proof.
  destruct (@have_prosodic_liaison_index_error
              (plain [] false) (plain (u "ya") true)) as (_ & _ & R).
  destruct (@have_prosodic_liaison_index_error
              (plain [] false) (plain (u "a") true)) as ([_ E] & _).
  split; [apply R; reflexivity|]. apply E. right. split; reflexivity.
Defined.

(** ** The syllable of the written accent *)

Lemma accent_class (c : char) :
  icls (u "áéíóú") c = mem c ACCENTED_VOWELS.
Proof.
  destruct (N.ltb_spec c 512) as [Hc|Hc].
  - apply eqb_prop.
    apply (@below_by_cases
             (fun c => eqb (icls (u "áéíóú") c) (mem c ACCENTED_VOWELS)) 512);
      [vm_compute; reflexivity | exact Hc].
  - destruct (tolower_above Hc) as [_ T]. unfold icls.
    rewrite (@mem_above 512%N c ACCENTED_VOWELS)
      by (reflexivity || assumption).
    replace (c =? 305)%N with false by (symmetry; apply N.eqb_neq; lia).
    replace (c =? 383)%N with false by (symmetry; apply N.eqb_neq; lia).
    cbn [andb orb]. rewrite !orb_false_r.
    destruct T as [T|[T|[T|T]]]; rewrite T; try reflexivity.
    now apply (@mem_above 512%N).
Qed.

Lemma find_index_app {A} (p : A -> bool) (a b : list A) :
  find_index p (a ++ b)
  = match find_index p a with
    | Some j => Some j
    | None => option_map (Nat.add (length a)) (find_index p b)
    end.
Proof.
  induction a as [|x a IH]; cbn [app find_index length].
  - now destruct (find_index p b).
  - destruct (p x); [reflexivity|]. rewrite IH.
    destruct (find_index p a); [reflexivity|].
    now destruct (find_index p b).
Qed.

Lemma find_index_lt {A} (p : A -> bool) (a : list A) : forall j,
  find_index p a = Some j -> j < length a.
Proof.
  induction a as [|x a IH]; intros j H; [discriminate|].
  cbn [find_index length] in *. destruct (p x).
  - injection H as <-. lia.
  - destruct (find_index p a) as [k|]; [|discriminate].
    injection H as <-. specialize (IH k eq_refl). lia.
Qed.

Lemma find_index_existsb {A} (p : A -> bool) (a : list A) :
  existsb p a = match find_index p a with
                | Some _ => true
                | None => false
                end.
Proof.
  induction a as [|x a IH]; [reflexivity|]. cbn [existsb find_index].
  destruct (p x); [reflexivity|]. rewrite IH.
  now destruct (find_index p a).
Qed.

Lemma find_index_ext {A} (p q : A -> bool) (a : list A) :
  (forall x, p x = q x) -> find_index p a = find_index q a.
Proof.
  intro E. induction a as [|x a IH]; [reflexivity|].
  cbn [find_index]. now rewrite E, IH.
Qed.

(** The leftmost match of a single class is at the first character of
    the class. *)
Lemma search_from_class (p : char -> bool) (s : str) : forall i,
  search_from (Cls p) i s
  = option_map (fun j => mkMatch (i + j) (S (i + j)) []) (find_index p s).
Proof.
  induction s as [|x s IH]; intro i; [reflexivity|].
  cbn [search_from run find_index]. destruct (p x).
  - cbn. now rewrite Nat.add_0_r.
  - rewrite IH. destruct (find_index p s) as [j|]; [|reflexivity].
    cbn. now rewrite Nat.add_succ_r.
Qed.

Lemma count_bar_firstn (s : str) (j : nat) :
  bar_free s -> count_bar (firstn j s) = 0.
Proof.
  intro B. apply count_bar_free in B.
  rewrite <- (firstn_skipn j s), count_bar_app in B. lia.
Qed.

(** The bars before the first accented vowel of the joined syllables are
    as many as the syllables before the first accented one. *)
Lemma bars_before_accent (l : list str) :
  Forall bar_free l ->
  match find_index (fun c => mem c ACCENTED_VOWELS) (join [BAR] l) with
  | Some j => Some (count_bar (firstn j (join [BAR] l)))
  | None => None
  end = find_index accented l.
Proof.
  induction 1 as [|s l Hs Hl IH]; [reflexivity|].
  cbn [find_index]. unfold accented at 1. rewrite find_index_existsb.
  destruct l as [|s' l].
  - cbn [join find_index option_map].
    destruct (find_index _ s) as [j|]; [|reflexivity].
    now rewrite count_bar_firstn.
  - change (join [BAR] (s :: s' :: l))
      with (s ++ BAR :: join [BAR] (s' :: l)).
    rewrite find_index_app.
    destruct (find_index _ s) as [j|] eqn:E.
    + apply find_index_lt in E.
      rewrite firstn_app. replace (j - length s) with 0 by lia.
      cbn [firstn]. now rewrite app_nil_r, count_bar_firstn.
    + rewrite <- IH. cbn [find_index].
      change (mem BAR ACCENTED_VOWELS) with false. cbv iota.
      destruct (find_index _ (join [BAR] (s' :: l))) as [j|]; [|reflexivity].
      cbn [option_map]. f_equal.
      rewrite firstn_app.
      replace (length s + S j - length s) with (S j) by lia.
      rewrite firstn_all2 by lia. cbn [firstn].
      change (BAR :: firstn j (join [BAR] (s' :: l)))
        with ([BAR] ++ firstn j (join [BAR] (s' :: l))).
      rewrite !count_bar_app, (count_bar_free Hs). reflexivity.
Qed.

Lemma get_orthographic_accent_find (l : list str) :
  Forall bar_free l -> get_orthographic_accent l = find_index accented l.
Proof.
  intro B. rewrite <- (bars_before_accent B).
  unfold get_orthographic_accent, re_search, accents_re, cls.
  rewrite search_from_class.
  rewrite (find_index_ext (join [BAR] l) accent_class).
  now destruct (find_index _ (join [BAR] l)).
Qed.

(** ** Paroxytone words *)

Lemma paroxytone_here (s : str) (i : nat) :
  found (option_map (fun a => mkMatch i (fst a) (snd a))
                    (run paroxytone_re i s [] accept))
  = paroxytone_tail s.
Proof.
  unfold paroxytone_re, cls, paroxytone_tail. cbn [alt run].
  destruct s as [|x [|y [|z [|w s]]]]; [reflexivity| | | |].
  - destruct (icls (u "aeiou") x), (icls (u "n") x); reflexivity.
  - destruct (icls (u "aeiou") x), (icls (u "n") x),
      (char_eqb y NEWLINE), (icls (u "s") y); reflexivity.
  - destruct (icls (u "aeiou") x), (icls (u "n") x),
      (char_eqb y NEWLINE), (icls (u "s") y), (char_eqb z NEWLINE);
      reflexivity.
  - destruct (icls (u "aeiou") x), (icls (u "n") x),
      (char_eqb y NEWLINE), (icls (u "s") y); reflexivity.
Qed.

Lemma ends_paroxytone_cons (x : char) (s : str) :
  ends_paroxytone (x :: s) = paroxytone_tail (x :: s) || ends_paroxytone s.
Proof.
  destruct s as [|a [|b [|c s]]].
  - unfold ends_paroxytone, paroxytone_tail. cbn [rev app].
    destruct (char_eqb x NEWLINE) eqn:E.
    + apply N.eqb_eq in E. subst x. reflexivity.
    + now rewrite !orb_false_r, andb_false_r, orb_false_r.
  - unfold ends_paroxytone, paroxytone_tail. cbn [rev app].
    destruct (char_eqb a NEWLINE); cbv iota;
      destruct (icls (u "aeiou") x), (icls (u "n") x), (icls (u "s") x),
        (icls (u "aeiou") a), (icls (u "n") a), (icls (u "s") a);
      reflexivity.
  - unfold ends_paroxytone, paroxytone_tail. cbn [rev app].
    destruct (char_eqb b NEWLINE); cbv iota;
      destruct (icls (u "aeiou") x),
        (icls (u "aeiou") a), (icls (u "n") a), (icls (u "s") a),
        (icls (u "aeiou") b), (icls (u "n") b), (icls (u "s") b);
      reflexivity.
  - cbn [paroxytone_tail orb]. unfold ends_paroxytone.
    change (x :: a :: b :: c :: s) with ([x] ++ a :: b :: c :: s).
    rewrite rev_app_distr.
    assert (L : 3 <= length (rev (a :: b :: c :: s))).
    { rewrite length_rev. cbn. lia. }
    destruct (rev (a :: b :: c :: s)) as [|p [|q [|r t]]];
      try (cbn in L; lia).
    cbn [rev app]. now destruct (char_eqb p NEWLINE).
Qed.

(** The search of the pattern of the paroxytone words finds a match
    exactly in the strings with the ending of these words. *)
Lemma paroxytone_search (s : str) : forall i,
  found (search_from paroxytone_re i s) = ends_paroxytone s.
Proof.
  induction s as [|x s IH]; intro i.
  - reflexivity.
  - rewrite ends_paroxytone_cons, <- (IH (S i)), <- (paroxytone_here _ i).
    cbn [search_from].
    now destruct (run paroxytone_re i (x :: s) [] accept) as [[j c]|].
Qed.

Lemma join_nil (l : list str) : join [] l = concat l.
Proof.
  induction l as [|s l IH]; [reflexivity|]. destruct l as [|s' l].
  - cbn. now rewrite app_nil_r.
  - change (join [] (s :: s' :: l)) with (s ++ [] ++ join [] (s' :: l)).
    now rewrite IH.
Qed.

Lemma find_index_singletons (w : str) :
  find_index accented (map (fun c => [c]) w)
  = find_index (fun c => mem c ACCENTED_VOWELS) w.
Proof.
  induction w as [|c w IH]; [reflexivity|]. cbn [map find_index].
  rewrite IH. unfold accented. cbn [existsb]. now rewrite orb_false_r.
Qed.

Lemma py_not_find_index (w : str) :
  py_not (find_index (fun c => mem c ACCENTED_VOWELS) w)
  = negb (accented w) || first_in w ACCENTED_VOWELS.
Proof.
  unfold accented. destruct w as [|c w]; [reflexivity|].
  cbn [find_index existsb first_in].
  destruct (mem c ACCENTED_VOWELS); [reflexivity|].
  rewrite find_index_existsb. cbn [orb].
  destruct (find_index _ w); reflexivity.
Qed.

Lemma is_paroxytone_spec (syllables : list str) :
  Forall bar_free syllables ->
  is_paroxytone syllables
  = match rev syllables with
    | final :: _ =>
      if negb (accented (concat syllables))
         || first_in (concat syllables) ACCENTED_VOWELS
      then Ret (ends_paroxytone final)
      else Ret false
    | [] => Raise IndexError
    end.
Proof.
  intro B. unfold is_paroxytone. rewrite join_nil.
  rewrite get_orthographic_accent_find.
  - rewrite find_index_singletons, py_not_find_index.
    destruct (rev syllables) as [|final front] eqn:R.
    + apply (f_equal (@rev str)) in R. rewrite rev_involutive in R.
      subst syllables. reflexivity.
    + unfold re_search. rewrite <- (paroxytone_search final 0).
      destruct (negb _ || _); [|reflexivity].
      now destruct (search_from paroxytone_re 0 final).
  - apply Forall_map.
    assert (C : Forall (fun c => char_eqb c BAR = false) (concat syllables)).
    { apply Forall_concat. eapply Forall_impl; [|exact B].
      intros s Hs. now apply mem_false_iff. }
    eapply Forall_impl; [|exact C].
    intros c Hc. apply mem_false_iff. now constructor.
Qed.

Lemma find_index_some {A} (p : A -> bool) (l : list A) : forall i,
  find_index p l = Some i ->
  exists a,
    nth_error l i = Some a /\ p a = true
    /\ Forall (fun t => p t = false) (firstn i l).
Proof.
  induction l as [|x l IH]; intros i H; [discriminate|].
  cbn [find_index] in H. destruct (p x) eqn:Px.
  - injection H as <-. exists x. now repeat split.
  - destruct (find_index p l) as [k|]; [|discriminate]. injection H as <-.
    destruct (IH k eq_refl) as (a & N & Pa & F). exists a.
    split; [exact N|]. split; [exact Pa|]. cbn [firstn]. now constructor.
Qed.

Lemma accented_concat (l : list str) :
  accented (concat l) = existsb accented l.
Proof.
  unfold accented. induction l as [|s l IH]; [reflexivity|].
  cbn [concat existsb]. now rewrite existsb_app, IH.
Qed.

(** X9.  [get_orthographic_accent] gives the index of the first syllable
    that holds a vowel with a written accent, in either case, and nothing
    when the word has no such vowel: the syllable at the index holds an
    accented vowel, and none of the syllables before it does. *)
Theorem get_orthographic_accent_first (syllable_list : list str) :
  Forall bar_free syllable_list ->
  get_orthographic_accent syllable_list = find_index accented syllable_list
  /\ (get_orthographic_accent syllable_list = None
      <-> accented (concat syllable_list) = false)
  /\ forall i,
       get_orthographic_accent syllable_list = Some i ->
       exists s,
         nth_error syllable_list i = Some s /\ accented s = true
         /\ Forall (fun t => accented t = false) (firstn i syllable_list).
Proof.
  intro B. rewrite (get_orthographic_accent_find B).
  split; [reflexivity|]. split.
  - rewrite accented_concat, find_index_existsb.
    destruct (find_index accented syllable_list); split; easy.
  - apply find_index_some.
Qed.

Lemma get_orthographic_accent_first_witness :
  get_orthographic_accent [u "can"; u "TÁ"; u "ba"; u "mos"] = Some 1.
Proof.
  destruct (@get_orthographic_accent_first
              [u "can"; u "TÁ"; u "ba"; u "mos"]) as [E _].
  - repeat constructor.
  - rewrite E. reflexivity.
Defined.

(** X10.  [is_paroxytone] raises [IndexError] on the empty list. On a list
    that ends in the syllable [final] it answers whether the word has the
    ending of a paroxytone word, provided that the word has no written
    accent, or has one on its very first character: the index 0 of that
    accent counts as no accent. With a written accent anywhere else the
    answer is false. *)
Theorem is_paroxytone_rule (syllables : list str) :
  Forall bar_free syllables ->
  (syllables = [] -> is_paroxytone syllables = Raise IndexError)
  /\ (forall front final,
        syllables = front ++ [final] ->
        is_paroxytone syllables
        = Ret ((negb (accented (concat syllables))
                || first_in (concat syllables) ACCENTED_VOWELS)
               && ends_paroxytone final)).
Proof.
  intro B. rewrite (is_paroxytone_spec B). split.
  - now intros ->.
  - intros front final ->. rewrite rev_app_distr. cbn [rev app].
    now destruct (negb _ || _).
Qed.

Lemma is_paroxytone_rule_witness :
  is_paroxytone [u "can"; u "tan"] = Ret true
  /\ is_paroxytone [u "é"; u "ti"; u "co"] = Ret true
  /\ is_paroxytone [u "can"; u "tó"] = Ret false.
Proof.
  split; [|split].
  - destruct (@is_paroxytone_rule [u "can"; u "tan"]) as [_ R];
      [repeat constructor|].
    now rewrite (R [u "can"] (u "tan") eq_refl).
  - destruct (@is_paroxytone_rule [u "é"; u "ti"; u "co"]) as [_ R];
      [repeat constructor|].
    now rewrite (R [u "é"; u "ti"] (u "co") eq_refl).
  - destruct (@is_paroxytone_rule [u "can"; u "tó"]) as [_ R];
      [repeat constructor|].
    now rewrite (R [u "can"] (u "tó") eq_refl).
Defined.

Section StressRule.

Variable V : Type.
Variable SYLLABIFICATOR_FOREIGN_WORDS_DICT : str -> option str.
Variable ALTERNATIVE_SYLLABIFICATION : str -> option (V * list (variant V)).

(** X11.  A word of two syllables or more that is an interjection, a proper
    noun, a numeral, a noun, a verb, an auxiliary or an adverb is stressed
    on one syllable, whatever its tag: the first syllable with a written
    accent; without a written accent, the last syllable but one when the
    last syllable ends in a vowel, in [n] or in [s] after a vowel, and the
    last syllable otherwise. The stress position is the negative index of
    that syllable. *)
Theorem get_word_stress_rule
        (word pos : str) (tag : dict) (alternative_syllabification : bool)
        (syllable_list : list str) (alternatives : alternatives V) :
  syllabify SYLLABIFICATOR_FOREIGN_WORDS_DICT ALTERNATIVE_SYLLABIFICATION
            word alternative_syllabification
  = Ret (syllable_list, alternatives) ->
  Forall bar_free syllable_list ->
  2 <= length syllable_list ->
  ins pos ["INTJ"; "PROPN"; "NUM"; "NOUN"; "VERB"; "AUX"; "ADV"] = true ->
  stressed_syllable syllable_list < length syllable_list
  /\ exists out,
       get_word_stress SYLLABIFICATOR_FOREIGN_WORDS_DICT
                       ALTERNATIVE_SYLLABIFICATION
                       word pos tag alternative_syllabification
       = Ret (Word out (Z.of_nat (stressed_syllable syllable_list)
                        - Z.of_nat (length syllable_list))%Z)
       /\ map text out = syllable_list
       /\ forall i s,
            nth_error out i = Some s ->
            is_stressed s = (i =? stressed_syllable syllable_list).
Proof.
  intros E B L P.
  assert (K : stressed_syllable syllable_list < length syllable_list).
  { unfold stressed_syllable.
    destruct (find_index accented syllable_list) as [i|] eqn:F.
    - now apply find_index_lt in F.
    - destruct (ends_paroxytone _); lia. }
  split; [exact K|].
  unfold get_word_stress. rewrite E. cbn [bind].
  replace (Nat.eqb (length syllable_list) 1) with false
    by (symmetry; apply Nat.eqb_neq; lia).
  rewrite P. cbn [orb].
  assert (S : match get_orthographic_accent syllable_list with
              | Some tilde =>
                Ret (- (Z.of_nat (length syllable_list) - Z.of_nat tilde))%Z
              | None =>
                paroxytone <- is_paroxytone syllable_list ;;
                if paroxytone then Ret (-2)%Z else Ret (-1)%Z
              end
              = Ret (Z.of_nat (stressed_syllable syllable_list)
                     - Z.of_nat (length syllable_list))%Z).
  { rewrite (get_orthographic_accent_find B), (is_paroxytone_spec B).
    unfold stressed_syllable.
    destruct (find_index accented syllable_list) as [i|] eqn:F.
    - f_equal. lia.
    - rewrite accented_concat, find_index_existsb, F. cbn [negb orb].
      assert (N : syllable_list <> []) by (destruct syllable_list; easy).
      destruct (exists_last N) as (front & final & ->).
      rewrite rev_app_distr, last_last. cbn [rev app bind].
      destruct (ends_paroxytone final); f_equal; lia. }
  rewrite S. cbn [bind].
  destruct (stress_syllables_spec
              (length syllable_list)
              (Z.of_nat (stressed_syllable syllable_list)
               - Z.of_nat (length syllable_list))%Z syllable_list 0)
    as [T F].
  eexists. split; [reflexivity|]. split; [exact T|].
  intros i s H. rewrite (F _ _ H). cbn [Nat.add].
  assert (I : i < length syllable_list).
  { rewrite <- T at 1. rewrite length_map. apply nth_error_Some.
    now rewrite H. }
  destruct (Nat.eqb_spec i (stressed_syllable syllable_list)) as [->|Ne].
  - apply Z.eqb_eq. lia.
  - apply Z.eqb_neq. lia.
Qed.

End StressRule.

Lemma get_word_stress_rule_witness :
  exists out,
    get_word_stress no_foreign_words no_alternatives
                    (u "cantaban") (u "VERB") [] true
    = Ret (Word out (-2)%Z)
    /\ map text out = [u "can"; u "ta"; u "ban"].
Proof.
  destruct (@get_word_stress_rule
              unit no_foreign_words no_alternatives
              (u "cantaban") (u "VERB") [] true
              [u "can"; u "ta"; u "ban"] (Variants []))
    as (_ & out & E & T & _).
  - vm_compute. reflexivity.
  - repeat constructor.
  - cbn. lia.
  - reflexivity.
  - exists out. split; [exact E | exact T].
Defined.

(** ** The words of a line *)

Lemma Forall2_rev {A B} (R : A -> B -> Prop) (l : list A) (l' : list B) :
  Forall2 R l l' -> Forall2 R (rev l) (rev l').
Proof.
  induction 1 as [|a b l l' Hab _ IH]; [constructor|].
  cbn [rev]. apply Forall2_app; [exact IH|]. now repeat constructor.
Qed.

Lemma on_last_snoc {A} (g : A -> A) (front : list A) (a : A) :
  on_last g (front ++ [a]) = front ++ [g a].
Proof.
  unfold on_last. rewrite rev_app_distr. cbn [rev app].
  now rewrite rev_involutive.
Qed.

Lemma on_last_idempotent {A} (g : A -> A) (l : list A) :
  (forall a, g (g a) = g a) -> on_last g (on_last g l) = on_last g l.
Proof.
  intro G. destruct l as [|x l0] eqn:E; [reflexivity|]. rewrite <- E.
  assert (N : l <> []) by (rewrite E; discriminate).
  destruct (exists_last N) as (front & a & ->).
  now rewrite !on_last_snoc, G.
Qed.

Section WordsOfTokens.

Variable V : Type.
Variable SYLLABIFICATOR_FOREIGN_WORDS_DICT : str -> option str.
Variable ALTERNATIVE_SYLLABIFICATION : str -> option (V * list (variant V)).
Variable alternative_syllabification : bool.

Lemma update_last_syllable_rev_analysed
      (tokens : list Token.t) (reversed : list word_token) :
  Forall2 (analysed SYLLABIFICATOR_FOREIGN_WORDS_DICT
                    ALTERNATIVE_SYLLABIFICATION
                    alternative_syllabification) tokens reversed ->
  Forall2 (analysed SYLLABIFICATOR_FOREIGN_WORDS_DICT
                    ALTERNATIVE_SYLLABIFICATION
                    alternative_syllabification)
          tokens (update_last_syllable_rev reversed).
Proof.
  induction 1 as [|token w tokens reversed Hw Hr IH]; [constructor|].
  destruct w as [word p|s]; cbn [update_last_syllable_rev].
  - constructor; [|exact Hr].
    destruct Hw as (Al & pos & tags & out & G & N & [->| ->]).
    + split; [exact Al|]. exists pos, tags, out. auto.
    + split; [exact Al|]. exists pos, tags, out.
      split; [exact G|]. split; [exact N|]. right.
      apply on_last_idempotent. intro a. reflexivity.
  - constructor; [exact Hw | exact IH].
Qed.

Lemma update_last_syllable_analysed
      (tokens : list Token.t) (words : list word_token) :
  Forall2 (analysed SYLLABIFICATOR_FOREIGN_WORDS_DICT
                    ALTERNATIVE_SYLLABIFICATION
                    alternative_syllabification) tokens words ->
  Forall2 (analysed SYLLABIFICATOR_FOREIGN_WORDS_DICT
                    ALTERNATIVE_SYLLABIFICATION
                    alternative_syllabification)
          tokens (update_last_syllable words).
Proof.
  intro H. unfold update_last_syllable.
  rewrite <- (rev_involutive tokens). apply Forall2_rev.
  apply update_last_syllable_rev_analysed. now apply Forall2_rev.
Qed.

Lemma get_words_step_analysed
      (seen : list Token.t) (W : list word_token) (token : Token.t)
      (W' : list word_token) :
  Forall2 (analysed SYLLABIFICATOR_FOREIGN_WORDS_DICT
                    ALTERNATIVE_SYLLABIFICATION
                    alternative_syllabification) seen W ->
  get_words_step SYLLABIFICATOR_FOREIGN_WORDS_DICT
                 ALTERNATIVE_SYLLABIFICATION
                 alternative_syllabification W token = Ret W' ->
  Forall2 (analysed SYLLABIFICATOR_FOREIGN_WORDS_DICT
                    ALTERNATIVE_SYLLABIFICATION
                    alternative_syllabification) (seen ++ [token]) W'.
Proof.
  intros P H. unfold get_words_step in H.
  destruct (Token.is_alpha token) eqn:Al.
  - apply bind_Ret in H as ([pos tag] & _ & H).
    apply bind_Ret in H as (tags & _ & H).
    apply bind_Ret in H as (stressed & G & H).
    destruct (get_word_stress_final G) as (out & p & -> & _).
    apply bind_Ret in H as (first_syllable & _ & H).
    apply bind_Ret in H as (second_syllable & I & H).
    apply bind_Ret in H as (marked & M & H). injection H as <-.
    assert (N : out <> []).
    { intros ->. discriminate I. }
    apply Forall2_app.
    + destruct first_syllable as [first_syllable|];
        [|now injection M as <-].
      apply bind_Ret in M as (liaison & _ & M). injection M as <-.
      destruct liaison; [|exact P].
      now apply update_last_syllable_analysed.
    + constructor; [|constructor]. split; [exact Al|].
      exists pos, tags, out. auto.
  - injection H as <-. apply Forall2_app; [exact P|].
    constructor; [|constructor]. now split.
Qed.

Lemma get_words_from_analysed (tokens : list Token.t) :
  forall (seen : list Token.t) (W W' : list word_token),
    Forall2 (analysed SYLLABIFICATOR_FOREIGN_WORDS_DICT
                      ALTERNATIVE_SYLLABIFICATION
                      alternative_syllabification) seen W ->
    get_words_from SYLLABIFICATOR_FOREIGN_WORDS_DICT
                   ALTERNATIVE_SYLLABIFICATION
                   alternative_syllabification W tokens = Ret W' ->
    Forall2 (analysed SYLLABIFICATOR_FOREIGN_WORDS_DICT
                      ALTERNATIVE_SYLLABIFICATION
                      alternative_syllabification) (seen ++ tokens) W'.
Proof.
  induction tokens as [|token tokens IH]; intros seen W W' P H;
    cbn [get_words_from] in H.
  - injection H as <-. now rewrite app_nil_r.
  - apply bind_Ret in H as (W1 & S1 & H).
    change (token :: tokens) with ([token] ++ tokens).
    rewrite app_assoc. eapply IH; [|exact H].
    eapply get_words_step_analysed; eauto.
Qed.

Lemma get_words_analysed (tokens : list Token.t) (words : list word_token) :
  get_words SYLLABIFICATOR_FOREIGN_WORDS_DICT ALTERNATIVE_SYLLABIFICATION
            tokens alternative_syllabification = Ret words ->
  Forall2 (analysed SYLLABIFICATOR_FOREIGN_WORDS_DICT
                    ALTERNATIVE_SYLLABIFICATION
                    alternative_syllabification) tokens words.
Proof.
  intro H. apply (@get_words_from_analysed tokens [] [] words); [constructor|].
  exact H.
Qed.

(** X12.  [get_words] returns one element for each token, in the order of
    the tokens: for a token that is not alphabetic the symbol with its text,
    and for an alphabetic token the word that [get_word_stress] makes of its
    text, of one syllable at least, either as it was returned or with the
    flag of the synalepha set on its last syllable. *)
Theorem get_words_token_by_token
        (tokens : list Token.t) (words : list word_token) :
  get_words SYLLABIFICATOR_FOREIGN_WORDS_DICT ALTERNATIVE_SYLLABIFICATION
            tokens alternative_syllabification = Ret words ->
  length words = length tokens
  /\ Forall2 (analysed SYLLABIFICATOR_FOREIGN_WORDS_DICT
                       ALTERNATIVE_SYLLABIFICATION
                       alternative_syllabification) tokens words
  /\ map is_word words = map Token.is_alpha tokens.
Proof.
  intro H. apply get_words_analysed in H.
  split; [symmetry; exact (Forall2_length H)|]. split; [exact H|].
  induction H as [|token w tokens words Hw _ IH]; [reflexivity|].
  cbn [map]. rewrite IH. f_equal.
  destruct w as [word p|s]; cbn [is_word]; symmetry; apply Hw.
Qed.

Lemma stress_syllables_flags len p (l : list str) : forall idx,
  Forall (fun s => has_synalepha s = None /\ is_word_end s = None)
         (stress_syllables len p idx l).
Proof.
  induction l as [|x l IH]; intro idx; [constructor|].
  cbn [stress_syllables]. constructor; [|apply IH].
  destruct l as [|y l]; [now split|].
  now destruct (sinaeresis_between x y).
Qed.

Lemma get_word_stress_flags word pos tag out p :
  get_word_stress SYLLABIFICATOR_FOREIGN_WORDS_DICT
                  ALTERNATIVE_SYLLABIFICATION
                  word pos tag alternative_syllabification
  = Ret (Word out p) ->
  Forall (fun s => has_synalepha s = None /\ is_word_end s = None) out
  /\ unflagged (final out).
Proof.
  unfold get_word_stress. intro H.
  apply bind_Ret in H as ([l alts] & _ & H).
  apply bind_Ret in H as (q & _ & H). injection H as <- <-.
  split; [apply stress_syllables_flags | apply stress_syllables_final].
Qed.

(** X13.  In the syllables of a line that [get_words] built, as
    [get_syllables_word_end] returns them, the flag of the synalepha is on
    syllables that end a word only, and the flag of the sinaeresis on
    syllables inside a word only: no syllable carries both. *)
Theorem liaison_flags_exclusive
        (tokens : list Token.t) (words : list word_token) :
  get_words SYLLABIFICATOR_FOREIGN_WORDS_DICT ALTERNATIVE_SYLLABIFICATION
            tokens alternative_syllabification = Ret words ->
  Forall well_flagged (snd (get_syllables_word_end words))
  /\ Forall (fun s => has_synalepha s = None \/ has_sinaeresis s = None)
            (snd (get_syllables_word_end words)).
Proof.
  intro H. apply get_words_analysed in H.
  assert (W : Forall well_flagged (snd (get_syllables_word_end words))).
  { cbn [get_syllables_word_end snd].
    induction H as [|token w tokens words Hw _ IH]; [constructor|].
    cbn [flat_map]. apply Forall_app. split; [|exact IH].
    destruct w as [word p|s]; [|constructor].
    destruct Hw as (_ & pos & tags & out & G & N & E).
    apply get_word_stress_flags in G as [F [_ U]].
    destruct (exists_last N) as (front & z & ->).
    apply Forall_app in F as [F _]. unfold final in U.
    rewrite last_last in U. unfold mark_word_end.
    assert (E' : word = front ++ [z]
                 \/ word = front
                           ++ [set_has_liaison synalepha (Some true) z]).
    { destruct E as [->| ->]; [now left|right]. apply on_last_snoc. }
    assert (Fw : Forall well_flagged front).
    { eapply Forall_impl; [|exact F]. intros s [Sy We].
      unfold well_flagged. now rewrite We. }
    destruct E' as [->| ->]; rewrite on_last_snoc; apply Forall_app;
      (split; [exact Fw|]); constructor; try constructor; exact U. }
  split; [exact W|].
  eapply Forall_impl; [|exact W]. intros s. unfold well_flagged.
  destruct (is_word_end s); auto.
Qed.

End WordsOfTokens.

Lemma get_words_token_by_token_witness :
  exists words,
    get_words no_foreign_words no_alternatives
              [alpha "lee" "VERB"; Token.mk (u ",") false (u "PUNCT") [];
               alpha "a" "ADP"] true = Ret words
    /\ map is_word words = [true; false; true].
Proof.
  eexists. split; [vm_compute; reflexivity|].
  match goal with
  | |- map is_word ?w = _ =>
    destruct (@get_words_token_by_token
                unit no_foreign_words no_alternatives true
                [alpha "lee" "VERB"; Token.mk (u ",") false (u "PUNCT") [];
                 alpha "a" "ADP"] w) as (_ & _ & M);
      [vm_compute; reflexivity | exact M]
  end.
Defined.

Lemma liaison_flags_exclusive_witness :
  exists words,
    get_words no_foreign_words no_alternatives lee_a_casa true = Ret words
    /\ Forall well_flagged (snd (get_syllables_word_end words)).
Proof.
  eexists. split; [vm_compute; reflexivity|].
  match goal with
  | |- Forall _ (snd (get_syllables_word_end ?w)) =>
    destruct (@liaison_flags_exclusive
                unit no_foreign_words no_alternatives true lee_a_casa w)
      as (F & _); [vm_compute; reflexivity | exact F]
  end.
Defined.

(** ** The lines of a text *)

Lemma split_lines_from (tokens : list Token.t) : forall seen,
  Forall (fun t => line_break t = false) (tl seen) ->
  Forall (fun l => l <> []
                   /\ Forall (fun t => line_break t = false) (tl l))
         (split_lines seen tokens)
  /\ filter in_line (concat (split_lines seen tokens))
     = filter in_line (seen ++ tokens).
Proof.
  induction tokens as [|token rest IH]; intros seen S; cbn [split_lines].
  - destruct seen as [|t seen]; cbn [length Nat.ltb Nat.leb].
    + split; [constructor | reflexivity].
    + split; [constructor; [split; [discriminate | exact S] | constructor]|].
      cbn [concat]. now rewrite !app_nil_r.
  - fold (line_break token).
    destruct (line_break token && (0 <? length seen)) eqn:C.
    + apply andb_true_iff in C as [B L].
      destruct (IH [] (Forall_nil _)) as [F E]. split.
      * constructor; [|exact F]. split; [|exact S].
        intros ->. discriminate L.
      * cbn [concat]. rewrite !filter_app, E. cbn [app filter].
        unfold in_line at 4. now rewrite B.
    + assert (S' : Forall (fun t => line_break t = false)
                          (tl (seen ++ [token]))).
      { destruct seen as [|t seen]; [constructor|]. cbn [app tl] in *.
        apply Forall_app. split; [exact S|]. constructor; [|constructor].
        cbn in C. now rewrite andb_true_r in C. }
      destruct (IH _ S') as [F E]. split; [exact F|].
      now rewrite E, <- app_assoc.
Qed.

(** X14.  The lines of a text. No line is empty. A token that ends a line
    opens the next one when no token came before it on its line, so that in
    a line only the first token can be a line break; the other line breaks
    are dropped. Every other token is kept, in the order of the text. A text
    without line break is one line, and the empty text has no line. *)
Theorem split_lines_spec (text : list Token.t) :
  Forall (fun l => l <> []
                   /\ Forall (fun t => line_break t = false) (tl l))
         (split_lines [] text)
  /\ filter in_line (concat (split_lines [] text)) = filter in_line text
  /\ (existsb line_break text = false ->
      split_lines [] text = match text with [] => [] | _ => [text] end)
  /\ length (split_lines [] text) <= length text.
Proof.
  destruct (@split_lines_from text [] (Forall_nil _)) as [F E].
  split; [exact F|]. split; [exact E|]. split.
  - intro N. clear F E.
    assert (G : forall seen,
               split_lines seen text
               = if Nat.ltb 0 (length (seen ++ text))
                 then [seen ++ text] else []).
    { induction text as [|token rest IH]; intro seen; cbn [split_lines].
      - now rewrite app_nil_r.
      - cbn [existsb] in N. apply orb_false_iff in N as [B N].
        fold (line_break token). rewrite B. cbn [andb].
        rewrite (IH N), <- app_assoc. reflexivity. }
    rewrite (G []). now destruct text.
  - assert (G : forall seen,
               length (split_lines seen text)
               <= length text + (if Nat.ltb 0 (length seen) then 1 else 0)).
    { clear. induction text as [|token rest IH]; intro seen;
        cbn [split_lines].
      - destruct (0 <? length seen); cbn; lia.
      - destruct (_ && _ && _) eqn:C.
        + apply andb_true_iff in C as [_ ->]. cbn [length].
          specialize (IH []). cbn in IH. lia.
        + specialize (IH (seen ++ [token])). rewrite length_app in IH.
          cbn [length] in *.
          replace (0 <? length seen + 1) with true in IH
            by (symmetry; apply Nat.ltb_lt; lia).
          destruct (0 <? length seen) eqn:L; [lia|].
          apply Nat.ltb_ge in L. lia. }
    specialize (G []). cbn in G. lia.
Qed.

(** ** The lines of the result *)

Lemma mapM_Forall2 {A B} (f : A -> outcome B) (l : list A) : forall l',
  mapM f l = Ret l' -> Forall2 (fun a b => f a = Ret b) l l'.
Proof.
  induction l as [|a l IH]; intros l' H; cbn [mapM] in H.
  - injection H as <-. constructor.
  - apply bind_Ret in H as (b & Hb & H).
    apply bind_Ret in H as (bs & Hbs & H). injection H as <-.
    constructor; [exact Hb | now apply IH].
Qed.

Lemma mapM_indexed_Forall2 {A B} (f : nat -> A -> outcome B) (l : list A) :
  forall idx l',
    mapM_indexed f idx l = Ret l' ->
    Forall2 (fun a b => exists i, f i a = Ret b) l l'.
Proof.
  induction l as [|a l IH]; intros idx l' H; cbn [mapM_indexed] in H.
  - injection H as <-. constructor.
  - apply bind_Ret in H as (b & Hb & H).
    apply bind_Ret in H as (bs & Hbs & H). injection H as <-.
    constructor; [eauto | now apply (IH (S idx))].
Qed.

Lemma Forall2_compose {A B C} (R : A -> B -> Prop) (S : B -> C -> Prop)
      (T : A -> C -> Prop) (l1 : list A) (l2 : list B) :
  (forall a b c, R a b -> S b c -> T a c) ->
  Forall2 R l1 l2 -> forall l3, Forall2 S l2 l3 -> Forall2 T l1 l3.
Proof.
  intros Step H. induction H as [|a b l1 l2 Hab _ IH]; intros l3 H3.
  - inversion H3. constructor.
  - inversion H3 as [|? c ? l3' Hbc H3']; subst.
    constructor; [eauto | now apply IH].
Qed.

Section Lines.

Variable V : Type.
Variable SYLLABIFICATOR_FOREIGN_WORDS_DICT : str -> option str.
Variable ALTERNATIVE_SYLLABIFICATION : str -> option (V * list (variant V)).
Variable analyze_rhyme : list (line V) -> option (rhyme_result V).
Variable STRUCTURES_LENGTH : str -> option (list Z).

Lemma natural_line_scanned (rhythm_format : str) (raw : list Token.t)
      (words : list word_token) (l : line V) :
  get_words SYLLABIFICATOR_FOREIGN_WORDS_DICT ALTERNATIVE_SYLLABIFICATION
            raw true = Ret words ->
  natural_line V rhythm_format words = Ret l ->
  scanned SYLLABIFICATOR_FOREIGN_WORDS_DICT ALTERNATIVE_SYLLABIFICATION
          rhythm_format raw l
  /\ rhyme_analysis_keys l = None.
Proof.
  intros W H. unfold natural_line in H.
  destruct (get_syllables_word_end words) as [words' syllables] eqn:E.
  apply bind_Ret in H as (inner & _ & H).
  apply bind_Ret in H as (groups & _ & H).
  apply bind_Ret in H as (rhythm & R & H). injection H as <-.
  split; [|reflexivity]. split; [|exact R].
  exists words. split; [exact W|]. now rewrite E.
Qed.

Lemma add_rhyme_scanned (rhythm_format : str) (raw : list Token.t)
      (rhyme : rhyme_result V) (idx : nat) (l l' : line V) :
  scanned SYLLABIFICATOR_FOREIGN_WORDS_DICT ALTERNATIVE_SYLLABIFICATION
          rhythm_format raw l ->
  add_rhyme rhyme idx l = Ret l' ->
  scanned SYLLABIFICATOR_FOREIGN_WORDS_DICT ALTERNATIVE_SYLLABIFICATION
          rhythm_format raw l'.
Proof.
  intros S H. unfold add_rhyme in H.
  apply bind_Ret in H as (r & _ & H).
  apply bind_Ret in H as (e & _ & H).
  apply bind_Ret in H as (s & _ & H). injection H as <-. exact S.
Qed.

Lemma first_fit_found (rhythm_format : str) (expected : Z)
      (candidates : generator (list Syllable)) :
  forall candidate rhythm,
    first_fit rhythm_format expected candidates
    = Ret (Some (candidate, rhythm)) ->
    get_rhythmical_pattern candidate rhythm_format = Ret rhythm
    /\ length_ rhythm = expected
    /\ In (Ret candidate) candidates.
Proof.
  induction candidates as [|next rest IH]; intros candidate rhythm H;
    cbn [first_fit] in H; [discriminate|].
  apply bind_Ret in H as (c & -> & H).
  apply bind_Ret in H as (r & R & H).
  destruct (Z.eqb_spec (length_ r) expected) as [L|_].
  - injection H as <- <-. split; [exact R|]. split; [exact L|]. now left.
  - destruct (IH _ _ H) as (R' & L' & I).
    split; [exact R'|]. split; [exact L'|]. now right.
Qed.

Lemma fit_line_scanned (rhythm_format : str)
      (rhythmical_lengths : option (list Z))
      (raw_tokens : list (list Token.t)) (raw : list Token.t)
      (idx : nat) (l l' : line V) :
  scanned SYLLABIFICATOR_FOREIGN_WORDS_DICT ALTERNATIVE_SYLLABIFICATION
          rhythm_format raw l ->
  fit_line SYLLABIFICATOR_FOREIGN_WORDS_DICT ALTERNATIVE_SYLLABIFICATION
           STRUCTURES_LENGTH rhythm_format rhythmical_lengths raw_tokens
           idx l = Ret l' ->
  scanned SYLLABIFICATOR_FOREIGN_WORDS_DICT ALTERNATIVE_SYLLABIFICATION
          rhythm_format raw l'
  /\ rhyme_analysis_keys l' = rhyme_analysis_keys l
  /\ (length_ (line_rhythm l) <= length_ (line_rhythm l'))%Z.
Proof.
  intros S H. unfold fit_line in H.
  destruct (structure_length_of STRUCTURES_LENGTH rhythmical_lengths l)
    as [structure_length|];
    [|injection H as <-; split; [exact S|split; [reflexivity|lia]]].
  apply bind_Ret in H as (expected & _ & H).
  destruct (Z.ltb_spec (length_ (line_rhythm l)) expected) as [Lt|_];
    [|injection H as <-; split; [exact S|split; [reflexivity|lia]]].
  apply bind_Ret in H as (tokens_of_line & _ & H).
  apply bind_Ret in H as (found_candidate & F & H).
  destruct found_candidate as [[candidate rhythm]|];
    [|injection H as <-; split; [exact S|split; [reflexivity|lia]]].
  injection H as <-. apply first_fit_found in F as (R & L & _).
  cbn [line_rhythm rhyme_analysis_keys].
  split; [|split; [reflexivity|lia]].
  destruct S as [T _]. split; [exact T | exact R].
Qed.

(** X15.  [get_scansion] returns one line for each line of the text, in
    order. The tokens of a line of the result are the words of the tokens of
    the line of the text, with alternative syllabification; the rhythm is
    the rhythm of the phonological groups of the line, in the format asked
    for, also when the groups were replaced by a candidate of the search.
    Without rhyme analysis no line has the keys of a rhyme. *)
Theorem get_scansion_line_by_line
        (text : list Token.t) (rhyme_analysis : bool) (rhythm_format : str)
        (rhythmical_lengths : option (list Z)) (lines : list (line V)) :
  get_scansion SYLLABIFICATOR_FOREIGN_WORDS_DICT ALTERNATIVE_SYLLABIFICATION
               analyze_rhyme STRUCTURES_LENGTH
               text rhyme_analysis rhythm_format rhythmical_lengths
  = Ret lines ->
  length lines = length (split_lines [] text)
  /\ Forall2 (scanned SYLLABIFICATOR_FOREIGN_WORDS_DICT
                      ALTERNATIVE_SYLLABIFICATION rhythm_format)
             (split_lines [] text) lines
  /\ (rhyme_analysis = false ->
      Forall (fun l => rhyme_analysis_keys l = None) lines).
Proof.
  intro H. unfold get_scansion in H.
  apply bind_Ret in H as (words & W & H).
  apply bind_Ret in H as (natural & N & H).
  apply bind_Ret in H as (rhymed & R & H).
  apply mapM_Forall2 in W. apply mapM_Forall2 in N.
  apply mapM_indexed_Forall2 in H.
  assert (S0 : Forall2 (fun raw l =>
                          scanned SYLLABIFICATOR_FOREIGN_WORDS_DICT
                                  ALTERNATIVE_SYLLABIFICATION
                                  rhythm_format raw l
                          /\ rhyme_analysis_keys l = None)
                       (split_lines [] text) natural).
  { eapply Forall2_compose; [|exact W|exact N].
    intros raw w l. apply natural_line_scanned. }
  assert (S1 : Forall2 (fun raw l =>
                          scanned SYLLABIFICATOR_FOREIGN_WORDS_DICT
                                  ALTERNATIVE_SYLLABIFICATION
                                  rhythm_format raw l
                          /\ (rhyme_analysis = false ->
                              rhyme_analysis_keys l = None))
                       (split_lines [] text) rhymed).
  { destruct rhyme_analysis.
    - destruct (analyze_rhyme natural) as [rhyme|].
      + apply mapM_indexed_Forall2 in R.
        eapply Forall2_compose; [|exact S0|exact R].
        intros raw l l' [S _] [i A]. split; [|discriminate].
        eapply add_rhyme_scanned; eauto.
      + injection R as <-. eapply Forall2_impl; [|exact S0].
        intros raw l [S _]. split; [exact S | discriminate].
    - injection R as <-. eapply Forall2_impl; [|exact S0].
      intros raw l [S K]. split; [exact S | now intros _]. }
  assert (S2 : Forall2 (fun raw l =>
                          scanned SYLLABIFICATOR_FOREIGN_WORDS_DICT
                                  ALTERNATIVE_SYLLABIFICATION
                                  rhythm_format raw l
                          /\ (rhyme_analysis = false ->
                              rhyme_analysis_keys l = None))
                       (split_lines [] text) lines).
  { eapply Forall2_compose; [|exact S1|exact H].
    intros raw l l' [S K] [i F].
    destruct (fit_line_scanned S F) as (S' & K' & _).
    split; [exact S'|]. intro E. rewrite K'. now apply K. }
  split; [symmetry; exact (Forall2_length S2)|]. split.
  - eapply Forall2_impl; [|exact S2]. now intros raw l [S _].
  - intro E. clear - S2 E.
    induction S2 as [|raw l raws ls [_ K] _ IH]; constructor; auto.
Qed.

End Lines.

Lemma get_scansion_line_by_line_witness :
  exists lines,
    get_scansion no_foreign_words no_alternatives no_rhymes no_structures
                 lee_a_casa false PATTERN (Some [3%Z]) = Ret lines
    /\ length lines = 1.
Proof.
  eexists. split; [vm_compute; reflexivity|].
  match goal with
  | |- length ?l = 1 =>
    destruct (@get_scansion_line_by_line
                unit no_foreign_words no_alternatives no_rhymes
                no_structures lee_a_casa false PATTERN (Some [3%Z]) l)
      as (L & _); [vm_compute; reflexivity | exact L]
  end.
Defined.

(** ** What the syllabifier returns and raises *)

Lemma split_aux_parts (sep : char) (s : str) : forall cur,
  mem sep cur = false ->
  Forall (fun p => mem sep p = false) (split_aux sep cur s).
Proof.
  induction s as [|c s IH]; intros cur H; cbn [split_aux].
  - constructor; [|constructor]. unfold mem in *.
    now rewrite existsb_rev.
  - destruct (char_eqb c sep) eqn:C.
    + constructor; [|now apply IH]. unfold mem in *.
      now rewrite existsb_rev.
    + apply IH. cbn. unfold char_eqb in *. now rewrite N.eqb_sym, C.
Qed.

Lemma syllables_of_hyphenated (hyphenated : str) :
  Forall (fun s => s <> [] /\ mem HYPHEN s = false)
         (filter nonempty (split HYPHEN hyphenated)).
Proof.
  pose proof (@split_aux_parts HYPHEN hyphenated [] eq_refl) as F.
  fold (split HYPHEN hyphenated) in F.
  induction F as [|p l Hp _ IH]; [constructor|].
  cbn [filter]. destruct p as [|c p]; [exact IH|].
  cbn [nonempty]. constructor; [|exact IH]. split; [discriminate|exact Hp].
Qed.

Section SyllabifyOutcome.

Variable V : Type.
Variable SYLLABIFICATOR_FOREIGN_WORDS_DICT : str -> option str.
Variable ALTERNATIVE_SYLLABIFICATION : str -> option (V * list (variant V)).

Lemma syllabify_shape (word : str) (alternative_syllabification : bool) :
  (alternative_syllabification = true ->
   ALTERNATIVE_SYLLABIFICATION (lower word) = None) ->
  exists syllables,
    syllabify SYLLABIFICATOR_FOREIGN_WORDS_DICT ALTERNATIVE_SYLLABIFICATION
              word alternative_syllabification
    = Ret (syllables,
           Variants match ALTERNATIVE_SYLLABIFICATION word with
                    | Some entry => snd entry
                    | None => []
                    end)
    /\ Forall (fun s => s <> [] /\ mem HYPHEN s = false) syllables.
Proof.
  intro A. unfold syllabify.
  assert (E : (if alternative_syllabification
               then ALTERNATIVE_SYLLABIFICATION (lower word)
               else None) = None).
  { destruct alternative_syllabification; auto. }
  rewrite E. eexists. split; [reflexivity|]. apply syllables_of_hyphenated.
Qed.

(** X16.  Unless the alternative syllabification is asked for and the word,
    in lower case, is registered for one, [syllabify] returns, for every
    word and every content of the tables: the syllables are the pieces
    between the hyphens, none is empty and none holds a hyphen. With a
    registered word it returns the first registered variant, and raises
    [IndexError] when there is none; it raises in no other case. *)
Theorem syllabify_outcome
        (word : str) (alternative_syllabification : bool) :
  ((alternative_syllabification = true ->
    ALTERNATIVE_SYLLABIFICATION (lower word) = None) ->
   exists syllables alternatives,
     syllabify SYLLABIFICATOR_FOREIGN_WORDS_DICT
               ALTERNATIVE_SYLLABIFICATION
               word alternative_syllabification
     = Ret (syllables, alternatives)
     /\ Forall (fun s => s <> [] /\ mem HYPHEN s = false) syllables)
  /\ (forall value chosen variants,
        ALTERNATIVE_SYLLABIFICATION (lower word)
        = Some (value, chosen :: variants) ->
        syllabify SYLLABIFICATOR_FOREIGN_WORDS_DICT
                  ALTERNATIVE_SYLLABIFICATION word true
        = Ret (fst chosen, Attached (snd chosen)))
  /\ (forall e,
        syllabify SYLLABIFICATOR_FOREIGN_WORDS_DICT
                  ALTERNATIVE_SYLLABIFICATION
                  word alternative_syllabification
        = Raise e ->
        e = IndexError /\ alternative_syllabification = true
        /\ exists value,
             ALTERNATIVE_SYLLABIFICATION (lower word) = Some (value, [])).
Proof.
  split; [|split].
  - intro A. destruct (syllabify_shape A) as (l & E & F). eauto.
  - intros value chosen variants A. unfold syllabify. now rewrite A.
  - intros e H. unfold syllabify in H.
    destruct alternative_syllabification; [|discriminate H].
    destruct (ALTERNATIVE_SYLLABIFICATION (lower word))
      as [[value [|chosen variants]]|]; try discriminate H.
    cbn in H. injection H as <-. eauto.
Qed.

End SyllabifyOutcome.

Lemma syllabify_outcome_witness :
  exists syllables alternatives,
    syllabify no_foreign_words no_alternatives (u "can-ta--ba") true
    = Ret (syllables, alternatives)
    /\ Forall (fun s => s <> [] /\ mem HYPHEN s = false) syllables.
Proof.
  destruct (@syllabify_outcome unit no_foreign_words no_alternatives
              (u "can-ta--ba") true) as [R _].
  apply R. reflexivity.
Defined.

(** ** Lines that are analysed without error *)

Lemma have_prosodic_liaison_returns (first second : Syllable) :
  text first <> [] -> text second <> [] ->
  exists b, have_prosodic_liaison first second = Ret b.
Proof.
  intros Hf Hs. unfold have_prosodic_liaison.
  destruct (text second) as [|c0 rest]; [contradiction|].
  cbn [first_char index nth_error bind].
  match goal with
  | |- context [if ?c then _ else _] => destruct c
  end; [eauto|].
  rewrite (last_char_last Hf). cbn [bind].
  destruct (mem _ LIAISON_FIRST_PART); eauto.
Qed.

Lemma on_last_Forall {A} (P : A -> Prop) (g : A -> A) (l : list A) :
  (forall a, P a -> P (g a)) -> Forall P l -> Forall P (on_last g l).
Proof.
  intros G F. destruct l as [|x l0] eqn:E; [constructor|]. rewrite <- E in *.
  assert (N : l <> []) by (rewrite E; discriminate).
  destruct (exists_last N) as (front & a & ->).
  rewrite on_last_snoc. apply Forall_app in F as [F1 F2].
  apply Forall_app. split; [exact F1|].
  inversion F2; subst. constructor; auto.
Qed.

Lemma get_last_syllable_returns (W : list word_token) :
  Forall solid W ->
  exists found,
    get_last_syllable W = Ret found
    /\ forall s, found = Some s -> text s <> [].
Proof.
  intro F. unfold get_last_syllable. apply Forall_rev in F.
  induction F as [|w reversed Hw _ IH]; cbn [get_last_syllable_rev].
  - exists None. split; [reflexivity | discriminate].
  - destruct w as [word p|s]; [|exact IH].
    destruct Hw as [N T]. apply Forall_rev in T.
    destruct (rev word) as [|z front] eqn:R.
    + apply (f_equal (@rev Syllable)) in R. rewrite rev_involutive in R.
      now destruct N.
    + exists (Some z). split; [reflexivity|]. intros s [= <-].
      now inversion T.
Qed.

Lemma update_last_syllable_solid (W : list word_token) :
  Forall solid W -> Forall solid (update_last_syllable W).
Proof.
  intro F. unfold update_last_syllable. apply Forall_rev.
  apply Forall_rev in F.
  induction F as [|w reversed Hw Hr IH]; [constructor|].
  destruct w as [word p|s]; cbn [update_last_syllable_rev].
  - constructor; [|exact Hr]. destruct Hw as [N T]. split.
    + now apply on_last_final.
    + apply on_last_Forall; [|exact T]. now intros a Ha.
  - constructor; [exact Hw | exact IH].
Qed.

Section Returns.

Variable V : Type.
Variable SYLLABIFICATOR_FOREIGN_WORDS_DICT : str -> option str.
Variable ALTERNATIVE_SYLLABIFICATION : str -> option (V * list (variant V)).

Lemma get_word_stress_returns
      (word pos : str) (tag : dict) (alternative_syllabification : bool)
      (syllable_list : list str) (alternatives : alternatives V) :
  syllabify SYLLABIFICATOR_FOREIGN_WORDS_DICT ALTERNATIVE_SYLLABIFICATION
            word alternative_syllabification
  = Ret (syllable_list, alternatives) ->
  syllable_list <> [] ->
  exists out p,
    get_word_stress SYLLABIFICATOR_FOREIGN_WORDS_DICT
                    ALTERNATIVE_SYLLABIFICATION
                    word pos tag alternative_syllabification
    = Ret (Word out p)
    /\ map text out = syllable_list.
Proof.
  intros E Ne. unfold get_word_stress. rewrite E. cbn [bind].
  match goal with
  | |- context [bind ?m _] => assert (P : exists p, m = Ret p)
  end.
  { destruct (Nat.eqb (length syllable_list) 1) eqn:L1.
    - apply Nat.eqb_eq in L1.
      destruct syllable_list as [|s [|]]; try discriminate.
      cbn [map index nth_error bind length].
      match goal with
      | |- context [if ?b then _ else _] => destruct b
      end; eauto.
    - match goal with
      | |- context [if ?b then _ else _] => destruct b
      end; [|eauto].
      destruct (get_orthographic_accent syllable_list); [eauto|].
      destruct (is_paroxytone_returns Ne) as [b ->]. cbn [bind].
      destruct b; eauto. }
  destruct P as (p & ->). cbn [bind].
  do 2 eexists. split; [reflexivity|].
  apply (stress_syllables_spec (length syllable_list) p syllable_list 0).
Qed.

Lemma get_words_step_returns (alternative_syllabification : bool)
      (W : list word_token) (token : Token.t) :
  ordinary SYLLABIFICATOR_FOREIGN_WORDS_DICT ALTERNATIVE_SYLLABIFICATION
           token ->
  Forall solid W ->
  exists W',
    get_words_step SYLLABIFICATOR_FOREIGN_WORDS_DICT
                   ALTERNATIVE_SYLLABIFICATION
                   alternative_syllabification W token = Ret W'
    /\ Forall solid W'.
Proof.
  intros O S. unfold get_words_step.
  destruct (Token.is_alpha token) eqn:Al.
  - destruct (O Al) as (Ne & M & F & A & D & T).
    rewrite D. cbn [bind].
    assert (Tg : exists tags, spacy_tag_to_dict (Token.tag_ token) = Ret tags).
    { unfold spacy_tag_to_dict.
      destruct (mem EQUALS (Token.tag_ token)) eqn:Eq.
      - rewrite (mem_nonempty Eq). cbn [andb].
        destruct (features_of_pieces (split BAR (Token.tag_ token)))
          as [R _].
        destruct (R (T eq_refl)) as (d & -> & _). cbn [bind]. eauto.
      - rewrite andb_false_r. eauto. }
    destruct Tg as [tags ->]. cbn [bind].
    destruct (@syllabify_shape V SYLLABIFICATOR_FOREIGN_WORDS_DICT
                ALTERNATIVE_SYLLABIFICATION (Token.text token)
                alternative_syllabification (fun _ => A))
      as (l & E & Fl).
    destruct (@syllabify_of_letters V SYLLABIFICATOR_FOREIGN_WORDS_DICT
                ALTERNATIVE_SYLLABIFICATION (Token.text token)
                alternative_syllabification F (fun _ => A) Ne M)
      as (l' & alts & E' & _ & Nl & _).
    rewrite E in E'. injection E' as <- _.
    destruct (get_word_stress_returns (Token.pos_ token) tags E Nl)
      as (out & p & -> & Tx).
    cbn [bind].
    destruct (get_last_syllable_returns S) as (found_syllable & -> & Hf).
    cbn [bind].
    assert (So : solid (Word out p)).
    { split.
      - intros ->. now destruct Nl.
      - rewrite <- Tx in Fl. apply Forall_map in Fl.
        eapply Forall_impl; [|exact Fl]. now intros s [H _]. }
    destruct out as [|second rest]; [now destruct So|].
    cbn [index nth_error bind].
    assert (Mk : exists marked,
               match found_syllable with
               | Some first_syllable =>
                 liaison <- have_prosodic_liaison first_syllable second ;;
                 Ret (if liaison then update_last_syllable W else W)
               | None => Ret W
               end = Ret marked
               /\ Forall solid marked).
    { destruct found_syllable as [first_syllable|]; [|eauto].
      destruct (@have_prosodic_liaison_returns first_syllable second)
        as [b ->].
      - now apply Hf.
      - destruct So as [_ T']. now inversion T'.
      - cbn [bind]. eexists. split; [reflexivity|].
        destruct b; [now apply update_last_syllable_solid | exact S]. }
    destruct Mk as (marked & -> & Sm). cbn [bind].
    eexists. split; [reflexivity|]. apply Forall_app. split; [exact Sm|].
    now constructor.
  - eexists. split; [reflexivity|]. apply Forall_app. split; [exact S|].
    now repeat constructor.
Qed.

Lemma get_words_from_returns (alternative_syllabification : bool)
      (tokens : list Token.t) : forall W,
  Forall (ordinary SYLLABIFICATOR_FOREIGN_WORDS_DICT
                   ALTERNATIVE_SYLLABIFICATION) tokens ->
  Forall solid W ->
  exists W',
    get_words_from SYLLABIFICATOR_FOREIGN_WORDS_DICT
                   ALTERNATIVE_SYLLABIFICATION
                   alternative_syllabification W tokens = Ret W'
    /\ Forall solid W'.
Proof.
  induction tokens as [|token tokens IH]; intros W O S;
    cbn [get_words_from]; [eauto|].
  inversion O as [|? ? Ot Or]; subst.
  destruct (get_words_step_returns alternative_syllabification Ot S)
    as (W1 & -> & S1).
  cbn [bind]. now apply IH.
Qed.

(** X17.  [get_words] returns for every line of ordinary tokens, with or
    without alternative syllabification: words of letters that are in none
    of the two tables, with a tag of features or a tag without equals sign,
    and any tokens that are not alphabetic. Every word that it returns has
    syllables, and every syllable has characters. *)
Theorem get_words_returns
        (tokens : list Token.t) (alternative_syllabification : bool) :
  Forall (ordinary SYLLABIFICATOR_FOREIGN_WORDS_DICT
                   ALTERNATIVE_SYLLABIFICATION) tokens ->
  exists words,
    get_words SYLLABIFICATOR_FOREIGN_WORDS_DICT ALTERNATIVE_SYLLABIFICATION
              tokens alternative_syllabification = Ret words
    /\ Forall solid words.
Proof.
  intro O. now apply get_words_from_returns.
Qed.

End Returns.

Lemma get_words_returns_witness :
  exists words,
    get_words no_foreign_words no_alternatives lee_a_casa true = Ret words
    /\ Forall solid words.
Proof.
  apply (@get_words_returns unit no_foreign_words no_alternatives
                            lee_a_casa true).
  repeat constructor; discriminate.
Defined.

Lemma split_lines_Forall (P : Token.t -> Prop) (tokens : list Token.t) :
  forall seen,
    Forall P (seen ++ tokens) ->
    Forall (Forall P) (split_lines seen tokens).
Proof.
  induction tokens as [|token rest IH]; intros seen F; cbn [split_lines].
  - rewrite app_nil_r in F. destruct (0 <? length seen); now constructor.
  - apply Forall_app in F as [Fs Ft]. inversion Ft; subst.
    destruct (_ && _ && _).
    + constructor; [exact Fs|]. now apply IH.
    + apply IH. rewrite <- app_assoc. apply Forall_app. now split.
Qed.

Lemma mapM_returns {A B} (f : A -> outcome B) (l : list A) :
  Forall (fun a => exists b, f a = Ret b) l ->
  exists l', mapM f l = Ret l'.
Proof.
  induction 1 as [|a l [b Hb] _ [bs IH]]; [now exists []|].
  cbn [mapM]. rewrite Hb, IH. cbn. eauto.
Qed.

Section StressOnly.

Variable V : Type.
Variable SYLLABIFICATOR_FOREIGN_WORDS_DICT : str -> option str.
Variable ALTERNATIVE_SYLLABIFICATION : str -> option (V * list (variant V)).
Variable analyze_rhyme : list (line V) -> option (rhyme_result V).
Variable STRUCTURES_LENGTH : str -> option (list Z).

Lemma natural_lines (rhythm_format : str)
      (raws : list (list Token.t)) (words : list (list word_token)) :
  Forall2 (fun raw w =>
             get_words SYLLABIFICATOR_FOREIGN_WORDS_DICT
                       ALTERNATIVE_SYLLABIFICATION raw true = Ret w)
          raws words ->
  (forallb (line_stress SYLLABIFICATOR_FOREIGN_WORDS_DICT
                        ALTERNATIVE_SYLLABIFICATION) raws = true ->
   exists lines,
     mapM (natural_line V rhythm_format) words = Ret lines
     /\ length lines = length raws
     /\ Forall (fun l => rhyme_analysis_keys l = None) lines)
  /\ (forallb (line_stress SYLLABIFICATOR_FOREIGN_WORDS_DICT
                           ALTERNATIVE_SYLLABIFICATION) raws = false ->
      mapM (natural_line V rhythm_format) words = Raise ValueError).
Proof.
  induction 1 as [|raw w raws words Hw _ [IHt IHf]].
  - split; [|discriminate]. intros _. exists []. now repeat split.
  - cbn [forallb mapM]. unfold line_stress at 1 3. rewrite Hw.
    destruct (natural_line_cases rhythm_format Hw) as [Rt Rf].
    destruct (existsb is_stressed (snd (get_syllables_word_end w))).
    + destruct (Rt eq_refl) as (l & N & _). rewrite N. cbn [bind andb].
      destruct (natural_line_scanned Hw N) as [_ K].
      split; intro H.
      * destruct (IHt H) as (ls & -> & L & F). cbn [bind].
        exists (l :: ls). split; [reflexivity|]. split.
        -- cbn [length]. now rewrite L.
        -- now constructor.
      * now rewrite (IHf H).
    + split; [discriminate|]. intros _. now rewrite (Rf eq_refl).
Qed.

Lemma fit_lines_without_lengths (rhythm_format : str)
      (raw_tokens : list (list Token.t)) (lines : list (line V)) :
  Forall (fun l => rhyme_analysis_keys l = None) lines ->
  forall idx,
    mapM_indexed (fit_line SYLLABIFICATOR_FOREIGN_WORDS_DICT
                           ALTERNATIVE_SYLLABIFICATION STRUCTURES_LENGTH
                           rhythm_format None raw_tokens) idx lines
    = Ret lines.
Proof.
  induction 1 as [|l lines K _ IH]; intro idx; [reflexivity|].
  cbn [mapM_indexed]. unfold fit_line at 1, structure_length_of.
  rewrite K. cbn [bind]. now rewrite IH.
Qed.

(** X18.  On a text of ordinary tokens, without rhyme analysis and without
    expected lengths, [get_scansion] fails for the lack of stress only: it
    returns, with one line for each line of the text, when every line has a
    stressed syllable, and raises [ValueError] as soon as a line has none.
    It raises no other exception. *)
Theorem get_scansion_fails_for_stress_only
        (text : list Token.t) (rhythm_format : str) :
  Forall (ordinary SYLLABIFICATOR_FOREIGN_WORDS_DICT
                   ALTERNATIVE_SYLLABIFICATION) text ->
  (forallb (line_stress SYLLABIFICATOR_FOREIGN_WORDS_DICT
                        ALTERNATIVE_SYLLABIFICATION)
           (split_lines [] text) = true ->
   exists lines,
     get_scansion SYLLABIFICATOR_FOREIGN_WORDS_DICT
                  ALTERNATIVE_SYLLABIFICATION analyze_rhyme
                  STRUCTURES_LENGTH text false rhythm_format None
     = Ret lines
     /\ length lines = length (split_lines [] text))
  /\ (forallb (line_stress SYLLABIFICATOR_FOREIGN_WORDS_DICT
                           ALTERNATIVE_SYLLABIFICATION)
              (split_lines [] text) = false ->
      get_scansion SYLLABIFICATOR_FOREIGN_WORDS_DICT
                   ALTERNATIVE_SYLLABIFICATION analyze_rhyme
                   STRUCTURES_LENGTH text false rhythm_format None
      = Raise ValueError).
Proof.
  intro O. unfold get_scansion.
  assert (W : exists words,
             mapM (fun seen_tokens =>
                     get_words SYLLABIFICATOR_FOREIGN_WORDS_DICT
                               ALTERNATIVE_SYLLABIFICATION seen_tokens true)
                  (split_lines [] text) = Ret words).
  { apply mapM_returns.
    pose proof (@split_lines_Forall _ text [] O) as F.
    eapply Forall_impl; [|exact F]. intros raw Fr.
    destruct (@get_words_from_returns
                V SYLLABIFICATOR_FOREIGN_WORDS_DICT
                ALTERNATIVE_SYLLABIFICATION true raw [] Fr (Forall_nil _))
      as (w & E & _).
    now exists w. }
  destruct W as [words W]. rewrite W. cbn [bind].
  apply mapM_Forall2 in W.
  destruct (natural_lines rhythm_format W) as [Rt Rf]. split; intro H.
  - destruct (Rt H) as (lines & -> & L & K). cbn [bind].
    rewrite (fit_lines_without_lengths _ _ K). eauto.
  - now rewrite (Rf H).
Qed.

End StressOnly.

Lemma get_scansion_fails_for_stress_only_witness :
  get_scansion no_foreign_words no_alternatives no_rhymes no_structures
               [alpha "de" "ADP"; alpha "la" "DET"] false PATTERN None
  = Raise ValueError.
Proof.
  destruct (@get_scansion_fails_for_stress_only
              unit no_foreign_words no_alternatives no_rhymes no_structures
              [alpha "de" "ADP"; alpha "la" "DET"] PATTERN) as [_ E].
  - repeat constructor; discriminate.
  - apply E. vm_compute. reflexivity.
Defined.

(** ** The runs of syllables behind the groups *)

Lemma lower_is_h (c : char) :
  lower_is c 104%N = char_eqb c 104%N || char_eqb c 72%N.
Proof.
  destruct (N.ltb_spec c 512) as [Hc|Hc].
  - apply eqb_prop.
    apply (@below_by_cases
             (fun c => eqb (lower_is c 104%N)
                           (char_eqb c 104%N || char_eqb c 72%N)) 512);
      [vm_compute; reflexivity | exact Hc].
  - destruct (tolower_above Hc) as [E T]. unfold lower_is. rewrite E.
    unfold char_eqb.
    replace (c =? 104)%N with false by (symmetry; apply N.eqb_neq; lia).
    replace (c =? 72)%N with false by (symmetry; apply N.eqb_neq; lia).
    cbn. unfold char_eqb. rewrite andb_true_r. apply N.eqb_neq. lia.
Qed.

(** A step of the scan that fuses two syllables has consulted the
    breakage function, which did not break their liaison. *)
Lemma scan_step_unbroken lt bf ss lp idx s st st' next :
  length lp = length ss ->
  scan_step lt bf ss lp idx s st = Ret st' ->
  skip_next st = false -> skip_next st' = true ->
  nth_error ss (idx + 1) = Some next ->
  unbroken lt bf s next.
Proof.
  intros A H Sk Sk' Hn. unfold scan_step in H. rewrite Sk in H.
  destruct (Z.ltb_spec (Z.of_nat idx) (Z.of_nat (length ss) - 1))
    as [Lt|Ge].
  - apply bind_Ret in H as ([nxt breaks] & N & H).
    apply bind_Ret in N as (nxt' & Hn' & N).
    apply bind_Ret in N as (b & B & N). injection N as <- <-.
    apply index_Ret in Hn'. rewrite Hn in Hn'. injection Hn' as <-.
    apply bind_Ret in H as (position & _ & H).
    destruct b.
    + rewrite andb_false_r in H. injection H as <-. discriminate Sk'.
    + unfold unbroken. now destruct bf.
  - assert (idx + 1 < length ss) by (apply nth_error_Some; congruence).
    lia.
Qed.

Lemma scan_from_paired lt bf ss lp (A : length lp = length ss)
      (rest : list Syllable) : forall idx st st',
  scan_from lt bf ss lp idx rest st = Ret st' ->
  skipn idx ss = rest ->
  exists out,
    reduced_syllables st' = reduced_syllables st ++ out
    /\ paired lt bf (if skip_next st then tl rest else rest) out.
Proof.
  induction rest as [|s rest IH]; intros idx st st' H R.
  - cbn in H. injection H as <-. exists []. rewrite app_nil_r.
    split; [reflexivity|]. destruct (skip_next st); constructor.
  - cbn [scan_from] in H. apply bind_Ret in H as (st1 & H1 & H).
    apply skipn_cons in R as [Hs R].
    destruct (IH _ _ _ H R) as (out & E & P).
    pose proof (scan_step_unbroken (next := hd s rest) A H1) as U.
    apply (scan_step_aligned A) in H1
      as [(Sk & Sk' & E1)|[(Sk & Sk' & E1)|(Sk & Sk' & next & Hn & E1)]];
      rewrite Sk; rewrite Sk' in P; rewrite E1 in E; cbn [tl].
    + exists out. now split.
    + exists (s :: out). rewrite <- app_assoc in E.
      split; [exact E|]. now constructor.
    + exists (fuse lt s next :: out). rewrite <- app_assoc in E.
      split; [exact E|].
      assert (Er : rest = next :: tl rest).
      { rewrite Nat.add_1_r in Hn. rewrite <- R.
        destruct (skipn (S idx) ss) as [|x r] eqn:K.
        - apply (f_equal (@length _)) in K. rewrite length_skipn in K.
          assert (S idx < length ss) by (apply nth_error_Some; congruence).
          cbn in K. lia.
        - apply skipn_cons in K as [K _]. rewrite Hn in K.
          now injection K as <-. }
      rewrite Er in U |- *. cbn [hd tl] in *.
      constructor; [|exact P]. now apply U.
Qed.

Lemma reduce_paired lt bf (P : list Syllable -> Prop) :
  (forall cur out, P cur -> paired lt bf cur out -> P out) ->
  forall fuel ss lp next count out lp' count',
    length lp = length ss ->
    P ss ->
    reduce fuel lt bf ss lp false next count = Ret (out, lp', count') ->
    P out.
Proof.
  intros Step.
  induction fuel as [|fuel IH];
    intros ss lp next count out lp' count' A Pss H;
    cbn [reduce] in H; destruct (0 <? sum lp)%Z eqn:Sm;
    try discriminate H; try (now injection H as <- <- <-).
  apply bind_Ret in H as (st' & E & H).
  destruct (scan_aligned A E) as (L & _ & _ & Ne & _).
  destruct ss as [|s ss].
  { apply length_zero_nil in A. subst lp. discriminate Sm. }
  destruct Ne as [S' _]; [discriminate|]. rewrite S' in H.
  apply IH in H; [exact H | exact L |].
  unfold scan in E.
  apply (scan_from_paired A) in E as (o & E & Pr); [|reflexivity].
  cbn [reduced_syllables skip_next app] in *. rewrite E.
  eapply Step; eauto.
Qed.

Lemma text_fuse lt a b : text (fuse lt a b) = text a ++ text b.
Proof. now destruct lt. Qed.

Lemma is_stressed_fuse lt a b :
  is_stressed (fuse lt a b) = is_stressed a || is_stressed b.
Proof. now destruct lt. Qed.

(** A syllable that [break_on_h] lets join the one before it does not
    start with [h], and neither does the first syllable of its run. *)
Lemma unbroken_run (s next : Syllable) (run : list Syllable) :
  unbroken synalepha (Some break_on_h) s next ->
  text next = concat (map text run) ->
  h_initial (hd next run) = false \/ run = [].
Proof.
  intros U T. destruct run as [|x run]; [now right|]. left. cbn [hd].
  unfold unbroken, break_on_h in U. cbn [liaison_eqb] in U.
  cbn [map concat] in T. unfold h_initial.
  destruct (text x) as [|c t]; [reflexivity|].
  rewrite T in U. cbn in U. injection U as U. now rewrite <- lower_is_h.
Qed.

Lemma paired_runs lt bf (cur out : list Syllable) :
  paired lt bf cur out ->
  forall runs,
    Forall2 (run_of lt bf) runs cur ->
    exists runs',
      concat runs' = concat runs /\ Forall2 (run_of lt bf) runs' out.
Proof.
  induction 1 as [|s ss out _ IH|s next ss out U _ IH]; intros runs F.
  - inversion F; subst. exists []. split; [reflexivity | constructor].
  - inversion F as [|r ? rs ? Hr Fr]; subst.
    destruct (IH _ Fr) as (rs' & C & F').
    exists (r :: rs'). cbn [concat]. rewrite C.
    split; [reflexivity | now constructor].
  - inversion F as [|r1 ? rs1 ? Hr1 Fr1]; subst.
    inversion Fr1 as [|r2 ? rs ? Hr2 Fr]; subst.
    destruct (IH _ Fr) as (rs' & C & F').
    exists ((r1 ++ r2) :: rs'). cbn [concat]. rewrite C, app_assoc.
    split; [reflexivity|]. constructor; [|exact F'].
    destruct Hr1 as (N1 & T1 & S1 & H1), Hr2 as (N2 & T2 & S2 & H2).
    split; [|split; [|split]].
    + now destruct r1.
    + now rewrite text_fuse, T1, T2, map_app, concat_app.
    + now rewrite is_stressed_fuse, S1, S2, existsb_app.
    + intros -> ->. specialize (H1 eq_refl eq_refl).
      specialize (H2 eq_refl eq_refl).
      destruct r1 as [|x r1]; [now destruct N1|]. cbn [app tl] in *.
      apply Forall_app. split; [exact H1|].
      destruct (unbroken_run U T2) as [Hh|E]; [|now destruct N2].
      destruct r2 as [|y r2]; [now destruct N2|]. cbn [hd tl] in *.
      now constructor.
Qed.

Lemma clean_from_runs lt bf lp (groups : list Syllable) :
  forall idx runs out,
    clean_from lt lp idx groups = Ret out ->
    Forall2 (run_of lt bf) runs groups ->
    Forall2 (run_of lt bf) runs out.
Proof.
  induction groups as [|g groups IH]; intros idx runs out H F;
    cbn [clean_from] in H.
  - injection H as <-. exact F.
  - apply bind_Ret in H as (g' & G & H).
    apply bind_Ret in H as (gs & H' & H). injection H as <-.
    inversion F as [|r ? rs ? Hr Fr]; subst.
    constructor; [|now apply (IH _ _ _ H')].
    destruct (has_liaison lt g); [|now injection G as <-].
    apply bind_Ret in G as (p & _ & G). injection G as <-.
    destruct Hr as (N & T & S & Hh).
    destruct (set_has_liaison_keeps lt (Some (truthy p)) g) as [Kt Ks].
    unfold run_of. now rewrite Kt, Ks.
Qed.

(** X19.  Over the eligibility read from the flags, and over a vector that
    has the length of the syllables, the groups that
    [get_phonological_groups] returns are made of runs of syllables that
    follow each other: the syllables are cut into as many runs as there are
    groups, each group holds the text of the syllables of its run, in
    order, and is stressed when one of them is. With the synalepha and
    [break_on_h], a syllable that starts with [h] is never joined to the
    syllable before it. Nothing is said of a vector of another length. *)
Theorem get_phonological_groups_runs
        (ss : list Syllable) (lt : liaison) (bf : option breakage)
        (lp : option (list Z)) (out : list Syllable) :
  (forall l, lp = Some l -> length l = length ss) ->
  get_phonological_groups ss lt bf lp = Ret out ->
  exists runs,
    concat runs = ss /\ Forall2 (run_of lt bf) runs out.
Proof.
  intros A H. unfold get_phonological_groups in H.
  apply bind_Ret in H as ([out' merges] & H & E). injection E as <-.
  unfold get_phonological_groups_fused in H.
  apply bind_Ret in H as ([[groups lp'] count] & R & H).
  apply bind_Ret in H as (cleaned & C & H). injection H as <- <-.
  cbn [fst].
  assert (G : exists runs,
             concat runs = ss /\ Forall2 (run_of lt bf) runs groups).
  { apply (@reduce_paired lt bf
             (fun cur => exists runs,
                  concat runs = ss /\ Forall2 (run_of lt bf) runs cur))
      in R; [exact R | | |].
    - intros cur o (runs & Cr & Fr) P.
      destruct (paired_runs P Fr) as (runs' & C' & F').
      exists runs'. split; [now rewrite C' | exact F'].
    - destruct lp as [l|]; [now apply A | apply flag_positions_length].
    - exists (map (fun s => [s]) ss). split.
      + clear. induction ss as [|s ss IH]; [reflexivity|].
        cbn [map concat app]. now rewrite IH.
      + clear. induction ss as [|s ss IH]; constructor; [|exact IH].
        split; [discriminate|]. cbn. rewrite app_nil_r, orb_false_r.
        repeat split. intros _ _. constructor. }
  destruct G as (runs & Cr & Fr). exists runs. split; [exact Cr|].
  eapply clean_from_runs; eauto.
Qed.

Lemma get_phonological_groups_runs_witness :
  exists out,
    get_phonological_groups
      [set_has_liaison synalepha (Some true) (plain (u "la") false);
       set_has_liaison synalepha (Some true) (plain (u "ha") false);
       plain (u "a") true; plain (u "ve") false]
      synalepha (Some break_on_h) None = Ret out
    /\ map text out = [u "la"; u "haa"; u "ve"]
    /\ exists runs, Forall2 (run_of synalepha (Some break_on_h)) runs out.
Proof.
  eexists. split; [vm_compute; reflexivity|]. split; [reflexivity|].
  match goal with
  | |- exists runs, Forall2 _ runs ?o =>
    destruct (@get_phonological_groups_runs
                [set_has_liaison synalepha (Some true)
                                 (plain (u "la") false);
                 set_has_liaison synalepha (Some true)
                                 (plain (u "ha") false);
                 plain (u "a") true; plain (u "ve") false]
                synalepha (Some break_on_h) None o)
      as (runs & _ & F)
  end.
  - discriminate.
  - vm_compute. reflexivity.
  - exists runs. exact F.
Defined.

(** ** The rules before and after the scan of the clusters *)

(** X20.  The two functions of exception rules and the scan of the letter
    clusters between them only set or move hyphens: the word without its
    hyphens is the same before and after each of them. For the rules that
    come first this holds for a word without line break, the other two need
    no condition. *)
Theorem exception_rules_move_hyphens_only (word : str) :
  (no_newline word -> strip (apply_exception_rules word) = strip word)
  /\ strip (cluster_scan word) = strip word
  /\ strip (apply_exception_rules_post word) = strip word.
Proof.
  split; [apply apply_exception_rules_strip|]. split.
  - apply cluster_scan_strip.
  - apply apply_exception_rules_post_strip.
Qed.

Lemma exception_rules_move_hyphens_only_witness :
  strip (apply_exception_rules (u "sinsabor")) = u "sinsabor"
  /\ apply_exception_rules (u "sinsabor") = u "sin-sabor".
Proof.
  destruct (@exception_rules_move_hyphens_only (u "sinsabor")) as [E _].
  split; [|vm_compute; reflexivity].
  rewrite E; [reflexivity|]. repeat constructor.
Defined.

(** ** Words without stress *)

Lemma stress_syllables_unstressed (l : list str) :
  Forall (fun s => is_stressed s = false)
         (stress_syllables (length l) 0 0 l).
Proof.
  destruct (stress_syllables_spec (length l) 0 l 0) as [T F].
  apply Forall_forall. intros s Hs.
  apply In_nth_error in Hs as [i Hi]. rewrite (F _ _ Hi).
  assert (I : i < length l).
  { rewrite <- T at 1. rewrite length_map. apply nth_error_Some.
    now rewrite Hi. }
  apply Z.eqb_neq. lia.
Qed.

Section Unstressed.

Variable V : Type.
Variable SYLLABIFICATOR_FOREIGN_WORDS_DICT : str -> option str.
Variable ALTERNATIVE_SYLLABIFICATION : str -> option (V * list (variant V)).

(** X21.  Two kinds of words are without stress, whatever their tag: a word
    of one syllable that is in the list of the unstressed monosyllables,
    whatever its part of speech; and a preposition or a conjunction that is
    not a possessive pronoun and, when it has one syllable, is not in the
    list of the stressed monosyllables. Their stress position is 0 and none
    of their syllables is stressed. *)
Theorem get_word_stress_unstressed
        (word pos : str) (tag : dict) (alternative_syllabification : bool)
        (syllable_list : list str) (alternatives : alternatives V) :
  syllabify SYLLABIFICATOR_FOREIGN_WORDS_DICT ALTERNATIVE_SYLLABIFICATION
            word alternative_syllabification
  = Ret (syllable_list, alternatives) ->
  (exists s,
      syllable_list = [s]
      /\ smem (lower s) UNSTRESSED_UNACCENTED_MONOSYLLABLES = true)
  \/ (ins pos ["SCONJ"; "CCONJ"; "ADP"] = true
      /\ smem (lower word) POSSESSIVE_PRON = false
      /\ forall s,
           syllable_list = [s] ->
           smem (lower s) STRESSED_UNACCENTED_MONOSYLLABLES = false) ->
  exists out,
    get_word_stress SYLLABIFICATOR_FOREIGN_WORDS_DICT
                    ALTERNATIVE_SYLLABIFICATION
                    word pos tag alternative_syllabification
    = Ret (Word out 0)
    /\ map text out = syllable_list
    /\ Forall (fun s => is_stressed s = false) out.
Proof.
  intros E H. unfold get_word_stress. rewrite E. cbn [bind].
  match goal with
  | |- context [bind ?m _] => assert (P : m = Ret 0%Z)
  end.
  { destruct H as [(s & -> & U)|(P & Q & M)].
    - cbn [length Nat.eqb map index nth_error bind]. now rewrite U.
    - assert (Pos : pos = u "SCONJ" \/ pos = u "CCONJ" \/ pos = u "ADP").
      { unfold ins, smem in P. cbn [map existsb] in P.
        rewrite orb_false_r in P.
        apply orb_true_iff in P as [P|P];
          [|apply orb_true_iff in P as [P|P]];
          apply str_eqb_eq in P; auto. }
      rewrite Q.
      destruct (Nat.eqb (length syllable_list) 1) eqn:L1.
      + apply Nat.eqb_eq in L1.
        destruct syllable_list as [|s [|]]; try discriminate.
        cbn [map index nth_error bind]. rewrite (M s eq_refl).
        destruct Pos as [->|[->| ->]];
          (destruct (smem (lower s) UNSTRESSED_UNACCENTED_MONOSYLLABLES);
           reflexivity).
      + destruct Pos as [->|[->| ->]]; reflexivity. }
  rewrite P. cbn [bind]. eexists. split; [reflexivity|]. split.
  - apply (stress_syllables_spec (length syllable_list) 0 syllable_list 0).
  - apply stress_syllables_unstressed.
Qed.

End Unstressed.

Lemma get_word_stress_unstressed_witness :
  exists out,
    get_word_stress no_foreign_words no_alternatives
                    (u "desde") (u "ADP") [] true
    = Ret (Word out 0)
    /\ map text out = [u "des"; u "de"].
Proof.
  destruct (@get_word_stress_unstressed
              unit no_foreign_words no_alternatives
              (u "desde") (u "ADP") [] true
              [u "des"; u "de"] (Variants []))
    as (out & E & T & _).
  - vm_compute. reflexivity.
  - right. split; [reflexivity|]. split; [reflexivity|]. discriminate.
  - exists out. split; [exact E | exact T].
Defined.

(** ** How many groups *)

Lemma sum_skipn (lp : list Z) : forall idx p,
  nth_error lp idx = Some p ->
  sum (skipn idx lp) = (p + sum (skipn (S idx) lp))%Z.
Proof.
  induction lp as [|z lp IH]; intros [|idx] p H; try discriminate H.
  - now injection H as <-.
  - cbn [nth_error] in H. now apply IH.
Qed.

Lemma sum_snoc (l : list Z) (z : Z) : sum (l ++ [z]) = (sum l + z)%Z.
Proof.
  unfold sum. induction l as [|x l IH]; cbn [app fold_right]; lia.
Qed.

Lemma binary_nonneg (l : list Z) : binary l -> nonneg l.
Proof.
  intro B. eapply Forall_impl; [|exact B]. intros z [->| ->]; lia.
Qed.

(** The three ways of a step of the scan without breakage function: a
    syllable is kept only where the vector has no liaison. *)
Lemma scan_step_plain lt ss lp idx s st st' :
  scan_step lt None ss lp idx s st = Ret st' ->
  (skip_next st = true /\ skip_next st' = false
   /\ liaison_index st' = liaison_index st /\ fused st' = fused st)
  \/ (skip_next st = false /\ skip_next st' = false
      /\ nth_error lp idx = Some 0%Z
      /\ liaison_index st' = liaison_index st ++ [0%Z]
      /\ fused st' = fused st)
  \/ (skip_next st = false /\ skip_next st' = true
      /\ exists p q,
           nth_error lp idx = Some p /\ truthy p = true
           /\ nth_error lp (idx + 1) = Some q
           /\ liaison_index st' = liaison_index st ++ [q]
           /\ fused st' = S (fused st)).
Proof.
  intro H. unfold scan_step in H. destruct (skip_next st) eqn:Sk.
  - injection H as <-. left. now repeat split.
  - right.
    assert (K : forall next,
               (position <- index lp idx ;;
                if truthy position && negb false then
                  match next with
                  | None => Raise UnboundLocalError
                  | Some nxt =>
                    following <- index lp (idx + 1) ;;
                    Ret (mkScan true next
                                (reduced_syllables st ++ [fuse lt s nxt])
                                (liaison_index st ++ [following])
                                (S (fused st)))
                  end
                else
                  Ret (mkScan false next (reduced_syllables st ++ [s])
                              (liaison_index st ++ [0%Z]) (fused st)))
               = Ret st' ->
               (false = false /\ skip_next st' = false
                /\ nth_error lp idx = Some 0%Z
                /\ liaison_index st' = liaison_index st ++ [0%Z]
                /\ fused st' = fused st)
               \/ (false = false /\ skip_next st' = true
                   /\ exists p q,
                        nth_error lp idx = Some p /\ truthy p = true
                        /\ nth_error lp (idx + 1) = Some q
                        /\ liaison_index st' = liaison_index st ++ [q]
                        /\ fused st' = S (fused st))).
    { intros next K. apply bind_Ret in K as (position & Hp & K).
      apply index_Ret in Hp. rewrite andb_true_r in K.
      destruct (truthy position) eqn:Tp.
      - destruct next as [nxt|]; [|discriminate K].
        apply bind_Ret in K as (following & Hq & K).
        apply index_Ret in Hq. injection K as <-. right.
        split; [reflexivity|]. split; [reflexivity|].
        exists position, following. now repeat split.
      - injection K as <-. left.
        unfold truthy in Tp. apply negb_false_iff, Z.eqb_eq in Tp.
        subst position. now repeat split. }
    destruct (Z.of_nat idx <? Z.of_nat (length ss) - 1)%Z.
    + apply bind_Ret in H as ([next breaks] & N & H).
      apply bind_Ret in N as (nxt & _ & N). cbn [bind] in N.
      injection N as <- <-. exact (K (Some nxt) H).
    + cbn [bind] in H. exact (K (next_syllable st) H).
Qed.

Lemma scan_from_sum lt ss lp (B : binary lp) (rest : list Syllable) :
  forall idx st st',
    scan_from lt None ss lp idx rest st = Ret st' ->
    idx + length rest = length lp ->
    (sum (liaison_index st') + Z.of_nat (fused st')
     = sum (liaison_index st) + Z.of_nat (fused st)
       + sum (skipn (idx + b2n (skip_next st)) lp))%Z
    /\ (binary (liaison_index st) -> binary (liaison_index st')).
Proof.
  induction rest as [|s rest IH]; intros idx st st' H L.
  - cbn in H. injection H as <-. cbn [length] in L.
    rewrite skipn_all2 by lia. cbn. split; [lia | auto].
  - cbn [scan_from] in H. apply bind_Ret in H as (st1 & H1 & H).
    cbn [length] in L. apply IH in H as [E Bi]; [|lia].
    apply scan_step_plain in H1
      as [(Sk & Sk' & Li & Fu)
         |[(Sk & Sk' & Hp & Li & Fu)
          |(Sk & Sk' & p & q & Hp & Tp & Hq & Li & Fu)]];
      rewrite Sk; rewrite Sk', Li, Fu in E; rewrite Li in Bi;
      cbn [b2n] in *.
    + rewrite Nat.add_0_r in E. rewrite Nat.add_1_r.
      split; [exact E | exact Bi].
    + rewrite Nat.add_0_r in *. rewrite (sum_skipn Hp).
      rewrite sum_snoc in E. split; [lia|].
      intro Bs. apply Bi. apply Forall_app. split; [exact Bs|].
      constructor; [now left | constructor].
    + rewrite Nat.add_0_r. rewrite Nat.add_1_r in *.
      rewrite (sum_skipn Hp), (sum_skipn Hq).
      rewrite sum_snoc in E.
      assert (Bq : q = 0%Z \/ q = 1%Z).
      { unfold binary in B. rewrite Forall_forall in B.
        apply B. eapply nth_error_In; eauto. }
      assert (P1 : p = 1%Z).
      { unfold binary in B. rewrite Forall_forall in B.
        destruct (B p) as [->| ->]; [eapply nth_error_In; eauto| |];
          [discriminate Tp | reflexivity]. }
      split; [lia|].
      intro Bs. apply Bi. apply Forall_app. split; [exact Bs|].
      constructor; [exact Bq | constructor].
Qed.

Lemma reduce_sum lt : forall fuel ss lp next count out lp' count',
  length lp = length ss -> binary lp ->
  reduce fuel lt None ss lp false next count = Ret (out, lp', count') ->
  Z.of_nat count' = (Z.of_nat count + sum lp)%Z.
Proof.
  induction fuel as [|fuel IH];
    intros ss lp next count out lp' count' A B H;
    cbn [reduce] in H; destruct (0 <? sum lp)%Z eqn:Sm;
    try discriminate H.
  - injection H as <- <- <-. apply Z.ltb_ge in Sm.
    pose proof (nonneg_sum (binary_nonneg B)). lia.
  - apply bind_Ret in H as (st' & E & H).
    destruct (scan_aligned A E) as (L & _ & _ & Ne & _).
    destruct ss as [|s ss].
    { apply length_zero_nil in A. subst lp. discriminate Sm. }
    destruct Ne as [S' _]; [discriminate|]. rewrite S' in H.
    unfold scan in E.
    apply (scan_from_sum B) in E as [E Bi]; [|cbn [Nat.add]; now rewrite A].
    cbn [liaison_index fused skip_next b2n Nat.add skipn] in E.
    apply IH in H; [|exact L|apply Bi; constructor].
    cbn [sum fold_right] in E. fold (sum lp) in E. lia.
  - injection H as <- <- <-. apply Z.ltb_ge in Sm.
    pose proof (nonneg_sum (binary_nonneg B)). lia.
Qed.

(** X22.  Without breakage function every liaison of the vector is made: for
    a vector of zeros and ones, as long as the syllables and without liaison
    at the final position, [get_phonological_groups] returns, and the groups
    are as many as the syllables less the ones of the vector. When the
    liaisons are read from the flags of syllables the final one of which is
    not flagged, the groups are as many as the syllables less the flagged
    ones. *)
Theorem get_phonological_groups_count
        (ss : list Syllable) (lt : liaison) :
  (forall lp,
      length lp = length ss -> last lp 0%Z = 0%Z -> binary lp ->
      exists out,
        get_phonological_groups ss lt None (Some lp) = Ret out
        /\ Z.of_nat (length out) = (Z.of_nat (length ss) - sum lp)%Z)
  /\ (has_liaison lt (final ss) = None ->
      exists out,
        get_phonological_groups ss lt None None = Ret out
        /\ length out + eligible_count lt ss = length ss).
Proof.
  assert (G : forall lp positions,
             positions = match lp with
                         | Some l => l
                         | None => flag_positions lt ss
                         end ->
             length positions = length ss -> last positions 0%Z = 0%Z ->
             binary positions ->
             exists out,
               get_phonological_groups ss lt None lp = Ret out
               /\ Z.of_nat (length out)
                  = (Z.of_nat (length ss) - sum positions)%Z).
  { intros lp positions E A Lz B.
    unfold get_phonological_groups, get_phonological_groups_fused.
    rewrite <- E.
    destruct (@reduce_safe lt None (length ss + 2) ss positions None 0)
      as (groups & lp' & count' & R & L & _); [exact A | exact Lz | lia |].
    cbn [option_map] in R. rewrite R. cbn [bind].
    unfold clean_phonological_groups.
    destruct (@clean_from_returns lt lp' groups 0) as [out C]; [cbn; lia|].
    rewrite C. cbn [bind fst]. exists out. split; [reflexivity|].
    apply clean_from_length in C. rewrite C.
    pose proof (reduce_count A R) as [N _].
    pose proof (reduce_sum A B R) as S. lia. }
  split.
  - intros lp A Lz B. now apply (G (Some lp) lp).
  - intro F.
    destruct (G None (flag_positions lt ss) eq_refl) as (out & E & N).
    + apply flag_positions_length.
    + now apply flag_positions_last_flag.
    + apply Forall_map. apply Forall_forall. intros s _.
      destruct (has_liaison lt s) as [[|]|]; auto.
    + exists out. split; [exact E|]. rewrite sum_flag_positions in N. lia.
Qed.

Lemma get_phonological_groups_count_witness :
  exists out,
    get_phonological_groups
      [plain (u "la") false; plain (u "a") true; plain (u "ve") false]
      synalepha None (Some [1%Z; 0%Z; 0%Z]) = Ret out
    /\ Z.of_nat (length out) = 2%Z.
Proof.
  destruct (@get_phonological_groups_count
              [plain (u "la") false; plain (u "a") true;
               plain (u "ve") false] synalepha) as [G _].
  apply (G [1%Z; 0%Z; 0%Z]).
  - reflexivity.
  - reflexivity.
  - unfold binary. repeat (apply Forall_cons; [lia|]). apply Forall_nil.
Defined.
